(** * Trip Logbook: the IndexedDB database handler ([TripDatabase])

    A shallow embedding of the persistence module of the Trip Logbook
    application (class [TripDatabase]) and of the part of [handleTripSubmit]
    in [js/app.js] that calls it, followed by the properties of the
    specification that concern them.

    Modelling conventions.
    - Numbers.  The integer-valued JavaScript numbers are modelled as [Z];
      [NaN] is a separate constructor of [number].  The model is exact on
      the safe integers ([isSafeInteger]: up to 2^53 - 1 in magnitude),
      where every integer is a Number value, [Number::toString] prints its
      plain decimal digits and [parseInt] reads them back.  A property that
      lets a number pass through [parseInt] or through a template is
      stated for safe integers.
    - Strings are [string], a character being a code unit below 256; a
      property that may be absent or [undefined] is an [option].
    - Documents and objects are typed: [trips] and [photos] of an import
      document are arrays of trip and photo objects, as [exportData] writes
      them.
    - Timestamps.  [new Date().toISOString()] is modelled by the time value it
      renders (milliseconds, a [Z]); the rendering is injective and, for
      four-digit years, order preserving.  Each [new Date()] reads a clock
      oracle: the [n]-th read of a run observes [clock n].
    - [new Date(s)] for a stored [startDate] is a parameter [DateValue]: its
      result is the time value, or [NaN] for an invalid date.
    - The storage engine.  An object store with [keyPath: 'id'] and
      [autoIncrement: true] is a finite map from integer keys to records
      together with the current number of its key generator; the operations
      [add], [put], [delete], [get], [getAll], [clear] and the index lookup
      follow the Indexed Database API, the limit of the key generator
      ([maxKey], 2^53) included.  The connection is open ([ensureDB] has
      resolved); the engine is idealised in that it never runs out of
      storage and every transaction that is not refused commits.
    - A promise is a state transformer returning a rejection or a value; a
      rejected [await] abandons the rest of the method, keeping the effects
      already committed. *)

From Stdlib Require Import ZArith String Ascii List Lia DecimalString DecimalPos.
From stdpp Require Import gmap strings list fin_maps sorting.

Local Open Scope Z_scope.

(** ** JavaScript values used as identifiers *)

Inductive number : Type :=
  | Int (n : Z)
  | NaN.

Inductive jsval : Type :=
  | Undefined
  | Num (n : Z)
  | Str (s : string).

Global Instance number_eq_dec : EqDecision number.
Proof. solve_decision. Defined.

Global Instance jsval_eq_dec : EqDecision jsval.
Proof. solve_decision. Defined.

(** [parseInt(v)] with no radix: leading white space is skipped (of the code
    units below 256: tab, the line terminators, space and no-break space),
    a sign is read, a [0x]/[0X] prefix selects radix 16, and the longest
    prefix of digits is the result; no digit at all gives [NaN].  The value
    of the digits is taken exactly, as the result is when it is a safe
    integer.  A number is printed first; a safe integer prints as its
    digits, so [parseInt] returns it, and the model takes this for every
    [Num n]. *)
Definition isWhiteSpace (c : ascii) : bool :=
  let n := Z.of_nat (nat_of_ascii c) in
  ((9 <=? n) && (n <=? 13)) || (n =? 32) || (n =? 160).

Fixpoint trimStart (s : string) : string :=
  match s with
  | String c s' => if isWhiteSpace c then trimStart s' else s
  | EmptyString => s
  end.

Definition digitValue (c : ascii) : option Z :=
  let n := Z.of_nat (nat_of_ascii c) in
  if (48 <=? n) && (n <=? 57) then Some (n - 48)
  else if (97 <=? n) && (n <=? 122) then Some (n - 87)
  else if (65 <=? n) && (n <=? 90) then Some (n - 55)
  else None.

Fixpoint parseDigits (R : Z) (acc : option Z) (s : string) : option Z :=
  match s with
  | String c s' =>
      match digitValue c with
      | Some d =>
          if d <? R then parseDigits R (Some (R * default 0 acc + d)) s'
          else acc
      | None => acc
      end
  | EmptyString => acc
  end.

Definition parseIntString (s : string) : number :=
  let S0 := trimStart s in
  let '(sign, S1) :=
    match S0 with
    | String "-" r => (-1, r)
    | String "+" r => (1, r)
    | _ => (1, S0)
    end in
  let '(R, S2) :=
    match S1 with
    | String "0" (String "x" r) => (16, r)
    | String "0" (String "X" r) => (16, r)
    | _ => (10, S1)
    end in
  match parseDigits R None S2 with
  | Some m => Int (sign * m)
  | None => NaN
  end.

Definition parseInt (v : jsval) : number :=
  match v with
  | Undefined => NaN
  | Num n => Int n
  | Str s => parseIntString s
  end.

(** ** Records *)

(** The own properties of a trip object other than [id].  [other] holds the
    properties the database module never inspects (lat, lng and whatever else
    the caller put on the object); the spread [{...tripData}] copies them. *)
Record TripFields : Type := mkTripFields {
  title : option string;
  country : option string;
  city : option string;
  place : option string;
  startDate : option string;
  endDate : option string;
  notes : option string;
  tags : option (list string);
  favorite : option bool;
  coverPhoto : option string;
  createdAt : option Z;
  updatedAt : option Z;
  other : list (string * string)
}.

Record PhotoFields : Type := mkPhotoFields {
  tripId : option Z;
  data : option string;
  name : option string;
  type : option string
}.

(** An object with an optional [id] property: what callers pass in
    ([tripData], [photoData], the entries of an import document) and what the
    store hands out (then [id] is the record's key). *)
Record Obj (F : Type) : Type := mkObj {
  id : option Z;
  fields : F
}.
Arguments mkObj {F} _ _.
Arguments id {F} _.
Arguments fields {F} _.

Abbreviation Trip := (Obj TripFields).
Abbreviation Photo := (Obj PhotoFields).

Global Instance TripFields_eq_dec : EqDecision TripFields.
Proof. solve_decision. Defined.

Global Instance PhotoFields_eq_dec : EqDecision PhotoFields.
Proof. solve_decision. Defined.

Global Instance Obj_eq_dec {F} `{EqDecision F} : EqDecision (Obj F).
Proof. solve_decision. Defined.

(** [const { id, ...rest } = o] *)
Definition withoutId {F} (o : Obj F) : Obj F := mkObj None (fields o).

(** [{ ...f, createdAt: c, updatedAt: u }] *)
Definition setCreatedAt (c : Z) (f : TripFields) : TripFields :=
  mkTripFields (title f) (country f) (city f) (place f) (startDate f)
    (endDate f) (notes f) (tags f) (favorite f) (coverPhoto f)
    (Some c) (updatedAt f) (other f).

Definition setUpdatedAt (u : Z) (f : TripFields) : TripFields :=
  mkTripFields (title f) (country f) (city f) (place f) (startDate f)
    (endDate f) (notes f) (tags f) (favorite f) (coverPhoto f)
    (createdAt f) (Some u) (other f).

(** [o.id] as a JavaScript value *)
Definition idValue {F} (o : Obj F) : jsval :=
  match id o with
  | Some k => Num k
  | None => Undefined
  end.

(** ** The storage engine *)

Inductive error : Type :=
  | DataError          (* the key is not a valid key *)
  | ConstraintError    (* [add] on a key that is in use, or no key left *)
  | InvalidDataFormat. (* [Error('Invalid data format')] *)

Global Instance error_eq_dec : EqDecision error.
Proof. solve_decision. Defined.

(** An object store with in-line keys at [id] and a key generator.  A record
    is kept without its [id]: with in-line keys the [id] property of a stored
    value is its key. *)
Record ObjectStore (V : Type) : Type := mkStore {
  records : gmap Z V;
  currentNumber : Z
}.
Arguments mkStore {V} _ _.
Arguments records {V} _.
Arguments currentNumber {V} _.

(** The largest key a key generator issues (2^53). *)
Definition maxKey : Z := 9007199254740992.

Section Engine.
Context {V : Type}.

(** A store as [onupgradeneeded] creates it. *)
Definition newStore : ObjectStore V := mkStore ∅ 1.

(** Storing a record.  [key] is the key of the value being stored: no [id]
    property, or the number found there.
    - Without a key the key generator issues its current number and advances
      by one; once the current number is above [maxKey] it issues nothing
      and the request fails with a [ConstraintError].
    - With a key [k] the current number becomes [min k maxKey + 1] when that
      is larger.
    A request that fails changes nothing, the key generator included. *)
Definition storeRecord (noOverwrite : bool) (key : option number) (v : V)
    (s : ObjectStore V) : error + (Z * ObjectStore V) :=
  match key with
  | Some NaN => inl DataError
  | Some (Int k) =>
      if noOverwrite && bool_decide (is_Some (records s !! k))
      then inl ConstraintError
      else inr (k, mkStore (<[k := v]> (records s))
                           (Z.max (currentNumber s) (Z.min k maxKey + 1)))
  | None =>
      let k := currentNumber s in
      if maxKey <? k then inl ConstraintError
      else if noOverwrite && bool_decide (is_Some (records s !! k))
      then inl ConstraintError
      else inr (k, mkStore (<[k := v]> (records s)) (k + 1))
  end.

(** [store.add(value)] and [store.put(value)] *)
Definition IDBadd (o : Obj V) : ObjectStore V → error + (Z * ObjectStore V) :=
  storeRecord true (Int <$> id o) (fields o).

Definition IDBput (key : option number) (v : V)
    : ObjectStore V → error + (Z * ObjectStore V) :=
  storeRecord false key v.

(** [store.delete(key)]: succeeds whether or not the key is in use. *)
Definition IDBdelete (key : number) (s : ObjectStore V)
    : error + (unit * ObjectStore V) :=
  match key with
  | NaN => inl DataError
  | Int k => inr (tt, mkStore (delete k (records s)) (currentNumber s))
  end.

(** [store.get(key)]: [undefined] for a key that is not in use. *)
Definition IDBget (key : number) (s : ObjectStore V)
    : error + option (Obj V) :=
  match key with
  | NaN => inl DataError
  | Int k => inr (mkObj (Some k) <$> records s !! k)
  end.

Definition keyLe (a b : Z * V) : Prop := a.1 ≤ b.1.

Global Instance keyLe_dec : RelDecision keyLe.
Proof. intros a b. unfold keyLe. apply _. Defined.

(** [store.getAll()]: every record, in ascending key order. *)
Definition IDBgetAll (s : ObjectStore V) : list (Obj V) :=
  (λ kv : Z * V, mkObj (Some kv.1) kv.2)
    <$> merge_sort keyLe (map_to_list (records s)).

(** [store.clear()]: the key generator is not reset. *)
Definition IDBclear (s : ObjectStore V) : ObjectStore V :=
  mkStore ∅ (currentNumber s).
End Engine.

(** [index.getAll(key)] on the [tripId] index of the photo store: the photos
    whose [tripId] is that key, in ascending primary-key order. *)
Definition IDBindexGetAll (key : number) (s : ObjectStore PhotoFields)
    : error + list Photo :=
  match key with
  | NaN => inl DataError
  | Int k =>
      inr (filter (λ p : Photo, tripId (fields p) = Some k) (IDBgetAll s))
  end.

(** ** The database and its promises *)

Record World : Type := mkWorld {
  trips : ObjectStore TripFields;
  photos : ObjectStore PhotoFields;
  clockReads : nat   (* how many times [new Date()] has read the clock *)
}.

(** The database after [initDB] on a fresh profile. *)
Definition initial : World := mkWorld newStore newStore 0.

(** A method call awaited to completion: the world it leaves, and the
    rejection or the value the promise settles with. *)
Definition Promise (A : Type) : Type := World → World * (error + A).

Definition resolve {A} (a : A) : Promise A := λ w, (w, inr a).
Definition reject {A} (e : error) : Promise A := λ w, (w, inl e).

(** [const x = await p; k x] *)
Definition await {A B} (p : Promise A) (k : A → Promise B) : Promise B :=
  λ w, match p w with
       | (w', inr a) => k a w'
       | (w', inl e) => (w', inl e)
       end.

Notation "'let!' x ':=' p 'in' k" := (await p (λ x, k))
  (at level 10, x pattern, p at level 100, k at level 200).
Notation "p ';;;' k" := (await p (λ _, k))
  (at level 100, k at level 200, right associativity).

(** [for (const x of l) { await body(x); }] *)
Fixpoint forOf {A} (l : list A) (body : A → Promise unit) : Promise unit :=
  match l with
  | [] => resolve tt
  | x :: l' => body x ;;; forOf l' body
  end.

(** A request in a transaction on the [trips] store, on the [photos] store;
    a refused request leaves the store as it was. *)
Definition onTrips {A}
    (req : ObjectStore TripFields → error + (A * ObjectStore TripFields))
    : Promise A :=
  λ w, match req (trips w) with
       | inr (a, s) => (mkWorld s (photos w) (clockReads w), inr a)
       | inl e => (w, inl e)
       end.

Definition onPhotos {A}
    (req : ObjectStore PhotoFields → error + (A * ObjectStore PhotoFields))
    : Promise A :=
  λ w, match req (photos w) with
       | inr (a, s) => (mkWorld (trips w) s (clockReads w), inr a)
       | inl e => (w, inl e)
       end.

(** A read-only request. *)
Definition readTrips {A} (req : ObjectStore TripFields → error + A)
    : Promise A :=
  λ w, (w, req (trips w)).

Definition readPhotos {A} (req : ObjectStore PhotoFields → error + A)
    : Promise A :=
  λ w, (w, req (photos w)).

(** [Array.prototype.sort(compare)]: a stable sort; a comparator result that
    is [NaN] counts as zero.  For a comparator that is a consistent ordering
    every stable sort returns this list.  For one that is not (it answers
    [NaN] for some pairs only) the order is left to the engine, and of this
    list only that it is a permutation of the array carries over. *)
Definition isPositive (v : number) : bool :=
  match v with
  | Int n => 0 <? n
  | NaN => false
  end.

Fixpoint sortInsert {A} (compare : A → A → number) (x : A) (l : list A)
    : list A :=
  match l with
  | [] => [x]
  | y :: l' =>
      if isPositive (compare x y) then y :: sortInsert compare x l'
      else x :: y :: l'
  end.

Definition sort {A} (compare : A → A → number) (l : list A) : list A :=
  foldr (sortInsert compare) [] l.

(** [x - y] on numbers *)
Definition minus (x y : number) : number :=
  match x, y with
  | Int a, Int b => Int (a - b)
  | _, _ => NaN
  end.

(** [Boolean(v)] of an optional string *)
Definition Boolean (v : option string) : bool :=
  match v with
  | Some s => negb (String.eqb s "")
  | None => false
  end.

(** [new Set(iterable)]: the distinct elements in order of first occurrence;
    [size] is their number. *)
Definition setAdd {A} `{EqDecision A} (s : list A) (x : A) : list A :=
  if bool_decide (x ∈ s) then s else s ++ [x].

Definition newSet {A} `{EqDecision A} (l : list A) : list A :=
  foldl setAdd [] l.

Definition DB_VERSION : Z := 1.

Record Stats : Type := mkStats {
  stat_countries : nat;
  stat_cities : nat;
  stat_places : nat;
  stat_photos : nat;
  stat_trips : nat
}.

(** An import or export document.  [doc_trips] and [doc_photos] are [None]
    for a property that is absent (or not truthy), else the array of
    objects found there. *)
Record Document : Type := mkDocument {
  doc_version : option Z;
  doc_exportDate : option Z;
  doc_trips : option (list Trip);
  doc_photos : option (list Photo)
}.

Section TripDatabase.

(** The clock: [clock n] is the time value seen by the [n]-th [new Date()]. *)
Variable clock : nat → Z.

(** [new Date(v)] as a number, for the value of a [startDate] property. *)
Variable DateValue : option string → number.

(** [new Date().toISOString()] *)
Definition now : Promise Z :=
  λ w, (mkWorld (trips w) (photos w) (S (clockReads w)),
        inr (clock (clockReads w))).

(** *** Trip CRUD operations *)

Definition addTrip (tripData : Trip) : Promise Z :=
  let! c := now in
  let! u := now in
  let trip := mkObj (id tripData)
                (setUpdatedAt u (setCreatedAt c (fields tripData))) in
  onTrips (IDBadd trip).

Definition updateTrip (id : jsval) (tripData : Trip) : Promise Z :=
  let key := parseInt id in
  let! u := now in
  onTrips (IDBput (Some key) (setUpdatedAt u (fields tripData))).

Definition getPhotosByTripId (tripId : jsval) : Promise (list Photo) :=
  readPhotos (IDBindexGetAll (parseInt tripId)).

Definition deletePhoto (id : jsval) : Promise unit :=
  onPhotos (IDBdelete (parseInt id)).

Definition deletePhotosByTripId (tripId : jsval) : Promise unit :=
  let! photos := getPhotosByTripId tripId in
  forOf photos (λ photo, deletePhoto (idValue photo)).

Definition deleteTrip (id : jsval) : Promise unit :=
  deletePhotosByTripId id ;;;
  onTrips (IDBdelete (parseInt id)).

Definition getTrip (id : jsval) : Promise (option Trip) :=
  readTrips (IDBget (parseInt id)).

Definition compareStartDate (a b : Trip) : number :=
  minus (DateValue (startDate (fields b))) (DateValue (startDate (fields a))).

Definition getAllTrips : Promise (list Trip) :=
  readTrips (λ s, inr (sort compareStartDate (IDBgetAll s))).

(** *** Photo operations *)

Definition addPhoto (photoData : Photo) : Promise Z :=
  onPhotos (IDBadd photoData).

Definition getAllPhotos : Promise (list Photo) :=
  readPhotos (λ s, inr (IDBgetAll s)).

(** *** Statistics *)

Definition getStats : Promise Stats :=
  let! trips := getAllTrips in
  let! photos := getAllPhotos in
  let countries :=
    newSet (filter Boolean ((λ t : Trip, country (fields t)) <$> trips)) in
  let cities :=
    newSet (filter Boolean ((λ t : Trip, city (fields t)) <$> trips)) in
  let places :=
    length (filter (λ t : Trip, Boolean (place (fields t))) trips) in
  resolve (mkStats (length countries) (length cities) places
                   (length photos) (length trips)).

(** *** Export and import *)

Definition exportData : Promise Document :=
  let! trips := getAllTrips in
  let! photos := getAllPhotos in
  let! d := now in
  resolve (mkDocument (Some DB_VERSION) (Some d) (Some trips) (Some photos)).

Definition clearAllData : Promise unit :=
  λ w, (mkWorld (IDBclear (trips w)) (IDBclear (photos w)) (clockReads w),
        inr tt).

Definition importData (data : Document) : Promise bool :=
  match doc_trips data with
  | None => reject InvalidDataFormat
  | Some ts =>
      clearAllData ;;;
      forOf ts (λ trip, addTrip (withoutId trip) ;;; resolve tt) ;;;
      match doc_photos data with
      | Some ps => forOf ps (λ photo, addPhoto (withoutId photo) ;;; resolve tt)
      | None => resolve tt
      end ;;;
      resolve true
  end.

(** *** The update branch of [handleTripSubmit] (js/app.js): the form data
    takes [createdAt] from [state.currentTrip], then the trip is updated. *)
Definition setCreatedAtFrom (src : Trip) (tripData : Trip) : Trip :=
  mkObj (id tripData)
    (mkTripFields (title (fields tripData)) (country (fields tripData))
       (city (fields tripData)) (place (fields tripData))
       (startDate (fields tripData)) (endDate (fields tripData))
       (notes (fields tripData)) (tags (fields tripData))
       (favorite (fields tripData)) (coverPhoto (fields tripData))
       (createdAt (fields src)) (updatedAt (fields tripData))
       (other (fields tripData))).

Definition submitUpdate (currentTrip : Trip) (tripId : jsval) (tripData : Trip)
    : Promise Z :=
  updateTrip tripId (setCreatedAtFrom currentTrip tripData).

End TripDatabase.

(** ** The writes of [deleteTrip], in order *)

(** Every request of [deleteTrip] and of [deletePhotosByTripId] is made in a
    transaction of its own, and the method makes the next request only when
    the previous one has succeeded: the database passes through the states
    the write requests leave, one after the other.  Here the two methods are
    written once more, keeping a journal of these states, oldest first. *)
Module Journal.

Definition t (A : Type) : Type :=
  list World → World → list World * World * (error + A).

(** A request in a [readonly] transaction writes nothing. *)
Definition reading {A} (p : Promise A) : t A :=
  λ j w, let '(w', r) := p w in (j, w', r).

(** A request in a [readwrite] transaction: when it succeeds, the journal
    takes the database it leaves. *)
Definition writing {A} (p : Promise A) : t A :=
  λ j w, match p w with
         | (w', inr a) => (j ++ [w'], w', inr a)
         | (w', inl e) => (j, w', inl e)
         end.

Definition await {A B} (p : t A) (k : A → t B) : t B :=
  λ j w, match p j w with
         | (j', w', inr a) => k a j' w'
         | (j', w', inl e) => (j', w', inl e)
         end.

Fixpoint forOf {A} (l : list A) (body : A → t unit) : t unit :=
  match l with
  | [] => λ j w, (j, w, inr tt)
  | x :: l' => await (body x) (λ _, forOf l' body)
  end.

Definition deletePhotosByTripId (tripId : jsval) : t unit :=
  await (reading (getPhotosByTripId tripId)) (λ photos,
  forOf photos (λ photo, writing (deletePhoto (idValue photo)))).

Definition deleteTrip (id : jsval) : t unit :=
  await (deletePhotosByTripId id) (λ _,
  writing (onTrips (IDBdelete (parseInt id)))).

End Journal.

(** ** Well-formed and reachable databases *)

(** The key generator is ahead of every key in use: the key generator keeps
    it so for the keys it issues and for the keys up to [maxKey] that
    callers choose, and [clear] and [delete] cannot break it. *)
Definition wfStore {V} (s : ObjectStore V) : Prop :=
  map_Forall (λ k _, k < currentNumber s) (records s).

Definition wf (w : World) : Prop := wfStore (trips w) ∧ wfStore (photos w).

(** What no call can break: the key generator is ahead of every key in use
    that it could still issue, and is never below 1.  (A key above [maxKey],
    which only a caller can choose, stays ahead of the key generator.) *)
Definition generatorAhead {V} (s : ObjectStore V) : Prop :=
  0 < currentNumber s
  ∧ map_Forall (λ k _, k ≤ maxKey → k < currentNumber s) (records s).

Definition consistent (w : World) : Prop :=
  generatorAhead (trips w) ∧ generatorAhead (photos w).

(** The calls of the public interface that can change the database (reads
    leave it as it is; [exportData] reads the clock). *)
Inductive call : Type :=
  | CallAddTrip (tripData : Trip)
  | CallUpdateTrip (id : jsval) (tripData : Trip)
  | CallDeleteTrip (id : jsval)
  | CallAddPhoto (photoData : Photo)
  | CallDeletePhoto (id : jsval)
  | CallDeletePhotosByTripId (tripId : jsval)
  | CallExportData
  | CallImportData (data : Document)
  | CallClearAllData.

Definition exec (clock : nat → Z) (DateValue : option string → number)
    (c : call) (w : World) : World :=
  match c with
  | CallAddTrip tripData => (addTrip clock tripData w).1
  | CallUpdateTrip id tripData => (updateTrip clock id tripData w).1
  | CallDeleteTrip id => (deleteTrip id w).1
  | CallAddPhoto photoData => (addPhoto photoData w).1
  | CallDeletePhoto id => (deletePhoto id w).1
  | CallDeletePhotosByTripId tripId => (deletePhotosByTripId tripId w).1
  | CallExportData => (exportData clock DateValue w).1
  | CallImportData data => (importData clock data w).1
  | CallClearAllData => (clearAllData w).1
  end.

(** The world after a sequence of calls, each awaited before the next. *)
Definition run (clock : nat → Z) (DateValue : option string → number)
    (calls : list call) (w : World) : World :=
  foldl (λ w c, exec clock DateValue c w) w calls.

Definition reachable (clock : nat → Z) (DateValue : option string → number)
    (w : World) : Prop :=
  ∃ calls, w = run clock DateValue calls initial.

(** ** Notions used to state the properties *)

(** [Number.isSafeInteger(n)]: the integers up to [2^53 - 1] in magnitude.
    On these the model of numbers is exact: each is a Number value of its
    own, [Number::toString] prints it in plain decimal digits and [parseInt]
    reads these digits back. *)
Definition MAX_SAFE_INTEGER : Z := 9007199254740991.

Definition isSafeInteger (n : Z) : Prop :=
  - MAX_SAFE_INTEGER ≤ n ≤ MAX_SAFE_INTEGER.

Global Instance isSafeInteger_dec n : Decision (isSafeInteger n).
Proof. unfold isSafeInteger. apply _. Defined.

(** Every key in use is a safe integer. *)
Definition safeKeys {V} (s : ObjectStore V) : Prop :=
  map_Forall (λ k _, isSafeInteger k) (records s).

(** The key generator can issue [n] more keys. *)
Definition canIssue {V} (n : nat) (s : ObjectStore V) : Prop :=
  n = 0%nat ∨ currentNumber s + Z.of_nat n ≤ maxKey + 1.

(** The key generator can issue [n] more keys and all of them are safe
    integers. *)
Definition hasRoom {V} (n : nat) (s : ObjectStore V) : Prop :=
  0 < currentNumber s ∧ currentNumber s + Z.of_nat n ≤ maxKey.

Global Instance hasRoom_dec {V} n (s : ObjectStore V) : Decision (hasRoom n s).
Proof. unfold hasRoom. apply _. Defined.

(** The key of an object handed out by the store. *)
Definition keyOf {V} (o : Obj V) : Z := default 0 (id o).

Definition timeOf (v : number) : Z :=
  match v with
  | Int n => n
  | NaN => 0
  end.

(** The time value of a trip's [startDate] (meaningful when the date is
    valid). *)
Definition startTime (DateValue : option string → number) (t : Trip) : Z :=
  timeOf (DateValue (startDate (fields t))).

(** Descending on [d], ascending on [key] among equals. *)
Definition stableDesc {A} (d key : A → Z) (a b : A) : Prop :=
  d b < d a ∨ (d b = d a ∧ key a < key b).

(** Later start date first; among equal start dates, smaller key first. *)
Definition newestFirst (DateValue : option string → number) : relation Trip :=
  stableDesc (startTime DateValue) keyOf.

(** What the caller put into a trip: its properties apart from the
    timestamps the store assigns. *)
Definition content (f : TripFields) : TripFields :=
  mkTripFields (title f) (country f) (city f) (place f) (startDate f)
    (endDate f) (notes f) (tags f) (favorite f) (coverPhoto f)
    None None (other f).

(** A caller adding trips one after the other. *)
Definition addTrips (clock : nat → Z) (l : list Trip) : Promise unit :=
  forOf l (λ tripData, addTrip clock tripData ;;; resolve tt).

(** Consecutive keys from [g] on, as the key generator issues them. *)
Fixpoint reissue {V} (g : Z) (vs : list V) : list (Z * V) :=
  match vs with
  | [] => []
  | v :: vs' => (g, v) :: reissue (g + 1) vs'
  end.

(** The timestamps [addTrip] puts on a sequence of trips when the clock has
    been read [n] times before. *)
Fixpoint stamps (clock : nat → Z) (n : nat) (ts : list Trip)
    : list TripFields :=
  match ts with
  | [] => []
  | t :: ts' =>
      setUpdatedAt (clock (S n)) (setCreatedAt (clock n) (fields t))
        :: stamps clock (S (S n)) ts'
  end.

(** A string that is present and not empty. *)
Definition nonEmpty (v : option string) : Prop :=
  ∃ s, v = Some s ∧ s ≠ "".

(** The records of an object that [deletePhotosByTripId] goes through. *)
Definition dropPhoto (m : gmap Z PhotoFields) (p : Photo)
    : gmap Z PhotoFields :=
  match id p with
  | Some k => delete k m
  | None => m
  end.

(** Every stored trip has a valid start date. *)
Definition validDates (DateValue : option string → number)
    (m : gmap Z TripFields) : Prop :=
  map_Forall (λ _ v, DateValue (startDate v) ≠ NaN) m.

Global Instance nonEmpty_dec v : Decision (nonEmpty v).
Proof.
  destruct v as [s|].
  - destruct (decide (s = "")) as [->|Hs].
    + right. intros (s' & ? & ?). by simplify_eq.
    + left. by exists s.
  - right. by intros (s & ? & _).
Defined.

(** ** Sample data *)

Definition noFields : TripFields :=
  mkTripFields None None None None None None None None None None None None [].

Definition tripTo (t c ci d : string) : TripFields :=
  mkTripFields (Some t) (Some c) (Some ci) None (Some d) None None None None
    None None None [].

Definition paris : TripFields := tripTo "Paris" "France" "Paris" "2024-06-01".
Definition lyon : TripFields := tripTo "Lyon" "France" "Lyon" "2024-06-01".
Definition madrid : TripFields := tripTo "Madrid" "Spain" "Madrid" "2023-01-01".

Definition photoOf (k : Z) (n : string) : PhotoFields :=
  mkPhotoFields (Some k) (Some "data:image/jpeg;base64,AAAA") (Some n)
    (Some "image/jpeg").

(** A clock that advances by a millisecond at every reading, and one that
    is read several times within the same millisecond. *)
Definition ticking (n : nat) : Z := 1717200000000 + Z.of_nat n.
Definition sameMillisecond (n : nat) : Z := 1717200000000.

(** [new Date(s)] on the dates of the sample trips. *)
Definition sampleDate (v : option string) : number :=
  match v with
  | Some "2024-06-01" => Int 1717200000000
  | Some "2023-01-01" => Int 1672531200000
  | _ => NaN
  end.

(** Two trips (ids 1 and 2), two photos of the first and one of the
    second. *)
Definition sampleWorld : World :=
  run ticking sampleDate
    [CallAddTrip (mkObj None paris);
     CallAddTrip (mkObj None madrid);
     CallAddPhoto (mkObj None (photoOf 1 "a.jpg"));
     CallAddPhoto (mkObj None (photoOf 1 "b.jpg"));
     CallAddPhoto (mkObj None (photoOf 2 "c.jpg"))]
    initial.

(** A backup whose trips carry ids 7 and 9 and whose photo refers to 7. *)
Definition sampleDocument : Document :=
  mkDocument (Some 1) (Some 1717200000000)
    (Some [mkObj (Some 7) paris; mkObj (Some 9) madrid])
    (Some [mkObj (Some 4) (photoOf 7 "a.jpg")]).

(** ** The other methods of [TripDatabase] and their callers *)

(** [Array.prototype.slice(0, end)]: a negative [end] counts from the end of
    the array. *)
Definition slice0 {A} (l : list A) (e : Z) : list A :=
  let len := Z.of_nat (length l) in
  let final := if e <? 0 then Z.max (len + e) 0 else Z.min e len in
  take (Z.to_nat final) l.

(** [String.prototype.includes(sub)] *)
Fixpoint startsWith (sub s : string) : bool :=
  match sub, s with
  | EmptyString, _ => true
  | String a sub', String b s' => Ascii.eqb a b && startsWith sub' s'
  | String _ _, EmptyString => false
  end.

Fixpoint includes (s sub : string) : bool :=
  startsWith sub s
  || match s with
     | String _ s' => includes s' sub
     | EmptyString => false
     end.

(** The names that a plain object [{}] inherits from [Object.prototype]. *)
Definition objectPrototypeNames : list string :=
  ["constructor"; "hasOwnProperty"; "isPrototypeOf"; "propertyIsEnumerable";
   "toLocaleString"; "toString"; "valueOf"; "__proto__";
   "__defineGetter__"; "__defineSetter__";
   "__lookupGetter__"; "__lookupSetter__"].

(** A plain object used as a counter: its own properties in creation order.
    [getOwn] reads an own property, [setOwn] writes an existing one in place
    or creates it at the end. *)
Fixpoint getOwn (own : list (string * number)) (k : string) : option number :=
  match own with
  | [] => None
  | (k', v) :: own' => if String.eqb k' k then Some v else getOwn own' k
  end.

Fixpoint setOwn (own : list (string * number)) (k : string) (v : number)
    : list (string * number) :=
  match own with
  | [] => [(k, v)]
  | (k', v') :: own' =>
      if String.eqb k' k then (k', v) :: own' else (k', v') :: setOwn own' k v
  end.

Definition truthyNumber (v : number) : bool :=
  match v with
  | Int n => negb (n =? 0)
  | NaN => false
  end.

Definition increment (v : number) : number :=
  match v with
  | Int n => Int (n + 1)
  | NaN => NaN
  end.

(** [if (!map[k]) { map[k] = 0; } map[k]++;] on a counter that started as
    [{}].  A name inherited from [Object.prototype] reads as a truthy
    function or object, so it is not reset; incrementing it gives [NaN],
    stored as an own property, except for [__proto__], whose setter drops
    the value. *)
Definition countKey (own : list (string * number)) (k : string)
    : list (string * number) :=
  match getOwn own k with
  | Some v => setOwn own k (increment (if truthyNumber v then v else Int 0))
  | None =>
      if bool_decide (k ∈ objectPrototypeNames) then
        if String.eqb k "__proto__" then own else setOwn own k NaN
      else setOwn own k (Int 1)
  end.

(** A property name that is an array index: the canonical decimal numeral of
    an integer below [2^32 - 1]. *)
Definition isDigit (c : ascii) : bool :=
  let n := Z.of_nat (nat_of_ascii c) in (48 <=? n) && (n <=? 57).

Definition arrayIndex (s : string) : option Z :=
  match s with
  | EmptyString => None
  | String c r =>
      if forallb isDigit (list_ascii_of_string s)
         && negb (Ascii.eqb c "0" && negb (String.eqb r ""))
      then match parseDigits 10 None s with
           | Some n => if n <=? 4294967294 then Some n else None
           | None => None
           end
      else None
  end.

Definition indexLe (a b : string * number) : Prop :=
  default 0 (arrayIndex a.1) ≤ default 0 (arrayIndex b.1).

Global Instance indexLe_dec : RelDecision indexLe.
Proof. intros a b. unfold indexLe. apply _. Defined.

(** [Object.entries(map)]: array-index names in ascending numeric order, then
    the other names in creation order. *)
Definition ObjectEntries (own : list (string * number))
    : list (string * number) :=
  merge_sort indexLe (filter (λ e, is_Some (arrayIndex e.1)) own)
  ++ filter (λ e, ¬ is_Some (arrayIndex e.1)) own.

(** [Object.entries(map).map(([name, count]) => ({ name, count }))
      .sort((a, b) => b.count - a.count)]; an entry is the pair of its
    [name] and its [count]. *)
Definition countEntries (own : list (string * number))
    : list (string * number) :=
  sort (λ a b, minus b.2 a.2) (ObjectEntries own).

(** The photos kept in [state.pendingPhotos]: [handlePhotoSelect] pushes
    objects with exactly these three properties. *)
Record PendingPhoto : Type := mkPendingPhoto {
  pendingData : option string;
  pendingName : option string;
  pendingType : option string
}.

(** [{ tripId: savedTripId, ...photo }] *)
Definition photoFor (savedTripId : Z) (photo : PendingPhoto) : Photo :=
  mkObj None
    (mkPhotoFields (Some savedTripId) (pendingData photo) (pendingName photo)
       (pendingType photo)).

(** [for (const photo of state.pendingPhotos) await tripDB.addPhoto(...)] *)
Definition savePhotos (savedTripId : Z) (pendingPhotos : list PendingPhoto)
    : Promise unit :=
  forOf pendingPhotos
    (λ photo, addPhoto (photoFor savedTripId photo) ;;; resolve tt).

(** [`${n}`] for an integer [n]: its plain decimal digits, which is what
    [Number::toString] prints for a safe integer. *)
Definition numberToString (n : Z) : string :=
  DecimalString.NilZero.string_of_int (Z.to_int n).

Section Callers.

Variable clock : nat → Z.
Variable DateValue : option string → number.

(** [String.prototype.toLowerCase] *)
Variable toLowerCase : string → string.

(** The date thirty days before a time value, as [setDate(getDate() - 30)]
    computes it in the local calendar. *)
Variable thirtyDaysBefore : Z → Z.

Definition getRecentTrips (limit : option Z) : Promise (list Trip) :=
  let! trips := getAllTrips DateValue in
  resolve (slice0 trips (default 5 limit)).

(** [v?.toLowerCase().includes(lowerQuery)] *)
Definition fieldIncludes (lowerQuery : string) (v : option string) : bool :=
  match v with
  | Some s => includes (toLowerCase s) lowerQuery
  | None => false
  end.

Definition tripMatches (lowerQuery : string) (trip : Trip) : bool :=
  fieldIncludes lowerQuery (title (fields trip))
  || fieldIncludes lowerQuery (country (fields trip))
  || fieldIncludes lowerQuery (city (fields trip))
  || fieldIncludes lowerQuery (place (fields trip))
  || fieldIncludes lowerQuery (notes (fields trip))
  || match tags (fields trip) with
     | Some l => existsb (λ tag, includes (toLowerCase tag) lowerQuery) l
     | None => false
     end.

Definition searchTrips (query : string) : Promise (list Trip) :=
  let! trips := getAllTrips DateValue in
  let lowerQuery := toLowerCase query in
  resolve (filter (λ trip, tripMatches lowerQuery trip) trips).

Definition countCountry (countryMap : list (string * number)) (trip : Trip)
    : list (string * number) :=
  match country (fields trip) with
  | Some c => if Boolean (Some c) then countKey countryMap c else countryMap
  | None => countryMap
  end.

Definition getCountriesList : Promise (list (string * number)) :=
  let! trips := getAllTrips DateValue in
  let countryMap := foldl countCountry [] trips in
  resolve (countEntries countryMap).

Definition countTags (tagMap : list (string * number)) (trip : Trip)
    : list (string * number) :=
  match tags (fields trip) with
  | Some l => foldl countKey tagMap l
  | None => tagMap
  end.

Definition getTagsList : Promise (list (string * number)) :=
  let! trips := getAllTrips DateValue in
  let tagMap := foldl countTags [] trips in
  resolve (countEntries tagMap).

(** [loadTrips] (js/app.js), up to the list it hands to [renderTripsGrid]. *)
Definition isTrue (v : option bool) : bool := default false v.

Definition notBefore (v : number) (t : Z) : bool :=
  match v with
  | Int n => t <=? n
  | NaN => false
  end.

Definition loadTrips (currentFilter searchQuery : string)
    : Promise (list Trip) :=
  let! trips := getAllTrips DateValue in
  let! trips :=
    if String.eqb currentFilter "favorites" then
      resolve (filter (λ t : Trip, isTrue (favorite (fields t))) trips)
    else if String.eqb currentFilter "recent" then
      let! today := now clock in
      let thirtyDaysAgo := thirtyDaysBefore today in
      resolve (filter (λ t : Trip,
                 notBefore (DateValue (startDate (fields t))) thirtyDaysAgo)
                 trips)
    else resolve trips in
  if Boolean (Some searchQuery) then searchTrips searchQuery
  else resolve trips.

(** The create branch of [handleTripSubmit] (js/app.js): the trip is added,
    then every pending photo is added with the new trip's id. *)
Definition submitCreate (tripData : Trip) (pendingPhotos : list PendingPhoto)
    : Promise Z :=
  let! savedTripId := addTrip clock tripData in
  savePhotos savedTripId pendingPhotos ;;;
  resolve savedTripId.

(** [openTripDetail] (js/app.js), up to what it shows: nothing for a trip
    that is not found, else the trip and its photos. *)
Definition openTripDetail (tripId : jsval)
    : Promise (option (Trip * list Photo)) :=
  let! trip := getTrip tripId in
  match trip with
  | None => resolve None
  | Some t =>
      let! photos := getPhotosByTripId tripId in
      resolve (Some (t, photos))
  end.

End Callers.

(** ** Notions used to state the further properties *)

(** Two elements that [sort] leaves in this order. *)
Definition inOrder {A} (compare : A → A → number) (a b : A) : Prop :=
  isPositive (compare a b) = false.

(** How often a name occurs in a list. *)
Definition occurrences (k : string) (ks : list string) : nat :=
  length (filter (λ x, x = k) ks).

(** A counter that holds, for each name of a list, the number of its
    occurrences. *)
Definition counted (own : list (string * number)) (ks : list string) : Prop :=
  NoDup own.*1
  ∧ ∀ k, getOwn own k
         = if bool_decide (k ∈ ks) then Some (Int (Z.of_nat (occurrences k ks)))
           else None.

(** The non-empty country values of a list of trips, and all their tags, in
    order. *)
Definition visited (l : list Trip) : list string :=
  omap (λ t : Trip,
          match country (fields t) with
          | Some c => if Boolean (Some c) then Some c else None
          | None => None
          end) l.

Definition allTags (l : list Trip) : list string :=
  l ≫= (λ t : Trip, default [] (tags (fields t))).

(** A name that a plain object does not inherit. *)
Definition notInherited (v : option string) : Prop :=
  from_option (λ c, c ∉ objectPrototypeNames) True v.

Global Instance notInherited_dec v : Decision (notInherited v).
Proof. destruct v; simpl; apply _. Defined.


(** ** More sample data *)

(** [toLowerCase] on unaccented Latin letters. *)
Definition lowerAscii (c : ascii) : ascii :=
  let n := nat_of_ascii c in
  if (Nat.leb 65 n && Nat.leb n 90)%bool then ascii_of_nat (n + 32) else c.

Fixpoint asciiLowerCase (s : string) : string :=
  match s with
  | EmptyString => EmptyString
  | String c s' => String (lowerAscii c) (asciiLowerCase s')
  end.

Definition thirtyDays (t : Z) : Z := t - 30 * 86400000.

Definition beach : TripFields :=
  mkTripFields (Some "Summer") (Some "Spain") (Some "Cadiz") None
    (Some "2023-01-01") None None (Some ["Beach Trip"; "sun"]) (Some true)
    None None None [].

(** The sample world with a third trip, which has tags. *)
Definition taggedWorld : World :=
  run ticking sampleDate [CallAddTrip (mkObj None beach)] sampleWorld.

Definition pendingSample : list PendingPhoto :=
  [mkPendingPhoto (Some "data:image/png;base64,BBBB") (Some "x.png")
     (Some "image/png");
   mkPendingPhoto (Some "data:image/png;base64,CCCC") (Some "y.png")
     (Some "image/png")].

(** * Properties *)

Ltac eq_lia := repeat (f_equal; try lia).

(** ** What [getAll] returns *)

Section EngineFacts.
Context {V : Type}.
Implicit Types (s : ObjectStore V) (o : Obj V).


Lemma IDBgetAll_Permutation s :
  IDBgetAll s ≡ₚ (λ kv : Z * V, mkObj (Some kv.1) kv.2) <$> map_to_list (records s).
Proof. unfold IDBgetAll. by rewrite merge_sort_Permutation. Qed.

Lemma elem_of_IDBgetAll s o :
  o ∈ IDBgetAll s ↔ ∃ k v, o = mkObj (Some k) v ∧ records s !! k = Some v.
Proof.
  rewrite IDBgetAll_Permutation, list_elem_of_fmap. split.
  - intros [[k v] [-> Hin]]. exists k, v. split; [done|].
    by apply elem_of_map_to_list.
  - intros (k & v & -> & Hk). exists (k, v). split; [done|].
    by apply elem_of_map_to_list.
Qed.

Lemma length_IDBgetAll s : length (IDBgetAll s) = size (records s).
Proof.
  rewrite IDBgetAll_Permutation, length_fmap. apply length_map_to_list.
Qed.

Lemma NoDup_IDBgetAll s : NoDup (IDBgetAll s).
Proof.
  rewrite IDBgetAll_Permutation. apply NoDup_fmap_2_strong; [|apply NoDup_map_to_list].
  intros [k v] [k' v'] _ _ Heq. simpl in Heq. by simplify_eq.
Qed.
End EngineFacts.

(** ** Deleting a trip and its photos *)

Lemma forOf_deletePhoto (l : list Photo) (w : World) :
  Forall (λ p : Photo, is_Some (id p)) l →
  forOf l (λ photo, deletePhoto (idValue photo)) w
  = (mkWorld (trips w)
       (mkStore (foldl dropPhoto (records (photos w)) l)
                (currentNumber (photos w)))
       (clockReads w), inr tt).
Proof.
  intros Hl. revert w. induction Hl as [|p l [k Hk] _ IH]; intros w.
  - by destruct w as [? [] ?].
  - destruct p as [i f]. simpl in Hk. subst i.
    cbn [forOf]. unfold await at 1.
    cbn [deletePhoto idValue id parseInt onPhotos IDBdelete].
    by rewrite IH.
Qed.

Lemma foldl_dropPhoto_None (l : list Photo) m j :
  m !! j = None → foldl dropPhoto m l !! j = None.
Proof.
  revert m. induction l as [|p l IH]; intros m Hm; [done|].
  simpl. apply IH. unfold dropPhoto. destruct (id p) as [k|]; [|done].
  rewrite lookup_delete. by case_decide.
Qed.

Lemma foldl_dropPhoto_elem (l : list Photo) m j :
  (∃ p, p ∈ l ∧ id p = Some j) → foldl dropPhoto m l !! j = None.
Proof.
  revert m. induction l as [|p l IH]; intros m (q & Hq & Hj).
  - by apply elem_of_nil in Hq.
  - simpl. apply elem_of_cons in Hq as [->|Hq].
    + apply foldl_dropPhoto_None. unfold dropPhoto. rewrite Hj.
      apply lookup_delete_eq.
    + apply IH. eauto.
Qed.

Lemma foldl_dropPhoto_other (l : list Photo) m j :
  (∀ p, p ∈ l → id p ≠ Some j) → foldl dropPhoto m l !! j = m !! j.
Proof.
  revert m. induction l as [|p l IH]; intros m Hl; [done|].
  simpl. rewrite IH.
  - unfold dropPhoto. destruct (id p) as [k|] eqn:Hk; [|done].
    apply lookup_delete_ne. intros ->. eapply Hl; [|done]. by left.
  - intros q Hq. apply Hl. by right.
Qed.

(** What [deletePhotosByTripId] leaves: the photos not indexed under the
    key, and nothing else touched. *)
Lemma deletePhotosByTripId_spec t k w :
  parseInt t = Int k →
  deletePhotosByTripId t w
  = (mkWorld (trips w)
       (mkStore (filter (λ kv, tripId kv.2 ≠ Some k) (records (photos w)))
                (currentNumber (photos w)))
       (clockReads w), inr tt).
Proof.
  intros Ht. unfold deletePhotosByTripId, getPhotosByTripId, readPhotos.
  unfold await at 1. rewrite Ht. simpl.
  rewrite forOf_deletePhoto.
  2:{ apply Forall_forall. intros p Hp.
      apply list_elem_of_filter in Hp as [_ Hp].
      apply elem_of_IDBgetAll in Hp as (j & v & -> & _). by eexists. }
  do 3 f_equal. apply map_eq. intros j.
  destruct (records (photos w) !! j) as [v|] eqn:Hj.
  - destruct (decide (tripId v = Some k)) as [Hv|Hv].
    + rewrite foldl_dropPhoto_elem.
      * symmetry. apply map_lookup_filter_None. right. intros v' Hv'.
        simpl. rewrite Hj in Hv'. simplify_eq. by intros Hne.
      * exists (mkObj (Some j) v). split; [|done].
        apply list_elem_of_filter. split; [done|].
        apply elem_of_IDBgetAll. eauto.
    + rewrite foldl_dropPhoto_other.
      * rewrite Hj. symmetry. by apply map_lookup_filter_Some.
      * intros p Hp Hid. apply list_elem_of_filter in Hp as [Hp1 Hp2].
        apply elem_of_IDBgetAll in Hp2 as (j' & v' & -> & Hj').
        simpl in *. simplify_eq. 
  - rewrite foldl_dropPhoto_None by done. symmetry.
    apply map_lookup_filter_None. by left.
Qed.

Lemma deletePhotosByTripId_NaN t w :
  parseInt t = NaN → deletePhotosByTripId t w = (w, inl DataError).
Proof.
  intros Ht. unfold deletePhotosByTripId, getPhotosByTripId, readPhotos, await.
  by rewrite Ht.
Qed.

Lemma deleteTrip_spec t k w :
  parseInt t = Int k →
  deleteTrip t w
  = (mkWorld
       (mkStore (delete k (records (trips w))) (currentNumber (trips w)))
       (mkStore (filter (λ kv, tripId kv.2 ≠ Some k) (records (photos w)))
                (currentNumber (photos w)))
       (clockReads w), inr tt).
Proof.
  intros Ht. unfold deleteTrip, await.
  rewrite (deletePhotosByTripId_spec t k w Ht).
  unfold onTrips. by rewrite Ht.
Qed.

Lemma getPhotosByTripId_spec t k w :
  parseInt t = Int k →
  getPhotosByTripId t w
  = (w, inr (filter (λ p : Photo, tripId (fields p) = Some k)
               (IDBgetAll (photos w)))).
Proof. intros Ht. unfold getPhotosByTripId, readPhotos. by rewrite Ht. Qed.

Lemma filter_nil_iff {A} (P : A → Prop) `{∀ x, Decision (P x)} (l : list A) :
  (∀ x, x ∈ l → ¬ P x) → filter P l = [].
Proof.
  intros Hl. induction l as [|x l IH]; [done|].
  rewrite filter_cons_False.
  - apply IH. intros y Hy. apply Hl. by right.
  - apply Hl. by left.
Qed.

(** The writes of [deletePhotosByTripId]'s loop: one per photo, none of
    which touches the trips; the database they end in is the one the loop
    ends in. *)
Lemma Journal_forOf_deletePhoto (l : list Photo) (j : list World) (w : World) :
  Forall (λ p : Photo, is_Some (id p)) l →
  ∃ js,
    Journal.forOf l (λ photo, Journal.writing (deletePhoto (idValue photo)))
      j w
    = (j ++ js, (forOf l (λ photo, deletePhoto (idValue photo)) w).1, inr tt)
    ∧ Forall (λ w', trips w' = trips w) js.
Proof.
  intros Hl. revert j w. induction Hl as [|p l [k Hk] _ IH]; intros j w.
  - exists []. by rewrite app_nil_r.
  - destruct p as [i f]. simpl in Hk. subst i.
    cbn [Journal.forOf forOf]. unfold Journal.await, await.
    unfold Journal.writing at 1.
    cbn [deletePhoto idValue id parseInt onPhotos IDBdelete].
    destruct (IH (j ++ [mkWorld (trips w)
                          (mkStore (delete k (records (photos w)))
                             (currentNumber (photos w))) (clockReads w)])
                (mkWorld (trips w)
                   (mkStore (delete k (records (photos w)))
                      (currentNumber (photos w))) (clockReads w)))
      as (js & Hrun & Htrips).
    eexists (_ :: js). rewrite Hrun. split.
    + by rewrite <-(assoc_L (++)).
    + by constructor.
Qed.

Lemma Journal_deleteTrip_spec t k w :
  parseInt t = Int k →
  ∃ log,
    Journal.deleteTrip t [] w = (log ++ [(deleteTrip t w).1], (deleteTrip t w).1, inr tt)
    ∧ Forall (λ w', trips w' = trips w) log.
Proof.
  intros Ht. unfold Journal.deleteTrip, Journal.deletePhotosByTripId.
  unfold Journal.await at 1. unfold Journal.await at 1.
  unfold Journal.reading, getPhotosByTripId, readPhotos. rewrite Ht.
  cbn [IDBindexGetAll].
  destruct (Journal_forOf_deletePhoto
              (filter (λ p : Photo, tripId (fields p) = Some k)
                 (IDBgetAll (photos w))) [] w) as (js & Hrun & Htrips).
  { apply Forall_forall. intros p Hp.
    apply list_elem_of_filter in Hp as [_ Hp].
    apply elem_of_IDBgetAll in Hp as (j & v & -> & _). by eexists. }
  rewrite Hrun. exists js. split; [|done].
  unfold Journal.writing, deleteTrip, await, deletePhotosByTripId, await,
    getPhotosByTripId, readPhotos.
  rewrite Ht. cbn [IDBindexGetAll].
  destruct (forOf _ _ w) as [w1 [e|[]]] eqn:Hfor.
  - rewrite forOf_deletePhoto in Hfor; [done|].
    apply Forall_forall. intros p Hp.
    apply list_elem_of_filter in Hp as [_ Hp].
    apply elem_of_IDBgetAll in Hp as (j & v & -> & _). by eexists.
  - by cbn [fst onTrips IDBdelete].
Qed.

(** C1.  For a trip id [t] that is in the store (the id and the keys of the
    photos being safe integers), [deleteTrip(t)] first removes every photo
    whose [tripId] is [t], then removes the trip record: in the world [w1]
    between the two steps no such photo is left and the trip record is
    still there; of the states the database passes through, the trip is
    still stored in every one but the last ([log]), and the last write, the
    one that removes it, leaves the photos as the loop left them.
    Afterwards [getPhotosByTripId(t)] resolves to the empty sequence. *)
Theorem deleteTrip_cascades t k w :
  parseInt t = Int k →
  isSafeInteger k →
  safeKeys (photos w) →
  is_Some (records (trips w) !! k) →
  ∃ w1 w2 log,
    deletePhotosByTripId t w = (w1, inr tt)
    ∧ (∀ j p, records (photos w1) !! j = Some p → tripId p ≠ Some k)
    ∧ is_Some (records (trips w1) !! k)
    ∧ onTrips (IDBdelete (parseInt t)) w1 = (w2, inr tt)
    ∧ deleteTrip t w = (w2, inr tt)
    ∧ Journal.deleteTrip t [] w = (log ++ [w2], w2, inr tt)
    ∧ Forall (λ w', is_Some (records (trips w') !! k)) log
    ∧ records (trips w2) !! k = None
    ∧ photos w2 = photos w1
    ∧ getPhotosByTripId t w2 = (w2, inr []).
Proof.
  intros Ht _ _ Hk.
  destruct (Journal_deleteTrip_spec t k w Ht) as (log & Hlog & Htrips).
  rewrite (deleteTrip_spec t k w Ht) in Hlog. cbn [fst] in Hlog.
  eexists _, _, log. split; [by apply deletePhotosByTripId_spec|].
  split.
  { simpl. intros j p Hj. by apply map_lookup_filter_Some in Hj as [_ ?]. }
  split; [done|].
  split; [unfold onTrips; rewrite Ht; reflexivity|]. simpl.
  split; [by apply deleteTrip_spec|].
  split; [exact Hlog|].
  split; [eapply Forall_impl; [exact Htrips|]; by intros w' ->|].
  split; [apply lookup_delete_eq|]. split; [done|].
  rewrite (getPhotosByTripId_spec _ k) by done. do 2 f_equal.
  apply filter_nil_iff. intros p Hp Hpk.
  apply elem_of_IDBgetAll in Hp as (j & v & -> & Hj). simpl in *.
  by apply map_lookup_filter_Some in Hj as [_ ?].
Qed.

(** C10.  [deleteTrip(t)] (the id and the keys of the stored photos being
    safe integers) leaves every trip with another id and every photo with
    another [tripId] as it was, adds nothing, and touches neither the key
    generators nor the clock; an id that [parseInt] cannot read is refused
    and nothing changes. *)
Theorem deleteTrip_frame t w :
  safeKeys (photos w) →
  match parseInt t with
  | Int k =>
      isSafeInteger k →
      ∃ w', deleteTrip t w = (w', inr tt)
        ∧ (∀ k', k' ≠ k → records (trips w') !! k' = records (trips w) !! k')
        ∧ (∀ j p, records (photos w) !! j = Some p → tripId p ≠ Some k →
                  records (photos w') !! j = Some p)
        ∧ (∀ j p, records (photos w') !! j = Some p →
                  records (photos w) !! j = Some p ∧ tripId p ≠ Some k)
        ∧ currentNumber (trips w') = currentNumber (trips w)
        ∧ currentNumber (photos w') = currentNumber (photos w)
        ∧ clockReads w' = clockReads w
  | NaN => deleteTrip t w = (w, inl DataError)
  end.
Proof.
  intros _. destruct (parseInt t) as [k|] eqn:Ht.
  - intros _. eexists. split; [by apply deleteTrip_spec|]. simpl.
    split; [intros k' Hk'; by apply lookup_delete_ne|].
    split; [intros j p Hj Hp; by apply map_lookup_filter_Some|].
    split; [|done].
    intros j p Hj. by apply map_lookup_filter_Some in Hj.
  - unfold deleteTrip, await. by rewrite deletePhotosByTripId_NaN.
Qed.

(** ** Adding and updating trips *)

Section Writes.
Variable clock : nat → Z.

Lemma addTrip_unfold tripData w :
  addTrip clock tripData w
  = let n := clockReads w in
    let f := setUpdatedAt (clock (S n))
               (setCreatedAt (clock n) (fields tripData)) in
    match IDBadd (mkObj (id tripData) f) (trips w) with
    | inr (k, s) => (mkWorld s (photos w) (S (S n)), inr k)
    | inl e => (mkWorld (trips w) (photos w) (S (S n)), inl e)
    end.
Proof. reflexivity. Qed.

Lemma updateTrip_unfold i tripData w :
  updateTrip clock i tripData w
  = let n := clockReads w in
    match IDBput (Some (parseInt i)) (setUpdatedAt (clock n) (fields tripData))
            (trips w) with
    | inr (k, s) => (mkWorld s (photos w) (S n), inr k)
    | inl e => (mkWorld (trips w) (photos w) (S n), inl e)
    end.
Proof. reflexivity. Qed.

Lemma wfStore_fresh {V} (s : ObjectStore V) :
  wfStore s → records s !! currentNumber s = None.
Proof.
  intros Hwf. destruct (records s !! currentNumber s) as [v|] eqn:Hk; [|done].
  apply Hwf in Hk. lia.
Qed.

(** The key generator at work: while its current number is at most
    [maxKey] and not in use it is the key issued; above [maxKey] the request
    fails. *)
Lemma storeRecord_generate {V} b (v : V) s :
  records s !! currentNumber s = None →
  currentNumber s ≤ maxKey →
  storeRecord b None v s
  = inr (currentNumber s,
         mkStore (<[currentNumber s := v]> (records s)) (currentNumber s + 1)).
Proof.
  intros Hfresh Hmax. unfold storeRecord.
  destruct (maxKey <? currentNumber s) eqn:Hlt; [apply Z.ltb_lt in Hlt; lia|].
  rewrite Hfresh, bool_decide_eq_false_2 by (by intros [? ?]).
  by rewrite andb_false_r.
Qed.

Lemma storeRecord_exhausted {V} b (v : V) s :
  maxKey < currentNumber s → storeRecord b None v s = inl ConstraintError.
Proof.
  intros Hmax. unfold storeRecord.
  by destruct (maxKey <? currentNumber s) eqn:Hlt; [|apply Z.ltb_ge in Hlt; lia].
Qed.

(** C2, as the code has it.  [addTrip] validates nothing: for every
    [tripData] without an [id], whichever of title, country, city and
    startDate it lacks, the call resolves to the next number of the key
    generator (as long as the key generator has a key left) and the record
    is added under it. *)
Theorem addTrip_no_validation tripData w :
  wf w →
  currentNumber (trips w) ≤ maxKey →
  id tripData = None →
  ∃ w',
    addTrip clock tripData w = (w', inr (currentNumber (trips w)))
    ∧ records (trips w) !! currentNumber (trips w) = None
    ∧ records (trips w')
      = <[currentNumber (trips w) :=
            setUpdatedAt (clock (S (clockReads w)))
              (setCreatedAt (clock (clockReads w)) (fields tripData))]>
          (records (trips w))
    ∧ size (records (trips w')) = S (size (records (trips w))).
Proof.
  intros [Hwf _] Hmax Hid. pose proof (wfStore_fresh _ Hwf) as Hfresh.
  rewrite addTrip_unfold. unfold IDBadd. cbn [id fields]. rewrite Hid.
  cbn [fmap option_fmap option_map]. rewrite storeRecord_generate by done.
  eexists. split; [done|]. split; [done|]. split; [done|].
  simpl. by apply map_size_insert_None.
Qed.

(** C3, as the code has it.  For an [id] that identifies no stored trip,
    [updateTrip(id, tripData)] does not fail with a not-found error: when
    [parseInt(id)] is a number the call resolves and a new record is created
    under that key; when it is [NaN] the engine refuses the key with a
    [DataError] and the trips are unchanged. *)
Theorem updateTrip_upserts i tripData w :
  (∀ k, parseInt i = Int k → records (trips w) !! k = None) →
  match parseInt i with
  | Int k =>
      ∃ w',
        updateTrip clock i tripData w = (w', inr k)
        ∧ records (trips w')
          = <[k := setUpdatedAt (clock (clockReads w)) (fields tripData)]>
              (records (trips w))
        ∧ size (records (trips w')) = S (size (records (trips w)))
  | NaN =>
      updateTrip clock i tripData w
      = (mkWorld (trips w) (photos w) (S (clockReads w)), inl DataError)
  end.
Proof.
  intros Hnew. rewrite updateTrip_unfold.
  destruct (parseInt i) as [k|]; [|done].
  simpl. eexists. split; [done|]. split; [done|].
  simpl. apply map_size_insert_None. by apply Hnew.
Qed.

(** C4, as the code has it.  [addTrip] keeps an [id] that the caller put on
    [tripData]: the record is stored under that id, or the call fails with a
    [ConstraintError] and changes no trip when the id is in use.  Only without
    an [id] does the store assign the key: the current number of the key
    generator, which is greater than every key in use, and the key generator
    advances by one; when the key generator has no key left (its current
    number is above [maxKey]) the call fails with a [ConstraintError] and
    changes no trip. *)
Theorem addTrip_id tripData w :
  wf w →
  let stored := setUpdatedAt (clock (S (clockReads w)))
                  (setCreatedAt (clock (clockReads w)) (fields tripData)) in
  match id tripData with
  | None =>
      let k := currentNumber (trips w) in
      (∀ k' v, records (trips w) !! k' = Some v → k' < k)
      ∧ (k ≤ maxKey →
         ∃ w', addTrip clock tripData w = (w', inr k)
           ∧ records (trips w') = <[k := stored]> (records (trips w))
           ∧ currentNumber (trips w') = k + 1)
      ∧ (maxKey < k →
         ∃ w', addTrip clock tripData w = (w', inl ConstraintError)
           ∧ trips w' = trips w)
  | Some k =>
      if decide (is_Some (records (trips w) !! k)) then
        ∃ w', addTrip clock tripData w = (w', inl ConstraintError)
          ∧ trips w' = trips w
      else
        ∃ w', addTrip clock tripData w = (w', inr k)
          ∧ records (trips w') = <[k := stored]> (records (trips w))
  end.
Proof.
  intros [Hwf _] stored. rewrite addTrip_unfold. unfold IDBadd.
  destruct tripData as [[k|] f]; cbn [id fields fmap option_fmap option_map].
  - unfold storeRecord. case_decide as Hk.
    + rewrite bool_decide_eq_true_2 by done. simpl. eauto.
    + rewrite bool_decide_eq_false_2 by done. simpl. eauto.
  - split; [intros k' v Hk'; by apply Hwf in Hk'|]. split.
    + intros Hmax.
      rewrite storeRecord_generate by (by try apply wfStore_fresh). eauto.
    + intros Hmax. rewrite storeRecord_exhausted by done. eauto.
Qed.

(** C5, as the code has it.  For an existing trip, [updateTrip(id, tripData)]
    followed by [getTrip(id)] yields a record whose [id] is [parseInt(id)],
    whose [createdAt] is the one [tripData] carries (so the earlier value
    exactly when the caller copies it over) and whose [updatedAt] is the
    clock reading of the update (so strictly later than the earlier
    [updatedAt] exactly when the clock has moved past it). *)
Theorem updateTrip_then_getTrip i k tripData prior w :
  parseInt i = Int k →
  records (trips w) !! k = Some prior →
  ∃ w1 r,
    updateTrip clock i tripData w = (w1, inr k)
    ∧ getTrip i w1 = (w1, inr (Some r))
    ∧ id r = Some k
    ∧ createdAt (fields r) = createdAt (fields tripData)
    ∧ updatedAt (fields r) = Some (clock (clockReads w))
    ∧ (createdAt (fields tripData) = createdAt prior →
       createdAt (fields r) = createdAt prior)
    ∧ (∀ u, updatedAt prior = Some u → u < clock (clockReads w) →
       ∃ u', updatedAt (fields r) = Some u' ∧ u < u').
Proof.
  intros Hi Hk. rewrite updateTrip_unfold, Hi. simpl.
  eexists _, _. split; [done|].
  unfold getTrip, readTrips. rewrite Hi. simpl.
  rewrite lookup_insert_eq. simpl. split; [done|]. simpl.
  split; [done|]. split; [done|]. split; [done|]. split; [done|].
  intros u _ Hu. eauto.
Qed.

(** The update path of [handleTripSubmit]: [createdAt] survives when
    [state.currentTrip] carries the stored value. *)
Lemma submitUpdate_keeps_createdAt currentTrip i k tripData prior w :
  parseInt i = Int k →
  records (trips w) !! k = Some prior →
  createdAt (fields currentTrip) = createdAt prior →
  ∃ w1 r,
    submitUpdate clock currentTrip i tripData w = (w1, inr k)
    ∧ getTrip i w1 = (w1, inr (Some r))
    ∧ createdAt (fields r) = createdAt prior.
Proof.
  intros Hi Hk Hc. unfold submitUpdate. rewrite updateTrip_unfold, Hi. simpl.
  eexists _, _. split; [done|].
  unfold getTrip, readTrips. rewrite Hi. simpl.
  rewrite lookup_insert_eq. simpl. split; [done|]. done.
Qed.
End Writes.

(** ** The sort *)

Section SortFacts.
Context {A : Type} (compare : A → A → number).

Lemma sortInsert_Permutation x l : sortInsert compare x l ≡ₚ x :: l.
Proof.
  induction l as [|y l IH]; [done|]. simpl.
  destruct (isPositive (compare x y)); [|done].
  rewrite IH. apply perm_swap.
Qed.

Lemma sort_Permutation l : sort compare l ≡ₚ l.
Proof.
  induction l as [|x l IH]; [done|]. unfold sort in *. simpl.
  by rewrite sortInsert_Permutation, IH.
Qed.

Context (d key : A → Z).

Lemma sortInsert_sorted x l :
  (∀ y, y ∈ l → compare x y = Int (d y - d x)) →
  Forall (λ y, key x < key y) l →
  StronglySorted (stableDesc d key) l →
  StronglySorted (stableDesc d key) (sortInsert compare x l).
Proof.
  intros Hcmp Hkey Hl. induction Hl as [|y l Hl IH Hy]; simpl.
  { repeat constructor. }
  rewrite Hcmp by (by left). simpl.
  apply Forall_cons in Hkey as [Hxy Hkey].
  destruct (Z.ltb_spec 0 (d y - d x)) as [Hpos|Hneg].
  - apply StronglySorted_cons. split.
    + apply Forall_forall. intros z Hz.
      rewrite sortInsert_Permutation in Hz.
      apply elem_of_cons in Hz as [->|Hz].
      * left. lia.
      * rewrite Forall_forall in Hy. by apply Hy.
    + apply IH; [|done]. intros z Hz. apply Hcmp. by right.
  - apply StronglySorted_cons. split; [|by constructor].
    apply Forall_cons. split; [unfold stableDesc; lia|].
    apply Forall_forall. intros z Hz.
    rewrite Forall_forall in Hy, Hkey.
    specialize (Hy z Hz). specialize (Hkey z Hz).
    unfold stableDesc in *. lia.
Qed.

Lemma sort_sorted l :
  (∀ x y, x ∈ l → y ∈ l → compare x y = Int (d y - d x)) →
  StronglySorted (λ a b, key a < key b) l →
  StronglySorted (stableDesc d key) (sort compare l).
Proof.
  intros Hcmp Hl. induction Hl as [|x l Hl IH Hx].
  { constructor. }
  unfold sort. simpl. apply sortInsert_sorted.
  - intros y Hy. fold (sort compare l) in Hy. rewrite sort_Permutation in Hy.
    apply Hcmp; [by left|by right].
  - fold (sort compare l). by rewrite sort_Permutation.
  - apply IH. intros y z Hy Hz. apply Hcmp; by right.
Qed.
End SortFacts.

(** ** Key order *)

Section KeyOrder.
Context {V : Type}.

Global Instance keyLe_trans : Transitive (@keyLe V).
Proof. intros a b c. unfold keyLe. lia. Qed.

Global Instance keyLe_total : Total (@keyLe V).
Proof. intros a b. unfold keyLe. lia. Qed.

Lemma StronglySorted_strict (l : list (Z * V)) :
  NoDup l.*1 → StronglySorted keyLe l →
  StronglySorted (λ a b, a.1 < b.1) l.
Proof.
  intros Hnd Hl. induction Hl as [|x l Hl IH Hx]; [constructor|].
  rewrite fmap_cons in Hnd. apply NoDup_cons in Hnd as [Hx1 Hnd].
  constructor; [by apply IH|].
  apply Forall_forall. intros y Hy. rewrite Forall_forall in Hx.
  specialize (Hx y Hy). unfold keyLe in Hx.
  assert (x.1 ≠ y.1); [|lia].
  intros Heq. apply Hx1. rewrite Heq. by apply list_elem_of_fmap_2.
Qed.

Lemma sorted_records_strict (m : gmap Z V) :
  StronglySorted (λ a b, a.1 < b.1) (merge_sort keyLe (map_to_list m)).
Proof.
  apply StronglySorted_strict.
  - rewrite merge_sort_Permutation. apply NoDup_fst_map_to_list.
  - apply StronglySorted_merge_sort; apply _.
Qed.

(** [getAll] is determined by the records: any list of them in ascending
    key order is the one it returns. *)
Lemma IDBgetAll_unique (s : ObjectStore V) (l : list (Z * V)) :
  StronglySorted (λ a b, a.1 < b.1) l →
  (∀ k v, (k, v) ∈ l ↔ records s !! k = Some v) →
  IDBgetAll s = (λ kv : Z * V, mkObj (Some kv.1) kv.2) <$> l.
Proof.
  intros Hl Hel. unfold IDBgetAll. f_equal.
  apply (StronglySorted_unique_strong (λ a b, a.1 < b.1)).
  - intros; lia.
  - apply sorted_records_strict.
  - done.
  - rewrite merge_sort_Permutation. apply NoDup_Permutation.
    + apply NoDup_map_to_list.
    + clear Hel. induction Hl as [|x l Hl IH Hx]; [constructor|].
      apply NoDup_cons. split; [|done]. intros Hin.
      rewrite Forall_forall in Hx. specialize (Hx x Hin). lia.
    + intros [k v]. rewrite elem_of_map_to_list. by rewrite Hel.
Qed.


Lemma IDBgetAll_sorted (s : ObjectStore V) :
  StronglySorted (λ a b, keyOf a < keyOf b) (IDBgetAll s).
Proof.
  unfold IDBgetAll.
  apply (StronglySorted_fmap _ (λ a b : Z * V, a.1 < b.1)); [done|].
  apply sorted_records_strict.
Qed.
End KeyOrder.


(** ** Keys issued by the generator *)

Section Reissue.
Context {V : Type}.
Implicit Types (vs : list V).

Lemma reissue_snoc g vs v :
  reissue g (vs ++ [v]) = reissue g vs ++ [(g + Z.of_nat (length vs), v)].
Proof.
  revert g. induction vs as [|x vs IH]; intros g; simpl.
  - by rewrite Z.add_0_r.
  - rewrite IH. simpl. eq_lia.
Qed.

Lemma elem_of_reissue g vs k v :
  (k, v) ∈ reissue g vs ↔
  ∃ i : nat, vs !! i = Some v ∧ k = g + Z.of_nat i.
Proof.
  revert g. induction vs as [|x vs IH]; intros g; simpl.
  - split; [by intros ?%elem_of_nil|by intros (i & ? & _)].
  - rewrite elem_of_cons, IH. split.
    + intros [?|(i & Hi & ->)]; simplify_eq.
      * exists 0%nat. split; [done|lia].
      * exists (S i). split; [done|lia].
    + intros ([|i] & Hi & ->); simpl in Hi; simplify_eq.
      * left. eq_lia.
      * right. exists i. split; [done|lia].
Qed.

Lemma reissue_keys g vs k :
  k ∈ (reissue g vs).*1 → g ≤ k < g + Z.of_nat (length vs).
Proof.
  intros Hk. apply list_elem_of_fmap in Hk as [[k' v] [-> Hin]].
  apply elem_of_reissue in Hin as (i & Hi & ->). simpl.
  apply lookup_lt_Some in Hi. lia.
Qed.

Lemma reissue_sorted g vs :
  StronglySorted (λ a b : Z * V, a.1 < b.1) (reissue g vs).
Proof.
  revert g. induction vs as [|x vs IH]; intros g; simpl; constructor.
  - apply IH.
  - apply Forall_forall. intros [k v] Hin. simpl.
    assert (k ∈ (reissue (g + 1) vs).*1) as Hk.
    { apply list_elem_of_fmap. by exists (k, v). }
    apply reissue_keys in Hk. lia.
Qed.

Lemma NoDup_reissue g vs : NoDup (reissue g vs).*1.
Proof.
  revert g. induction vs as [|x vs IH]; intros g; simpl.
  - constructor.
  - apply NoDup_cons. split; [|apply IH].
    intros Hk. apply reissue_keys in Hk. lia.
Qed.

Lemma lookup_reissue g vs k v :
  (list_to_map (reissue g vs) : gmap Z V) !! k = Some v ↔
  ∃ i : nat, vs !! i = Some v ∧ k = g + Z.of_nat i.
Proof.
  rewrite <-elem_of_list_to_map by apply NoDup_reissue.
  apply elem_of_reissue.
Qed.

Lemma size_reissue g vs :
  size (list_to_map (reissue g vs) : gmap Z V) = length vs.
Proof.
  rewrite <-length_map_to_list.
  rewrite map_to_list_to_map by apply NoDup_reissue.
  clear. revert g. induction vs as [|x vs IH]; intros g; simpl; [done|].
  by rewrite IH.
Qed.

Lemma IDBgetAll_reissue g vs c :
  IDBgetAll (mkStore (list_to_map (reissue g vs)) c)
  = (λ kv : Z * V, mkObj (Some kv.1) kv.2) <$> reissue g vs.
Proof.
  apply IDBgetAll_unique; [apply reissue_sorted|].
  intros k v. simpl. apply elem_of_list_to_map, NoDup_reissue.
Qed.

(** The key generator at work: a value without [id] is stored under the
    next number. *)
Lemma storeRecord_reissue g vs v :
  g + Z.of_nat (length vs) ≤ maxKey →
  storeRecord true None v
    (mkStore (list_to_map (reissue g vs)) (g + Z.of_nat (length vs)))
  = inr (g + Z.of_nat (length vs),
         mkStore (list_to_map (reissue g (vs ++ [v])))
                 (g + Z.of_nat (length (vs ++ [v])))).
Proof.
  intros Hmax.
  assert ((list_to_map (reissue g vs) : gmap Z V) !! (g + Z.of_nat (length vs)) = None)
    as Hfresh.
  { apply not_elem_of_list_to_map_1. intros Hk%reissue_keys. lia. }
  rewrite storeRecord_generate by done. cbn [records currentNumber].
  rewrite reissue_snoc, list_to_map_snoc.
  - rewrite length_app. simpl. eq_lia.
  - intros Hk%reissue_keys. lia.
Qed.
End Reissue.

(** ** The loops of [importData] *)

Section Loops.
Variable clock : nat → Z.

Lemma stamps_snoc n ts t :
  stamps clock n (ts ++ [t])
  = stamps clock n ts
    ++ [setUpdatedAt (clock (S (n + 2 * length ts)))
          (setCreatedAt (clock (n + 2 * length ts)) (fields t))].
Proof.
  revert n. induction ts as [|x ts IH]; intros n; simpl.
  - by rewrite Nat.add_0_r.
  - rewrite IH. eq_lia.
Qed.

Lemma length_stamps n ts : length (stamps clock n ts) = length ts.
Proof. revert n. induction ts as [|x ts IH]; intros n; simpl; auto. Qed.

Lemma lookup_stamps n ts (i : nat) :
  stamps clock n ts !! i
  = (λ t : Trip, setUpdatedAt (clock (n + 2 * i + 1))
                   (setCreatedAt (clock (n + 2 * i)) (fields t)))
      <$> ts !! i.
Proof.
  revert n i. induction ts as [|x ts IH]; intros n i; [done|].
  destruct i as [|i]; simpl.
  - eq_lia.
  - rewrite IH. destruct (ts !! i); [|done]. simpl. eq_lia.
Qed.

Lemma content_stamps n ts :
  content <$> stamps clock n ts = (λ t : Trip, content (fields t)) <$> ts.
Proof.
  revert n. induction ts as [|x ts IH]; intros n; [done|].
  simpl. f_equal. apply IH.
Qed.

(** The import loop over trips, from a store filled by the generator: it
    runs to the end when the key generator has a key for every trip. *)
Lemma forOf_addTrip ts g vs P n :
  ts = [] ∨ g + Z.of_nat (length vs) + Z.of_nat (length ts) ≤ maxKey + 1 →
  forOf ts (λ trip, addTrip clock (withoutId trip) ;;; resolve tt)
    (mkWorld (mkStore (list_to_map (reissue g vs)) (g + Z.of_nat (length vs))) P n)
  = (mkWorld
       (mkStore (list_to_map (reissue g (vs ++ stamps clock n ts)))
                (g + Z.of_nat (length (vs ++ stamps clock n ts))))
       P (n + 2 * length ts)%nat, inr tt).
Proof.
  revert vs n. induction ts as [|t ts IH]; intros vs n Hroom.
  - simpl. rewrite app_nil_r, Nat.add_0_r. done.
  - destruct Hroom as [|Hroom]; [done|]. cbn [length] in Hroom.
    cbn [forOf]. unfold await at 1. unfold await at 1.
    rewrite addTrip_unfold. cbn [clockReads trips photos withoutId id fields].
    unfold IDBadd. cbn [id fields fmap option_fmap option_map].
    rewrite storeRecord_reissue by lia. cbn [resolve].
    rewrite IH by (right; rewrite length_app; simpl; lia). cbn [stamps length].
    rewrite <-!(assoc_L (++)). simpl. eq_lia.
Qed.

(** ... and only then. *)
Lemma forOf_addTrip_inr ts g vs P n w' :
  forOf ts (λ trip, addTrip clock (withoutId trip) ;;; resolve tt)
    (mkWorld (mkStore (list_to_map (reissue g vs)) (g + Z.of_nat (length vs))) P n)
  = (w', inr tt) →
  ts = [] ∨ g + Z.of_nat (length vs) + Z.of_nat (length ts) ≤ maxKey + 1.
Proof.
  revert vs n. induction ts as [|t ts IH]; intros vs n; [by left|].
  cbn [forOf]. unfold await at 1. unfold await at 1.
  rewrite addTrip_unfold. cbn [clockReads trips photos withoutId id fields].
  unfold IDBadd. cbn [id fields fmap option_fmap option_map].
  destruct (decide (g + Z.of_nat (length vs) ≤ maxKey)) as [Hmax|Hmax].
  - rewrite storeRecord_reissue by done. cbn [resolve].
    intros Hrun. apply IH in Hrun. right. cbn [length].
    destruct Hrun as [->|Hrun]; [simpl; lia|].
    rewrite length_app in Hrun. simpl in Hrun. lia.
  - rewrite storeRecord_exhausted by (simpl; lia). done.
Qed.

Lemma forOf_addPhoto ps g vs T n :
  ps = [] ∨ g + Z.of_nat (length vs) + Z.of_nat (length ps) ≤ maxKey + 1 →
  forOf ps (λ photo, addPhoto (withoutId photo) ;;; resolve tt)
    (mkWorld T (mkStore (list_to_map (reissue g vs)) (g + Z.of_nat (length vs))) n)
  = (mkWorld T
       (mkStore (list_to_map (reissue g (vs ++ (fields <$> ps))))
                (g + Z.of_nat (length (vs ++ (fields <$> ps)))))
       n, inr tt).
Proof.
  revert vs. induction ps as [|p ps IH]; intros vs Hroom.
  - simpl. by rewrite app_nil_r.
  - destruct Hroom as [|Hroom]; [done|]. cbn [length] in Hroom.
    cbn [forOf]. unfold await at 1. unfold await at 1.
    unfold addPhoto, onPhotos, IDBadd.
    cbn [photos trips clockReads withoutId id fields fmap option_fmap option_map].
    rewrite storeRecord_reissue by lia. cbn [resolve].
    rewrite IH by (right; rewrite length_app; simpl; lia).
    rewrite fmap_cons, <-!(assoc_L (++)). done.
Qed.

Lemma forOf_addPhoto_inr ps g vs T n w' :
  forOf ps (λ photo, addPhoto (withoutId photo) ;;; resolve tt)
    (mkWorld T (mkStore (list_to_map (reissue g vs)) (g + Z.of_nat (length vs))) n)
  = (w', inr tt) →
  ps = [] ∨ g + Z.of_nat (length vs) + Z.of_nat (length ps) ≤ maxKey + 1.
Proof.
  revert vs. induction ps as [|p ps IH]; intros vs; [by left|].
  cbn [forOf]. unfold await at 1. unfold await at 1.
  unfold addPhoto, onPhotos, IDBadd.
  cbn [photos trips clockReads withoutId id fields fmap option_fmap option_map].
  destruct (decide (g + Z.of_nat (length vs) ≤ maxKey)) as [Hmax|Hmax].
  - rewrite storeRecord_reissue by done. cbn [resolve].
    intros Hrun. apply IH in Hrun. right. cbn [length].
    destruct Hrun as [->|Hrun]; [simpl; lia|].
    rewrite length_app in Hrun. simpl in Hrun. lia.
  - rewrite storeRecord_exhausted by (simpl; lia). done.
Qed.

Lemma canIssue_length {V A} (l : list A) (s : ObjectStore V) :
  canIssue (length l) s →
  l = [] ∨ currentNumber s + Z.of_nat (length l) ≤ maxKey + 1.
Proof.
  intros [Hl|Hl]; [left; by apply nil_length_inv|right; lia].
Qed.

Lemma hasRoom_canIssue {V} n (s : ObjectStore V) : hasRoom n s → canIssue n s.
Proof. intros [_ Hn]. right. lia. Qed.

(** What a successful [importData] leaves: it succeeds when the key
    generators have a key for every trip and every photo of the document. *)
Lemma importData_spec data ts w :
  doc_trips data = Some ts →
  canIssue (length ts) (trips w) →
  canIssue (length (default [] (doc_photos data))) (photos w) →
  importData clock data w
  = (mkWorld
       (mkStore
          (list_to_map (reissue (currentNumber (trips w))
                          (stamps clock (clockReads w) ts)))
          (currentNumber (trips w) + Z.of_nat (length ts)))
       (mkStore
          (list_to_map (reissue (currentNumber (photos w))
                          (fields <$> default [] (doc_photos data))))
          (currentNumber (photos w) + Z.of_nat (length (default [] (doc_photos data)))))
       (clockReads w + 2 * length ts)%nat, inr true).
Proof.
  intros Hts Hroom Hroom'. unfold importData. rewrite Hts.
  unfold await at 1. unfold clearAllData, IDBclear.
  unfold await at 1.
  pose proof (forOf_addTrip ts (currentNumber (trips w)) []
                (mkStore ∅ (currentNumber (photos w))) (clockReads w)) as Ht.
  simpl in Ht. rewrite Z.add_0_r in Ht.
  rewrite Ht by (by apply canIssue_length). clear Ht.
  unfold await at 1.
  pose proof (λ ps H, forOf_addPhoto ps (currentNumber (photos w)) []
     (mkStore (list_to_map (reissue (currentNumber (trips w))
                              (stamps clock (clockReads w) ts)))
                (currentNumber (trips w) + Z.of_nat (length (stamps clock (clockReads w) ts))))
     (clockReads w + 2 * length ts)%nat H) as Hp.
  simpl in Hp. rewrite Z.add_0_r in Hp.
  destruct (doc_photos data) as [ps|]; simpl.
  - rewrite Hp by (by apply canIssue_length).
    unfold resolve. rewrite length_stamps, length_fmap. done.
  - unfold resolve. rewrite length_stamps, Z.add_0_r. done.
Qed.

(** ... and only then: an import that resolves had a document with trips
    and key generators with a key for each of its records. *)
Lemma importData_inr data w w' :
  importData clock data w = (w', inr true) →
  ∃ ts, doc_trips data = Some ts
    ∧ canIssue (length ts) (trips w)
    ∧ canIssue (length (default [] (doc_photos data))) (photos w).
Proof.
  unfold importData. destruct (doc_trips data) as [ts|] eqn:Hts; [|done].
  unfold await at 1. unfold clearAllData, IDBclear.
  unfold await at 1.
  pose proof (forOf_addTrip_inr ts (currentNumber (trips w)) []
                (mkStore ∅ (currentNumber (photos w))) (clockReads w)) as Hinv.
  pose proof (forOf_addTrip ts (currentNumber (trips w)) []
                (mkStore ∅ (currentNumber (photos w))) (clockReads w)) as Ht.
  simpl in Hinv, Ht. rewrite Z.add_0_r in Hinv, Ht.
  destruct (forOf ts _ _) as [w1 [e|[]]] eqn:Hrun; [done|].
  specialize (Hinv w1 eq_refl). specialize (Ht Hinv). simplify_eq.
  assert (canIssue (length ts) (trips w)) as Hroom.
  { destruct Hinv as [->|Hinv]; [by left|right; lia]. }
  intros Himp. exists ts. split; [done|]. split; [done|].
  destruct (doc_photos data) as [ps|]; [|by left]. simpl in *.
  unfold await at 1 in Himp. unfold await at 1 in Himp.
  pose proof (forOf_addPhoto_inr ps (currentNumber (photos w)) []
     (mkStore (list_to_map (reissue (currentNumber (trips w))
                              (stamps clock (clockReads w) ts)))
                (currentNumber (trips w) + Z.of_nat (length (stamps clock (clockReads w) ts))))
     (clockReads w + 2 * length ts)%nat) as Hp.
  simpl in Hp. rewrite Z.add_0_r in Hp.
  destruct (forOf ps _ _) as [w2 [e|[]]] eqn:Hrun2; [done|].
  destruct (Hp w2 eq_refl) as [->|Hps]; [by left|right; lia].
Qed.
End Loops.

(** ** Export and import *)

Section Backup.
Variable clock : nat → Z.
Variable DateValue : option string → number.

(** C7.  A document with a [trips] property is imported successfully when
    the key generators have a key for each of its records.  After a
    successful import the trips store holds exactly the trips of the
    document, in order, under consecutive keys issued by the generator
    (their own ids are dropped) with fresh timestamps, and the photos store
    holds exactly the photos of the document under fresh keys, each with the
    properties, [tripId] included, it has in the document.  No earlier record
    of a well-formed database survives. *)
Theorem importData_replaces data ts w :
  doc_trips data = Some ts →
  (canIssue (length ts) (trips w) →
   canIssue (length (default [] (doc_photos data))) (photos w) →
   ∃ w', importData clock data w = (w', inr true))
  ∧ ∀ w',
    importData clock data w = (w', inr true) →
    (∀ k v, records (trips w') !! k = Some v ↔
         ∃ (i : nat) (t : Trip),
           ts !! i = Some t
           ∧ k = currentNumber (trips w) + Z.of_nat i
           ∧ v = setUpdatedAt (clock (clockReads w + 2 * i + 1))
                   (setCreatedAt (clock (clockReads w + 2 * i)) (fields t)))
    ∧ (∀ k v, records (photos w') !! k = Some v ↔
         ∃ (i : nat) (p : Photo),
           default [] (doc_photos data) !! i = Some p
           ∧ k = currentNumber (photos w) + Z.of_nat i
           ∧ v = fields p)
    ∧ (wf w → ∀ k, is_Some (records (trips w) !! k) →
         records (trips w') !! k = None)
    ∧ (wf w → ∀ k, is_Some (records (photos w) !! k) →
         records (photos w') !! k = None).
Proof.
  intros Hts. split.
  { intros Hr1 Hr2. eexists. by apply importData_spec. }
  intros w' Himp.
  destruct (importData_inr _ _ _ _ Himp) as (ts' & Hts' & Hr1 & Hr2).
  assert (ts' = ts) as -> by congruence.
  rewrite (importData_spec _ _ ts w Hts Hr1 Hr2) in Himp.
  injection Himp as <-. simpl.
  assert (∀ k v,
    (list_to_map (reissue (currentNumber (trips w))
                    (stamps clock (clockReads w) ts)) : gmap Z TripFields)
      !! k = Some v ↔
    ∃ (i : nat) (t : Trip),
      ts !! i = Some t
      ∧ k = currentNumber (trips w) + Z.of_nat i
      ∧ v = setUpdatedAt (clock (clockReads w + 2 * i + 1))
              (setCreatedAt (clock (clockReads w + 2 * i)) (fields t)))
    as Htrips.
  { intros k v. rewrite lookup_reissue. split.
    - intros (i & Hi & ->). rewrite lookup_stamps in Hi.
      destruct (ts !! i) as [t|] eqn:Ht; [|done]. simpl in Hi.
      exists i, t. by simplify_eq.
    - intros (i & t & Hi & -> & ->). exists i. split; [|done].
      by rewrite lookup_stamps, Hi. }
  assert (∀ k v,
    (list_to_map (reissue (currentNumber (photos w))
                    (fields <$> default [] (doc_photos data)))
       : gmap Z PhotoFields) !! k = Some v ↔
    ∃ (i : nat) (p : Photo),
      default [] (doc_photos data) !! i = Some p
      ∧ k = currentNumber (photos w) + Z.of_nat i
      ∧ v = fields p) as Hphotos.
  { intros k v. rewrite lookup_reissue. split.
    - intros (i & Hi & ->). rewrite list_lookup_fmap in Hi.
      destruct (default [] (doc_photos data) !! i) as [p|] eqn:Hp; [|done].
      simpl in Hi. exists i, p. by simplify_eq.
    - intros (i & p & Hi & -> & ->). exists i. split; [|done].
      by rewrite list_lookup_fmap, Hi. }
  split; [done|]. split; [done|]. split.
  - intros [Hwf _] k [v Hk]. apply Hwf in Hk.
    apply eq_None_not_Some. intros [v' Hv'].
    apply Htrips in Hv' as (i & _ & _ & -> & _). lia.
  - intros [_ Hwf] k [v Hk]. apply Hwf in Hk.
    apply eq_None_not_Some. intros [v' Hv'].
    apply Hphotos in Hv' as (i & _ & _ & -> & _). lia.
Qed.

Lemma getAllTrips_unfold w :
  getAllTrips DateValue w
  = (w, inr (sort (compareStartDate DateValue) (IDBgetAll (trips w)))).
Proof. reflexivity. Qed.

Lemma exportData_unfold w :
  exportData clock DateValue w
  = (mkWorld (trips w) (photos w) (S (clockReads w)),
     inr (mkDocument (Some DB_VERSION) (Some (clock (clockReads w)))
            (Some (sort (compareStartDate DateValue) (IDBgetAll (trips w))))
            (Some (IDBgetAll (photos w))))).
Proof. reflexivity. Qed.

(** C8, as the code has it.  In every state of the database in which each
    key generator still has a key for every record of its store,
    [importData(exportData())] succeeds and leaves as many trips and as many
    photos as there were. *)
Theorem import_export_counts w :
  canIssue (size (records (trips w))) (trips w) →
  canIssue (size (records (photos w))) (photos w) →
  ∃ w1 doc w2,
    exportData clock DateValue w = (w1, inr doc)
    ∧ importData clock doc w1 = (w2, inr true)
    ∧ size (records (trips w2)) = size (records (trips w))
    ∧ size (records (photos w2)) = size (records (photos w)).
Proof.
  intros Hr1 Hr2.
  eexists _, _, _. split; [apply exportData_unfold|].
  split.
  { apply importData_spec; [done|..]; simpl.
    - by rewrite sort_Permutation, length_IDBgetAll.
    - by rewrite length_IDBgetAll. }
  simpl.
  rewrite !size_reissue, length_stamps, length_fmap.
  rewrite sort_Permutation, !length_IDBgetAll. done.
Qed.
End Backup.

Lemma timeOf_inj a b : a ≠ NaN → b ≠ NaN → timeOf a = timeOf b → a = b.
Proof. destruct a, b; simpl; intros; by simplify_eq. Qed.

Lemma snd_reissue {V} g (vs : list V) : (reissue g vs).*2 = vs.
Proof.
  revert g. induction vs as [|x vs IH]; intros g; [done|].
  simpl. f_equal. apply IH.
Qed.

Lemma stableDesc_strict {A} (d key : A → Z) (l : list A) :
  StronglySorted (stableDesc d key) l → NoDup (d <$> l) →
  StronglySorted (λ a b, d b < d a) l.
Proof.
  intros Hl. induction Hl as [|x l Hl IH Hx]; intros Hnd; [constructor|].
  simpl in Hnd. apply NoDup_cons in Hnd as [Hx' Hnd].
  constructor; [by apply IH|].
  apply Forall_forall. intros y Hy. rewrite Forall_forall in Hx.
  destruct (Hx y Hy) as [?|[Heq _]]; [done|].
  exfalso. apply Hx'. rewrite <-Heq. by apply list_elem_of_fmap_2.
Qed.

(** ** Listing trips *)

Section Listing.
Variable DateValue : option string → number.

Lemma compareStartDate_valid (a b : Trip) :
  DateValue (startDate (fields a)) ≠ NaN →
  DateValue (startDate (fields b)) ≠ NaN →
  compareStartDate DateValue a b
  = Int (startTime DateValue b - startTime DateValue a).
Proof.
  unfold compareStartDate, startTime.
  by destruct (DateValue (startDate (fields a))),
              (DateValue (startDate (fields b))).
Qed.

Lemma getAllTrips_sorted w :
  validDates DateValue (records (trips w)) →
  ∃ l, getAllTrips DateValue w = (w, inr l)
    ∧ l ≡ₚ IDBgetAll (trips w)
    ∧ StronglySorted (newestFirst DateValue) l.
Proof.
  intros Hv. eexists. split; [apply getAllTrips_unfold|].
  split; [apply sort_Permutation|].
  apply sort_sorted; [|apply IDBgetAll_sorted].
  intros x y Hx Hy.
  apply elem_of_IDBgetAll in Hx as (kx & vx & -> & Hx).
  apply elem_of_IDBgetAll in Hy as (ky & vy & -> & Hy).
  apply compareStartDate_valid; simpl; [by eapply Hv|by eapply (Hv ky)].
Qed.

Lemma forOf_ext {A} (l : list A) (body body' : A → Promise unit) w :
  Forall (λ x, ∀ w, body x w = body' x w) l →
  forOf l body w = forOf l body' w.
Proof.
  intros Hl. revert w. induction Hl as [|x l Hx _ IH]; intros w; [done|].
  simpl. unfold await. rewrite Hx.
  destruct (body' x w) as [w' [e|a]]; [done|apply IH].
Qed.

Lemma addTrips_withoutId clock l w :
  Forall (λ t : Trip, id t = None) l →
  addTrips clock l w
  = forOf l (λ trip, addTrip clock (withoutId trip) ;;; resolve tt) w.
Proof.
  intros Hl. unfold addTrips. apply forOf_ext.
  eapply Forall_impl; [exact Hl|]. intros [i f] Hi w'. simpl in Hi.
  by subst i.
Qed.

Lemma addTrips_spec clock l w :
  Forall (λ t : Trip, id t = None) l →
  records (trips w) = ∅ →
  canIssue (length l) (trips w) →
  addTrips clock l w
  = (mkWorld
       (mkStore
          (list_to_map (reissue (currentNumber (trips w))
                          (stamps clock (clockReads w) l)))
          (currentNumber (trips w) + Z.of_nat (length l)))
       (photos w) (clockReads w + 2 * length l)%nat, inr tt).
Proof.
  intros Hl Hempty Hroom. rewrite addTrips_withoutId by done.
  apply canIssue_length in Hroom.
  destruct w as [[m g] P n]. simpl in *. subst m.
  pose proof (forOf_addTrip clock l g [] P n) as Ht.
  simpl in Ht. rewrite Z.add_0_r, length_stamps in Ht. by apply Ht.
Qed.

(** C6, as the code has it.  [getAllTrips()] returns the stored trips, each
    once; when every stored start date is a valid date (so that the
    comparator is an ordering) they come latest start date first and, among
    equal start dates, in ascending id order.  Trips with pairwise distinct
    valid start dates added to an empty store (whose key generator has the
    keys) in any two orders are listed in the same order, up to the ids and
    timestamps the store gives them. *)
Theorem getAllTrips_order :
  (∀ w : World,
     ∃ l, getAllTrips DateValue w = (w, inr l)
       ∧ NoDup l
       ∧ (∀ t, t ∈ l ↔
            ∃ k v, t = mkObj (Some k) v ∧ records (trips w) !! k = Some v)
       ∧ (validDates DateValue (records (trips w)) →
          StronglySorted (newestFirst DateValue) l))
  ∧ (∀ (clock clock' : nat → Z) (l l' : list Trip) (w : World),
       records (trips w) = ∅ →
       canIssue (length l) (trips w) →
       Forall (λ t : Trip, id t = None) l →
       Forall (λ t : Trip, DateValue (startDate (fields t)) ≠ NaN) l →
       NoDup ((λ t : Trip, DateValue (startDate (fields t))) <$> l) →
       l ≡ₚ l' →
       ∃ w1 w2 r1 r2,
         addTrips clock l w = (w1, inr tt)
         ∧ addTrips clock' l' w = (w2, inr tt)
         ∧ getAllTrips DateValue w1 = (w1, inr r1)
         ∧ getAllTrips DateValue w2 = (w2, inr r2)
         ∧ (λ t : Trip, content (fields t)) <$> r1
           = (λ t : Trip, content (fields t)) <$> r2).
Proof.
  split.
  - intros w. eexists. split; [apply getAllTrips_unfold|].
    split; [rewrite sort_Permutation; apply NoDup_IDBgetAll|].
    split; [intros t; rewrite sort_Permutation; apply elem_of_IDBgetAll|].
    intros Hv. destruct (getAllTrips_sorted w Hv) as (l & Hl & _ & Hs).
    rewrite getAllTrips_unfold in Hl. by simplify_eq.
  - intros clock clock' l l' w Hempty Hroom Hid Hvalid Hnd Hperm.
    assert (∀ c (l0 : list Trip),
      l0 ≡ₚ l →
      ∃ w0 r0,
        addTrips c l0 w = (w0, inr tt)
        ∧ getAllTrips DateValue w0 = (w0, inr r0)
        ∧ (λ t : Trip, content (fields t)) <$> r0
          ≡ₚ (λ t : Trip, content (fields t)) <$> l
        ∧ StronglySorted
            (λ a b : TripFields,
               timeOf (DateValue (startDate b))
               < timeOf (DateValue (startDate a)))
            ((λ t : Trip, content (fields t)) <$> r0)) as Hrun.
    { intros c l0 Hl0.
      assert (Forall (λ t : Trip, id t = None) l0) as Hid0
        by (by rewrite Hl0).
      assert (Forall (λ t : Trip, DateValue (startDate (fields t)) ≠ NaN) l0)
        as Hvalid0 by (by rewrite Hl0).
      assert (canIssue (length l0) (trips w)) as Hroom0
        by (by rewrite Hl0).
      pose proof (addTrips_spec c l0 w Hid0 Hempty Hroom0) as Ha.
      set (w0 := mkWorld _ _ _) in Ha.
      assert (validDates DateValue (records (trips w0))) as Hv0.
      { intros k v Hk. simpl in Hk. apply lookup_reissue in Hk as (i & Hi & _).
        rewrite lookup_stamps in Hi.
        destruct (l0 !! i) as [t|] eqn:Ht; [|done]. simpl in Hi.
        simplify_eq. simpl. rewrite Forall_forall in Hvalid0.
        apply Hvalid0. by eapply list_elem_of_lookup_2. }
      destruct (getAllTrips_sorted w0 Hv0) as (r0 & Hr0 & Hp0 & Hs0).
      exists w0, r0. split; [exact Ha|]. split; [exact Hr0|].
      assert ((λ t : Trip, content (fields t)) <$> r0
              ≡ₚ (λ t : Trip, content (fields t)) <$> l) as Hc.
      { rewrite Hp0. unfold w0. simpl. rewrite IDBgetAll_reissue.
        rewrite <-list_fmap_compose.
        rewrite <-Hl0, <-(content_stamps c (clockReads w) l0).
        rewrite <-(snd_reissue (currentNumber (trips w))
                     (stamps c (clockReads w) l0)) at 2.
        by rewrite <-list_fmap_compose. }
      split; [done|].
      apply (StronglySorted_fmap _
               (λ a b : Trip, startTime DateValue b < startTime DateValue a));
        [done|].
      apply (stableDesc_strict _ keyOf); [done|].
      assert (startTime DateValue <$> r0
              ≡ₚ (λ t : Trip, timeOf (DateValue (startDate (fields t)))) <$> l)
        as ->.
      { change (startTime DateValue) with
          ((λ f, timeOf (DateValue (startDate f)))
             ∘ (λ t : Trip, content (fields t))).
        rewrite (list_fmap_compose (λ t : Trip, content (fields t))), Hc.
        by rewrite <-list_fmap_compose. }
      rewrite (list_fmap_compose
                 (λ t : Trip, DateValue (startDate (fields t))) timeOf).
      apply NoDup_fmap_2_strong; [|done].
      intros a b Hina Hinb.
      apply list_elem_of_fmap in Hina as (ta & -> & Hta).
      apply list_elem_of_fmap in Hinb as (tb & -> & Htb).
      rewrite Forall_forall in Hvalid.
      apply timeOf_inj; by apply Hvalid. }
    destruct (Hrun clock l) as (w1 & r1 & Ha1 & Hg1 & Hc1 & Hs1); [done|].
    destruct (Hrun clock' l') as (w2 & r2 & Ha2 & Hg2 & Hc2 & Hs2); [done|].
    exists w1, w2, r1, r2. do 4 (split; [done|]).
    eapply StronglySorted_unique_strong; [|exact Hs1|exact Hs2|].
    + intros a b _ _ Hab Hba. simpl in Hab, Hba. lia.
    + by rewrite Hc1, Hc2.
Qed.
End Listing.

(** ** Sets and statistics *)

Section SetFacts.
Context {A : Type} `{EqDecision A}.

Lemma foldl_setAdd_NoDup (l acc : list A) :
  NoDup acc → NoDup (foldl setAdd acc l).
Proof.
  revert acc. induction l as [|x l IH]; intros acc Hacc; [done|].
  simpl. apply IH. unfold setAdd. case_bool_decide as Hx; [done|].
  apply NoDup_app. split; [done|]. split; [|apply NoDup_singleton].
  intros y Hy ->%list_elem_of_singleton. done.
Qed.

Lemma elem_of_foldl_setAdd (l acc : list A) x :
  x ∈ foldl setAdd acc l ↔ x ∈ acc ∨ x ∈ l.
Proof.
  revert acc. induction l as [|y l IH]; intros acc; simpl.
  - rewrite elem_of_nil. tauto.
  - rewrite IH, elem_of_cons. unfold setAdd.
    case_bool_decide as Hy.
    + split; [tauto|]. intros [?|[->|?]]; tauto.
    + rewrite elem_of_app, list_elem_of_singleton. tauto.
Qed.

Lemma NoDup_newSet (l : list A) : NoDup (newSet l).
Proof. apply foldl_setAdd_NoDup, NoDup_nil_2. Qed.

Lemma elem_of_newSet (l : list A) x : x ∈ newSet l ↔ x ∈ l.
Proof.
  unfold newSet. rewrite elem_of_foldl_setAdd, elem_of_nil. tauto.
Qed.
End SetFacts.

Lemma Boolean_nonEmpty v : Boolean v ↔ nonEmpty v.
Proof.
  unfold nonEmpty. destruct v as [s|]; simpl.
  - destruct (String.eqb_spec s ""); simpl; split.
    + intros [].
    + intros (s' & ? & ?). by simplify_eq.
    + eauto.
    + done.
  - split; [intros []|]. by intros (s & ? & _).
Qed.

(** The size of the set built from the truthy values of a column is the
    number of distinct non-empty strings in it. *)
Lemma distinct_count (col : list (option string)) :
  ∃ cs : gset string,
    (∀ c, c ∈ cs ↔ c ≠ "" ∧ Some c ∈ col)
    ∧ length (newSet (filter Boolean col)) = size cs.
Proof.
  exists (list_to_set (omap (λ v, v) (newSet (filter Boolean col)))).
  split.
  - intros c. rewrite elem_of_list_to_set, list_elem_of_omap. split.
    + intros (v & Hv & ->). apply elem_of_newSet, list_elem_of_filter in Hv.
      destruct Hv as [Hb Hin]. split; [|done].
      apply Boolean_nonEmpty in Hb as (s & ? & ?). by simplify_eq.
    + intros [Hc Hin]. exists (Some c). split; [|done].
      apply elem_of_newSet, list_elem_of_filter. split; [|done].
      apply Boolean_nonEmpty. by exists c.
  - pose proof (NoDup_newSet (filter Boolean col)) as Hnd.
    assert (Forall is_Some (newSet (filter Boolean col))) as Hsome.
    { apply Forall_forall. intros v Hv.
      apply elem_of_newSet, list_elem_of_filter in Hv as [Hb _].
      apply Boolean_nonEmpty in Hb as (s & -> & _). by eexists. }
    revert Hnd Hsome. generalize (newSet (filter Boolean col)).
    intros l Hnd Hsome. rewrite size_list_to_set.
    + induction Hsome as [|x l [s ->] _ IH]; [done|].
      simpl. f_equal. apply IH. by apply NoDup_cons in Hnd as [_ ?].
    + induction Hsome as [|x l [s ->] _ IH]; [constructor|].
      apply NoDup_cons in Hnd as [Hx Hnd]. simpl.
      apply NoDup_cons. split; [|by apply IH].
      intros Hin. apply Hx. apply list_elem_of_omap in Hin as (v & Hv & ->).
      done.
Qed.

Section Stats.
Variable DateValue : option string → number.

Lemma getStats_unfold w :
  getStats DateValue w
  = let trips := sort (compareStartDate DateValue) (IDBgetAll (trips w)) in
    (w, inr (mkStats
      (length (newSet (filter Boolean
                 ((λ t : Trip, country (fields t)) <$> trips))))
      (length (newSet (filter Boolean
                 ((λ t : Trip, city (fields t)) <$> trips))))
      (length (filter (λ t : Trip, Boolean (place (fields t))) trips))
      (length (IDBgetAll (photos w)))
      (length trips))).
Proof. reflexivity. Qed.

Lemma column_elem (f : TripFields → option string) w c :
  Some c ∈ (λ t : Trip, f (fields t))
             <$> sort (compareStartDate DateValue) (IDBgetAll (trips w))
  ↔ ∃ k v, records (trips w) !! k = Some v ∧ f v = Some c.
Proof.
  rewrite sort_Permutation, list_elem_of_fmap. split.
  - intros (t & Hc & Ht). apply elem_of_IDBgetAll in Ht as (k & v & -> & Hk).
    eauto.
  - intros (k & v & Hk & Hc). exists (mkObj (Some k) v). split; [done|].
    apply elem_of_IDBgetAll. eauto.
Qed.

Lemma NoDup_keys_IDBgetAll {V} (s : ObjectStore V) :
  NoDup (keyOf <$> IDBgetAll s).
Proof.
  rewrite IDBgetAll_Permutation, <-list_fmap_compose.
  apply NoDup_fst_map_to_list.
Qed.

(** C9.  In every state [getStats()] resolves to: the number of distinct
    non-empty country values, the number of distinct non-empty city values,
    the number of trips with a non-empty place, the number of photos and the
    number of trips. *)
Theorem getStats_counts w :
  ∃ (st : Stats) (cs ct : gset string) (ps : gset Z),
    getStats DateValue w = (w, inr st)
    ∧ (∀ c, c ∈ cs ↔
         c ≠ "" ∧ ∃ k v, records (trips w) !! k = Some v ∧ country v = Some c)
    ∧ stat_countries st = size cs
    ∧ (∀ c, c ∈ ct ↔
         c ≠ "" ∧ ∃ k v, records (trips w) !! k = Some v ∧ city v = Some c)
    ∧ stat_cities st = size ct
    ∧ (∀ k, k ∈ ps ↔
         ∃ v, records (trips w) !! k = Some v ∧ nonEmpty (place v))
    ∧ stat_places st = size ps
    ∧ stat_photos st = size (records (photos w))
    ∧ stat_trips st = size (records (trips w)).
Proof.
  rewrite getStats_unfold. cbv zeta.
  set (l := sort (compareStartDate DateValue) (IDBgetAll (trips w))).
  destruct (distinct_count ((λ t : Trip, country (fields t)) <$> l))
    as (cs & Hcs & Hncs).
  destruct (distinct_count ((λ t : Trip, city (fields t)) <$> l))
    as (ct & Hct & Hnct).
  eexists _, cs, ct,
    (list_to_set
       (keyOf <$> filter (λ t : Trip, Boolean (place (fields t))) l)).
  split; [done|]. simpl.
  split; [intros c; rewrite Hcs; unfold l; by rewrite (column_elem country)|].
  split; [done|].
  split; [intros c; rewrite Hct; unfold l; by rewrite (column_elem city)|].
  split; [done|].
  split; [|split; [|split]].
  - intros k. rewrite elem_of_list_to_set, list_elem_of_fmap. split.
    + intros (t & -> & Ht). apply list_elem_of_filter in Ht as [Hb Ht].
      unfold l in Ht. rewrite sort_Permutation in Ht.
      apply elem_of_IDBgetAll in Ht as (k & v & -> & Hk).
      exists v. split; [done|]. by apply Boolean_nonEmpty.
    + intros (v & Hk & Hp). exists (mkObj (Some k) v). split; [done|].
      apply list_elem_of_filter. split; [by apply Boolean_nonEmpty|].
      unfold l. rewrite sort_Permutation. apply elem_of_IDBgetAll. eauto.
  - rewrite size_list_to_set, length_fmap; [done|].
    assert (NoDup (keyOf <$> l)) as Hnd.
    { unfold l. rewrite sort_Permutation. apply NoDup_keys_IDBgetAll. }
    revert Hnd. generalize l. clear. intros l.
    induction l as [|t l IH]; simpl; intros Hnd; [constructor|].
    apply NoDup_cons in Hnd as [Ht Hnd]. rewrite filter_cons.
    destruct (decide _); [|by apply IH]. simpl.
    apply NoDup_cons. split; [|by apply IH].
    intros Hin. apply Ht. apply list_elem_of_fmap in Hin as (t' & -> & Hin).
    apply list_elem_of_filter in Hin as [_ Hin].
    by apply list_elem_of_fmap_2.
  - apply length_IDBgetAll.
  - unfold l. rewrite sort_Permutation. apply length_IDBgetAll.
Qed.
End Stats.

(** ** Invariants of the key generators *)

Section Invariant.
Context {V : Type}.
Implicit Types (s : ObjectStore V).

Lemma wfStore_new : wfStore (@newStore V).
Proof. apply map_Forall_empty. Qed.

(** A key that the generator issues, or that a caller chooses up to
    [maxKey], leaves the key generator ahead of every key in use. *)
Lemma wfStore_storeRecord b key v s k s' :
  (∀ j, key = Some (Int j) → j ≤ maxKey) →
  wfStore s → storeRecord b key v s = inr (k, s') → wfStore s'.
Proof.
  intros Hkey Hwf. unfold storeRecord.
  destruct key as [[j|]|]; [| |]; try done.
  - specialize (Hkey j eq_refl).
    destruct (b && _); [done|]. intros [= <- <-]. intros i x. simpl.
    rewrite lookup_insert. case_decide as Hi.
    + intros _. lia.
    + intros Hx%Hwf. lia.
  - destruct (maxKey <? _); [done|].
    destruct (b && _); [done|]. intros [= <- <-]. intros i x. simpl.
    rewrite lookup_insert. case_decide as Hi.
    + intros _. lia.
    + intros Hx%Hwf. lia.
Qed.

Lemma wfStore_delete s k :
  wfStore s → wfStore (mkStore (delete k (records s)) (currentNumber s)).
Proof.
  intros Hwf i x. simpl. rewrite lookup_delete. case_decide; [done|].
  apply Hwf.
Qed.

Lemma wfStore_clear s : wfStore (IDBclear s).
Proof. apply map_Forall_empty. Qed.

Lemma wfStore_reissue g (vs : list V) :
  wfStore (mkStore (list_to_map (reissue g vs)) (g + Z.of_nat (length vs))).
Proof.
  intros k v Hk. simpl in *. apply lookup_reissue in Hk as (i & Hi & ->).
  apply lookup_lt_Some in Hi. lia.
Qed.

Lemma generatorAhead_new : generatorAhead (@newStore V).
Proof. split; [done|apply map_Forall_empty]. Qed.

(** Whatever the key, a request that stores a record keeps the key
    generator ahead of the keys it could issue. *)
Lemma generatorAhead_storeRecord b key v s k s' :
  generatorAhead s → storeRecord b key v s = inr (k, s') → generatorAhead s'.
Proof.
  intros [Hpos Hwf]. unfold storeRecord.
  destruct key as [[j|]|]; [| |]; try done.
  - destruct (b && _); [done|]. intros [= <- <-]. split; [simpl; lia|].
    intros i x. simpl.
    rewrite lookup_insert. case_decide as Hi.
    + intros _ Hmax. lia.
    + intros Hx%Hwf Hmax. specialize (Hx Hmax). lia.
  - destruct (maxKey <? _); [done|].
    destruct (b && _); [done|]. intros [= <- <-]. split; [simpl; lia|].
    intros i x. simpl.
    rewrite lookup_insert. case_decide as Hi.
    + intros _ _. lia.
    + intros Hx%Hwf Hmax. specialize (Hx Hmax). lia.
Qed.

Lemma generatorAhead_subseteq s (m : gmap Z V) :
  m ⊆ records s → generatorAhead s → generatorAhead (mkStore m (currentNumber s)).
Proof.
  intros Hm [Hpos Hwf]. split; [done|]. intros i x Hi. simpl.
  eapply Hwf, lookup_weaken; [exact Hi|exact Hm].
Qed.

Lemma generatorAhead_clear s : generatorAhead s → generatorAhead (IDBclear s).
Proof. intros [Hpos _]. split; [done|apply map_Forall_empty]. Qed.

(** The key generator never issues a key that is in use. *)
Lemma generatorAhead_fresh s :
  generatorAhead s → currentNumber s ≤ maxKey →
  records s !! currentNumber s = None.
Proof.
  intros [_ Hwf] Hmax.
  destruct (records s !! currentNumber s) as [v|] eqn:Hk; [|done].
  apply Hwf in Hk. specialize (Hk Hmax). lia.
Qed.
End Invariant.

Section Reach.
Variable clock : nat → Z.
Variable DateValue : option string → number.

Lemma wf_initial : wf initial.
Proof. split; apply wfStore_new. Qed.

Lemma consistent_initial : consistent initial.
Proof. split; apply generatorAhead_new. Qed.

Lemma consistent_await {A B} (p : Promise A) (k : A → Promise B) w :
  (∀ w, consistent w → consistent (p w).1) →
  (∀ a w, consistent w → consistent (k a w).1) →
  consistent w → consistent (await p k w).1.
Proof.
  intros Hp Hk Hw. unfold await. specialize (Hp w Hw).
  destruct (p w) as [w' [e|a]]; [done|]. by apply Hk.
Qed.

Lemma consistent_forOf {A} (l : list A) (body : A → Promise unit) w :
  (∀ x w, consistent w → consistent (body x w).1) →
  consistent w → consistent (forOf l body w).1.
Proof.
  intros Hbody. revert w. induction l as [|x l IH]; intros w Hw; [done|].
  cbn [forOf]. apply consistent_await; auto.
Qed.

Lemma consistent_addTrip tripData w :
  consistent w → consistent (addTrip clock tripData w).1.
Proof.
  intros [Ht Hp]. rewrite addTrip_unfold. cbv zeta.
  destruct (IDBadd _ _) as [e|[k s]] eqn:Hadd; [by split|].
  split; [|done]. simpl. by eapply generatorAhead_storeRecord.
Qed.

Lemma consistent_addPhoto photoData w :
  consistent w → consistent (addPhoto photoData w).1.
Proof.
  intros [Ht Hp]. unfold addPhoto, onPhotos.
  destruct (IDBadd _ _) as [e|[k s]] eqn:Hadd; [by split|].
  split; [done|]. simpl. by eapply generatorAhead_storeRecord.
Qed.

Lemma consistent_exec c w : consistent w → consistent (exec clock DateValue c w).
Proof.
  intros Hw. pose proof Hw as [Ht Hp].
  destruct c as [tripData|i tripData|i|photoData|i|i| |data|]; simpl.
  - by apply consistent_addTrip.
  - rewrite updateTrip_unfold. cbv zeta.
    destruct (IDBput _ _ _) as [e|[k s]] eqn:Hput; [by split|].
    split; [|done]. simpl. unfold IDBput in Hput.
    by eapply generatorAhead_storeRecord.
  - destruct (parseInt i) as [k|] eqn:Hk.
    + rewrite (deleteTrip_spec _ k) by done. split; simpl.
      * apply generatorAhead_subseteq; [apply delete_subseteq|done].
      * apply generatorAhead_subseteq; [apply map_filter_subseteq|done].
    + unfold deleteTrip, await. rewrite deletePhotosByTripId_NaN by done.
      by split.
  - by apply consistent_addPhoto.
  - unfold deletePhoto, onPhotos, IDBdelete.
    destruct (parseInt i); [|by split]. split; [done|]. simpl.
    apply generatorAhead_subseteq; [apply delete_subseteq|done].
  - destruct (parseInt i) as [k|] eqn:Hk.
    + rewrite (deletePhotosByTripId_spec _ k) by done. split; [done|].
      simpl. apply generatorAhead_subseteq; [apply map_filter_subseteq|done].
    + rewrite deletePhotosByTripId_NaN by done. by split.
  - by split.
  - unfold importData. destruct (doc_trips data) as [ts|]; [|by split].
    apply consistent_await; [| |done].
    { intros w' [Ht' Hp']. split; by apply generatorAhead_clear. }
    intros _ w' Hw'. apply consistent_await; [| |done].
    { intros w'' Hw''. apply consistent_forOf; [|done].
      intros x w3 Hw3. apply consistent_await; [| |done].
      - intros w4. apply consistent_addTrip.
      - by intros. }
    intros _ w'' Hw''. apply consistent_await; [| |done].
    { intros w3 Hw3. destruct (doc_photos data) as [ps|]; [|done].
      apply consistent_forOf; [|done].
      intros x w4 Hw4. apply consistent_await; [| |done].
      - intros w5. apply consistent_addPhoto.
      - by intros. }
    by intros.
  - split; by apply generatorAhead_clear.
Qed.

(** No drift: after any sequence of calls the trips figure of [getStats] is
    the number of records in the trips store. *)
Lemma getStats_trips_after_run calls :
  let w := run clock DateValue calls initial in
  ∃ st, getStats DateValue w = (w, inr st)
    ∧ stat_trips st = size (records (trips w)).
Proof.
  intros w. eexists. split; [apply getStats_unfold|]. simpl.
  rewrite sort_Permutation. apply length_IDBgetAll.
Qed.
End Reach.

(** * The properties at work on the sample data *)

Lemma sampleWorld_safeKeys : safeKeys (photos sampleWorld).
Proof. apply (bool_decide_unpack _). vm_compute. exact I. Qed.

Lemma deleteTrip_cascades_witness :
  parseInt (Str "1") = Int 1
  ∧ isSafeInteger 1
  ∧ safeKeys (photos sampleWorld)
  ∧ is_Some (records (trips sampleWorld) !! 1)
  ∧ ∃ w2 log,
      deleteTrip (Str "1") sampleWorld = (w2, inr tt)
      ∧ Journal.deleteTrip (Str "1") [] sampleWorld = (log ++ [w2], w2, inr tt)
      ∧ Forall (λ w', is_Some (records (trips w') !! 1)) log
      ∧ records (trips w2) !! 1 = None
      ∧ getPhotosByTripId (Str "1") w2 = (w2, inr []).
Proof.
  assert (parseInt (Str "1") = Int 1) as H1 by reflexivity.
  assert (isSafeInteger 1) as Hs by (apply (bool_decide_unpack _); exact I).
  assert (is_Some (records (trips sampleWorld) !! 1)) as H2
    by (vm_compute; eauto).
  split; [exact H1|]. split; [exact Hs|].
  split; [exact sampleWorld_safeKeys|]. split; [exact H2|].
  destruct (deleteTrip_cascades (Str "1") 1 sampleWorld H1 Hs
              sampleWorld_safeKeys H2)
    as (w1 & w2 & log & _ & _ & _ & _ & Hd & Hj & Hlog & Ht & _ & Hg).
  exists w2, log. split; [exact Hd|]. split; [exact Hj|].
  split; [exact Hlog|]. split; [exact Ht|exact Hg].
Defined.

Lemma deleteTrip_frame_witness :
  safeKeys (photos sampleWorld)
  ∧ isSafeInteger 1
  ∧ ∃ w', deleteTrip (Num 1) sampleWorld = (w', inr tt)
      ∧ records (trips w') !! 2 = records (trips sampleWorld) !! 2
      ∧ records (photos w') !! 3 = Some (photoOf 2 "c.jpg").
Proof.
  assert (isSafeInteger 1) as Hs by (apply (bool_decide_unpack _); exact I).
  split; [exact sampleWorld_safeKeys|]. split; [exact Hs|].
  destruct (deleteTrip_frame (Num 1) sampleWorld sampleWorld_safeKeys Hs)
    as (w' & Hd & Ht & Hp & _).
  exists w'. split; [exact Hd|]. split.
  - apply Ht. discriminate.
  - apply Hp; [reflexivity|discriminate].
Defined.

Lemma addTrip_no_validation_witness :
  wf initial
  ∧ currentNumber (trips initial) ≤ maxKey
  ∧ id (mkObj None noFields) = None
  ∧ title noFields = None
  ∧ ∃ w', addTrip ticking (mkObj None noFields) initial = (w', inr 1)
      ∧ size (records (trips w')) = 1%nat.
Proof.
  assert (wf initial) as Hwf by (split; apply map_Forall_empty).
  assert (currentNumber (trips initial) ≤ maxKey) as Hmax by discriminate.
  split; [exact Hwf|]. split; [exact Hmax|].
  split; [reflexivity|]. split; [reflexivity|].
  destruct (addTrip_no_validation ticking (mkObj None noFields) initial Hwf
              Hmax eq_refl) as (w' & Ha & _ & _ & Hs).
  exists w'. split; [exact Ha|exact Hs].
Defined.

Lemma updateTrip_upserts_witness :
  (∀ k, parseInt (Str "5") = Int k → records (trips initial) !! k = None)
  ∧ ∃ w', updateTrip ticking (Str "5") (mkObj None paris) initial = (w', inr 5)
      ∧ size (records (trips w')) = 1%nat.
Proof.
  assert (∀ k, parseInt (Str "5") = Int k →
               records (trips initial) !! k = None) as Hnew
    by (intros k _; apply lookup_empty).
  split; [exact Hnew|].
  destruct (updateTrip_upserts ticking (Str "5") (mkObj None paris) initial
              Hnew) as (w' & Hu & _ & Hs).
  exists w'. split; [exact Hu|exact Hs].
Defined.

Lemma addTrip_id_witness :
  wf sampleWorld
  ∧ (∃ w', addTrip ticking (mkObj (Some 1) lyon) sampleWorld
           = (w', inl ConstraintError)
       ∧ trips w' = trips sampleWorld)
  ∧ (∃ w', addTrip ticking (mkObj None lyon) sampleWorld = (w', inr 3)).
Proof.
  assert (wf sampleWorld) as Hwf
    by (split; apply (bool_decide_unpack _); vm_compute; exact I).
  split; [exact Hwf|]. split.
  - exact (addTrip_id ticking (mkObj (Some 1) lyon) sampleWorld Hwf).
  - destruct (addTrip_id ticking (mkObj None lyon) sampleWorld Hwf)
      as (_ & Hadd & _).
    destruct Hadd as (w' & Ha & _); [vm_compute; discriminate|].
    exists w'. exact Ha.
Defined.

Lemma updateTrip_then_getTrip_witness :
  parseInt (Str "2") = Int 2
  ∧ records (trips sampleWorld) !! 2
    = Some (setUpdatedAt 1717200000003 (setCreatedAt 1717200000002 madrid))
  ∧ ∃ w1 r,
      updateTrip ticking (Str "2") (mkObj None lyon) sampleWorld = (w1, inr 2)
      ∧ getTrip (Str "2") w1 = (w1, inr (Some r))
      ∧ id r = Some 2
      ∧ createdAt (fields r) = None
      ∧ updatedAt (fields r) = Some 1717200000004.
Proof.
  assert (parseInt (Str "2") = Int 2) as H1 by reflexivity.
  assert (records (trips sampleWorld) !! 2
          = Some (setUpdatedAt 1717200000003
                    (setCreatedAt 1717200000002 madrid))) as H2
    by (vm_compute; reflexivity).
  split; [exact H1|]. split; [exact H2|].
  destruct (updateTrip_then_getTrip ticking (Str "2") 2 (mkObj None lyon) _
              sampleWorld H1 H2) as (w1 & r & Hu & Hg & Hi & Hc & Ht & _).
  exists w1, r. split; [exact Hu|]. split; [exact Hg|]. split; [exact Hi|].
  split; [exact Hc|exact Ht].
Defined.

Lemma importData_replaces_witness :
  doc_trips sampleDocument
  = Some [mkObj (Some 7) paris; mkObj (Some 9) madrid]
  ∧ canIssue 2 (trips sampleWorld)
  ∧ canIssue 1 (photos sampleWorld)
  ∧ ∃ w', importData ticking sampleDocument sampleWorld = (w', inr true)
      ∧ records (trips w') !! 1 = None
      ∧ records (trips w') !! 3
        = Some (setUpdatedAt 1717200000005 (setCreatedAt 1717200000004 paris))
      ∧ records (trips w') !! 7 = None
      ∧ records (photos w') !! 4 = Some (photoOf 7 "a.jpg").
Proof.
  assert (canIssue 2 (trips sampleWorld)) as Hr1
    by (right; vm_compute; discriminate).
  assert (canIssue 1 (photos sampleWorld)) as Hr2
    by (right; vm_compute; discriminate).
  split; [reflexivity|]. split; [exact Hr1|]. split; [exact Hr2|].
  destruct (importData_replaces ticking sampleDocument _ sampleWorld eq_refl)
    as (Hsucc & Hafter).
  destruct (Hsucc Hr1 Hr2) as (w' & Hi).
  destruct (Hafter w' Hi) as (Ht & Hp & _).
  assert (currentNumber (trips sampleWorld) = 3) as Hg
    by (vm_compute; reflexivity).
  exists w'. split; [exact Hi|]. split; [|split; [|split]].
  - apply eq_None_not_Some. intros [v Hv].
    apply Ht in Hv as (i & t & _ & Hk & _). rewrite Hg in Hk. lia.
  - apply Ht. exists 0%nat, (mkObj (Some 7) paris).
    split; [reflexivity|]. split; reflexivity.
  - apply eq_None_not_Some. intros [v Hv].
    apply Ht in Hv as (i & t & Hl & Hk & _).
    apply lookup_lt_Some in Hl. simpl in Hl. rewrite Hg in Hk. lia.
  - apply Hp. exists 0%nat, (mkObj (Some 4) (photoOf 7 "a.jpg")).
    split; [reflexivity|]. split; reflexivity.
Defined.

Lemma getAllTrips_order_witness :
  validDates sampleDate (records (trips sampleWorld))
  ∧ (∃ l, getAllTrips sampleDate sampleWorld = (sampleWorld, inr l)
       ∧ StronglySorted (newestFirst sampleDate) l)
  ∧ [mkObj None paris; mkObj None madrid]
    ≡ₚ [mkObj None madrid; mkObj None paris]
  ∧ ∃ w1 w2 r1 r2,
      addTrips ticking [mkObj None paris; mkObj None madrid] initial
      = (w1, inr tt)
      ∧ addTrips sameMillisecond [mkObj None madrid; mkObj None paris] initial
        = (w2, inr tt)
      ∧ getAllTrips sampleDate w1 = (w1, inr r1)
      ∧ getAllTrips sampleDate w2 = (w2, inr r2)
      ∧ (λ t : Trip, content (fields t)) <$> r1
        = (λ t : Trip, content (fields t)) <$> r2.
Proof.
  assert (validDates sampleDate (records (trips sampleWorld))) as Hv
    by (apply (bool_decide_unpack _); vm_compute; exact I).
  split; [exact Hv|]. split.
  - destruct (proj1 (getAllTrips_order sampleDate) sampleWorld)
      as (l & Hl & _ & _ & Hs).
    exists l. split; [exact Hl|exact (Hs Hv)].
  - split; [apply perm_swap|].
    apply (proj2 (getAllTrips_order sampleDate) ticking sameMillisecond
             [mkObj None paris; mkObj None madrid]
             [mkObj None madrid; mkObj None paris] initial).
    + reflexivity.
    + right. vm_compute. discriminate.
    + repeat constructor.
    + repeat constructor; discriminate.
    + apply (bool_decide_unpack _). vm_compute. exact I.
    + apply perm_swap.
Defined.

Lemma import_export_counts_witness :
  canIssue (size (records (trips sampleWorld))) (trips sampleWorld)
  ∧ canIssue (size (records (photos sampleWorld))) (photos sampleWorld)
  ∧ ∃ w1 doc w2,
      exportData ticking sampleDate sampleWorld = (w1, inr doc)
      ∧ importData ticking doc w1 = (w2, inr true)
      ∧ size (records (trips w2)) = 2%nat
      ∧ size (records (photos w2)) = 3%nat.
Proof.
  assert (canIssue (size (records (trips sampleWorld))) (trips sampleWorld))
    as Hr1 by (right; vm_compute; discriminate).
  assert (canIssue (size (records (photos sampleWorld))) (photos sampleWorld))
    as Hr2 by (right; vm_compute; discriminate).
  split; [exact Hr1|]. split; [exact Hr2|].
  destruct (import_export_counts ticking sampleDate sampleWorld Hr1 Hr2)
    as (w1 & doc & w2 & He & Hi & Ht & Hp).
  exists w1, doc, w2. split; [exact He|]. split; [exact Hi|].
  split; [rewrite Ht|rewrite Hp]; vm_compute; reflexivity.
Defined.

(** ** Where the specification and the code part *)

(** C2: a trip object with none of the required fields is added. *)
Lemma addTrip_validation_counterexample :
  title noFields = None ∧ country noFields = None
  ∧ city noFields = None ∧ startDate noFields = None
  ∧ ∃ w', addTrip ticking (mkObj None noFields) initial = (w', inr 1)
      ∧ records (trips initial) !! 1 = None
      ∧ records (trips w') !! 1
        = Some (setUpdatedAt 1717200000001
                  (setCreatedAt 1717200000000 noFields)).
Proof.
  do 4 (split; [reflexivity|]).
  eexists. split; [vm_compute; reflexivity|].
  split; vm_compute; reflexivity.
Qed.

(** C3: updating an id that is not in the store creates the record. *)
Lemma updateTrip_notFound_counterexample :
  records (trips initial) !! 5 = None
  ∧ ∃ w', updateTrip ticking (Num 5) (mkObj None paris) initial = (w', inr 5)
      ∧ records (trips w') !! 5 = Some (setUpdatedAt 1717200000000 paris).
Proof.
  split; [reflexivity|].
  eexists. split; vm_compute; reflexivity.
Qed.

(** C4: a caller-supplied id is the id of the stored record, although the
    key generator stands at 1. *)
Lemma addTrip_supplied_id_counterexample :
  currentNumber (trips initial) = 1
  ∧ ∃ w', addTrip ticking (mkObj (Some 42) paris) initial = (w', inr 42)
      ∧ (getTrip (Num 42) w').2 
        = inr (Some (mkObj (Some 42)
                       (setUpdatedAt 1717200000001
                          (setCreatedAt 1717200000000 paris))))
      ∧ (getTrip (Num 1) w').2 = inr None.
Proof.
  split; [reflexivity|].
  eexists. split; [vm_compute; reflexivity|].
  split; vm_compute; reflexivity.
Qed.

(** C5: an update whose data carries no [createdAt] loses the stored one,
    and an update within the millisecond of the previous write leaves
    [updatedAt] where it was. *)
Lemma updateTrip_createdAt_counterexample :
  (∃ w1 w2 r,
     addTrip ticking (mkObj None paris) initial = (w1, inr 1)
     ∧ createdAt <$> records (trips w1) !! 1 = Some (Some 1717200000000)
     ∧ updateTrip ticking (Num 1) (mkObj None paris) w1 = (w2, inr 1)
     ∧ getTrip (Num 1) w2 = (w2, inr (Some r))
     ∧ createdAt (fields r) = None)
  ∧ (∃ w1 w2 r,
       addTrip sameMillisecond (mkObj None paris) initial = (w1, inr 1)
       ∧ updatedAt <$> records (trips w1) !! 1 = Some (Some 1717200000000)
       ∧ updateTrip sameMillisecond (Num 1) (mkObj None paris) w1
         = (w2, inr 1)
       ∧ getTrip (Num 1) w2 = (w2, inr (Some r))
       ∧ updatedAt (fields r) = Some 1717200000000).
Proof.
  split.
  - eexists _, _, _. split; [vm_compute; reflexivity|].
    split; [vm_compute; reflexivity|].
    split; [vm_compute; reflexivity|].
    split; [vm_compute; reflexivity|]. reflexivity.
  - eexists _, _, _. split; [vm_compute; reflexivity|].
    split; [vm_compute; reflexivity|].
    split; [vm_compute; reflexivity|].
    split; [vm_compute; reflexivity|]. reflexivity.
Qed.

(** C6: two trips with the same start date are listed in the order in which
    they were added. *)
Lemma getAllTrips_insertion_order_counterexample :
  startDate paris = startDate lyon
  ∧ ∃ w1 w2 r1 r2,
      addTrips ticking [mkObj None paris; mkObj None lyon] initial
      = (w1, inr tt)
      ∧ addTrips ticking [mkObj None lyon; mkObj None paris] initial
        = (w2, inr tt)
      ∧ getAllTrips sampleDate w1 = (w1, inr r1)
      ∧ getAllTrips sampleDate w2 = (w2, inr r2)
      ∧ (λ t : Trip, title (fields t)) <$> r1 = [Some "Paris"; Some "Lyon"]
      ∧ (λ t : Trip, title (fields t)) <$> r2 = [Some "Lyon"; Some "Paris"].
Proof.
  split; [reflexivity|].
  eexists _, _, _, _. split; [vm_compute; reflexivity|].
  split; [vm_compute; reflexivity|].
  split; [vm_compute; reflexivity|].
  split; [vm_compute; reflexivity|].
  split; reflexivity.
Qed.

(** C6: with a start date that is not a valid date the comparator of
    [getAllTrips] is no ordering: it ranks the undated trip level with
    [paris] and level with [madrid], and [paris] before [madrid].  The order
    in which [sort] returns such trips is left to the engine; this is why
    the order of the listing is stated for valid dates. *)
Lemma compareStartDate_invalid_date :
  sampleDate (startDate noFields) = NaN
  ∧ compareStartDate sampleDate (mkObj None paris) (mkObj None noFields) = NaN
  ∧ compareStartDate sampleDate (mkObj None noFields) (mkObj None madrid) = NaN
  ∧ isPositive
      (compareStartDate sampleDate (mkObj None madrid) (mkObj None paris))
    = true.
Proof. repeat split. Qed.

(** C8: once a key generator has no key left (here after a trip was added
    under the id 2^53) the database is still reachable, but importing what
    was just exported fails, after both stores were cleared. *)
Lemma import_export_exhausted_counterexample :
  ∃ w,
    reachable ticking sampleDate w
    ∧ size (records (trips w)) = 1%nat
    ∧ ∃ w1 doc w2,
        exportData ticking sampleDate w = (w1, inr doc)
        ∧ importData ticking doc w1 = (w2, inl ConstraintError)
        ∧ size (records (trips w2)) = 0%nat.
Proof.
  exists (run ticking sampleDate [CallAddTrip (mkObj (Some maxKey) paris)]
            initial).
  split; [by eexists|]. split; [vm_compute; reflexivity|].
  eexists _, _, _. split; [vm_compute; reflexivity|].
  split; vm_compute; reflexivity.
Qed.

(** * Further properties of the database methods *)

(** ** Adding, reading and deleting compose *)

Lemma storeRecord_add_fresh {V} (key : option number) (v : V) s k s' :
  storeRecord true key v s = inr (k, s') →
  records s !! k = None ∧ records s' = <[k := v]> (records s)
  ∧ currentNumber s ≤ currentNumber s'
  ∧ (k ≤ maxKey → k < currentNumber s').
Proof.
  unfold storeRecord. destruct key as [[j|]|]; [| done |].
  - simpl. case_bool_decide as Hj; [done|]. intros [= <- <-]. simpl.
    split; [by apply eq_None_not_Some|]. split; [done|]. lia.
  - destruct (maxKey <? _); [done|].
    simpl. case_bool_decide as Hj; [done|]. intros [= <- <-]. simpl.
    split; [by apply eq_None_not_Some|]. split; [done|]. lia.
Qed.

Lemma storeRecord_generator {V} b (key : option number) (v : V) s k s' :
  storeRecord b key v s = inr (k, s') →
  currentNumber s ≤ currentNumber s'.
Proof.
  unfold storeRecord. destruct key as [[j|]|]; [| done |].
  - destruct (b && _); [done|]. intros [= <- <-]. simpl. lia.
  - destruct (maxKey <? _); [done|].
    destruct (b && _); [done|]. intros [= <- <-]. simpl. lia.
Qed.

Lemma storeRecord_generated {V} (v : V) s k s' :
  storeRecord true None v s = inr (k, s') →
  k = currentNumber s ∧ currentNumber s' = k + 1 ∧ k ≤ maxKey.
Proof.
  unfold storeRecord. destruct (maxKey <? _) eqn:Hmax; [done|].
  apply Z.ltb_ge in Hmax.
  destruct (true && _); [done|].
  by intros [= <- <-].
Qed.

Section RoundTrips.
Variable clock : nat → Z.
Variable DateValue : option string → number.

Lemma addTrip_inv tripData w w1 k :
  addTrip clock tripData w = (w1, inr k) →
  records (trips w) !! k = None
  ∧ w1 = mkWorld
           (mkStore
              (<[k := setUpdatedAt (clock (S (clockReads w)))
                        (setCreatedAt (clock (clockReads w))
                           (fields tripData))]> (records (trips w)))
              (currentNumber (trips w1)))
           (photos w) (S (S (clockReads w)))
  ∧ currentNumber (trips w) ≤ currentNumber (trips w1)
  ∧ (k ≤ maxKey → k < currentNumber (trips w1)).
Proof.
  rewrite addTrip_unfold. cbv zeta.
  destruct (IDBadd _ _) as [e|[k' s]] eqn:Hadd; [done|].
  intros [= <- <-]. unfold IDBadd in Hadd. simpl in Hadd.
  apply storeRecord_add_fresh in Hadd as (Hfresh & Hrec & Hle & Hlt).
  split; [done|]. simpl. split; [|done].
  destruct s as [m g]. simpl in *. by subst m.
Qed.

(** What was added is what is read back (under a key that is a safe
    integer, as every key is that the key generator issues below [maxKey]). *)
Theorem addTrip_then_getTrip tripData w w1 k :
  addTrip clock tripData w = (w1, inr k) →
  isSafeInteger k →
  ∃ r, getTrip (Num k) w1 = (w1, inr (Some r))
    ∧ id r = Some k
    ∧ content (fields r) = content (fields tripData)
    ∧ createdAt (fields r) = Some (clock (clockReads w))
    ∧ updatedAt (fields r) = Some (clock (S (clockReads w)))
    ∧ size (records (trips w1)) = S (size (records (trips w))).
Proof.
  intros (Hfresh & -> & _)%addTrip_inv _.
  eexists. unfold getTrip, readTrips. simpl. rewrite lookup_insert_eq.
  simpl. split; [done|]. simpl. do 4 (split; [done|]).
  by apply map_size_insert_None.
Qed.

(** Deleting the trip just added restores the trips (the key of the trip
    and the keys of the photos being safe integers). *)
Theorem addTrip_then_deleteTrip tripData w w1 k :
  addTrip clock tripData w = (w1, inr k) →
  isSafeInteger k →
  safeKeys (photos w) →
  ∃ w2, deleteTrip (Num k) w1 = (w2, inr tt)
    ∧ records (trips w2) = records (trips w)
    ∧ records (photos w2)
      = filter (λ kv, tripId kv.2 ≠ Some k) (records (photos w))
    ∧ k < currentNumber (trips w2).
Proof.
  intros (Hfresh & -> & _ & Hlt)%addTrip_inv [_ Hk] _.
  eexists. split; [by apply deleteTrip_spec|]. simpl.
  split; [rewrite delete_insert_eq; by apply delete_id|].
  split; [done|]. apply Hlt. unfold MAX_SAFE_INTEGER, maxKey in *. lia.
Qed.

(** Deleting a trip that is not there (the id and the keys of the photos
    being safe integers). *)
Theorem deleteTrip_missing i k w :
  parseInt i = Int k →
  isSafeInteger k →
  safeKeys (photos w) →
  records (trips w) !! k = None →
  ∃ w', deleteTrip i w = (w', inr tt)
    ∧ trips w' = trips w
    ∧ records (photos w')
      = filter (λ kv, tripId kv.2 ≠ Some k) (records (photos w)).
Proof.
  intros Hi _ _ Hk. eexists. split; [by apply deleteTrip_spec|]. simpl.
  split; [|done]. rewrite delete_id by done.
  by destruct w as [[m g] P n].
Qed.

(** Deleting twice is deleting once. *)
Theorem deleteTrip_idempotent i w :
  (deleteTrip i ;;; deleteTrip i) w = deleteTrip i w.
Proof.
  unfold await at 1. destruct (parseInt i) as [k|] eqn:Hi.
  - rewrite (deleteTrip_spec i k w Hi).
    rewrite (deleteTrip_spec i k _ Hi). simpl.
    rewrite delete_delete_eq.
    assert (filter (λ kv : Z * PhotoFields, tripId kv.2 ≠ Some k)
              (filter (λ kv : Z * PhotoFields, tripId kv.2 ≠ Some k)
                 (records (photos w)))
            = filter (λ kv : Z * PhotoFields, tripId kv.2 ≠ Some k)
                (records (photos w))) as ->; [|done].
    apply map_eq. intros j. apply option_eq. intros x.
    rewrite !map_lookup_filter_Some. tauto.
  - unfold deleteTrip, await. by rewrite deletePhotosByTripId_NaN.
Qed.

(** A photo that was added is listed for its trip, and deleting it leaves
    the photos as they were (the key of the photo and its [tripId] being
    safe integers). *)
Theorem addPhoto_then_deletePhoto photoData w w1 j :
  addPhoto photoData w = (w1, inr j) →
  isSafeInteger j →
  (∀ t, tripId (fields photoData) = Some t →
        isSafeInteger t →
        ∃ l, getPhotosByTripId (Num t) w1 = (w1, inr l)
          ∧ mkObj (Some j) (fields photoData) ∈ l)
  ∧ ∃ w2, deletePhoto (Num j) w1 = (w2, inr tt)
      ∧ records (photos w2) = records (photos w)
      ∧ trips w2 = trips w.
Proof.
  unfold addPhoto, onPhotos.
  destruct (IDBadd _ _) as [e|[j' s]] eqn:Hadd; [done|].
  intros [= <- <-]. unfold IDBadd in Hadd.
  apply storeRecord_add_fresh in Hadd as (Hfresh & Hrec & _).
  intros _. split.
  - intros t Ht _. eexists. split; [reflexivity|]. simpl.
    apply list_elem_of_filter. split; [done|].
    apply elem_of_IDBgetAll. exists j', (fields photoData).
    split; [done|]. rewrite Hrec. apply lookup_insert_eq.
  - eexists. split; [reflexivity|]. simpl. split; [|done].
    rewrite Hrec, delete_insert_eq. by apply delete_id.
Qed.
End RoundTrips.

(** ** The key generators only move forward *)

Section Generators.
Variable clock : nat → Z.
Variable DateValue : option string → number.

Lemma await_generator {A B} (p : Promise A) (k : A → Promise B) w :
  (∀ w, currentNumber (trips w) ≤ currentNumber (trips (p w).1)
        ∧ currentNumber (photos w) ≤ currentNumber (photos (p w).1)) →
  (∀ a w, currentNumber (trips w) ≤ currentNumber (trips (k a w).1)
          ∧ currentNumber (photos w) ≤ currentNumber (photos (k a w).1)) →
  currentNumber (trips w) ≤ currentNumber (trips (await p k w).1)
  ∧ currentNumber (photos w) ≤ currentNumber (photos (await p k w).1).
Proof.
  intros Hp Hk. unfold await. specialize (Hp w).
  destruct (p w) as [w' [e|a]]; [done|].
  specialize (Hk a w'). simpl in Hp. lia.
Qed.

Lemma forOf_generator {A} (l : list A) (body : A → Promise unit) w :
  (∀ x w, currentNumber (trips w) ≤ currentNumber (trips (body x w).1)
          ∧ currentNumber (photos w) ≤ currentNumber (photos (body x w).1)) →
  currentNumber (trips w) ≤ currentNumber (trips (forOf l body w).1)
  ∧ currentNumber (photos w) ≤ currentNumber (photos (forOf l body w).1).
Proof.
  intros Hbody. revert w. induction l as [|x l IH]; intros w; [simpl; lia|].
  cbn [forOf]. apply await_generator; auto.
Qed.

Lemma addTrip_generator tripData w :
  currentNumber (trips w) ≤ currentNumber (trips (addTrip clock tripData w).1)
  ∧ currentNumber (photos w)
    ≤ currentNumber (photos (addTrip clock tripData w).1).
Proof.
  rewrite addTrip_unfold. cbv zeta.
  destruct (IDBadd _ _) as [e|[k s]] eqn:Hadd; simpl; [lia|].
  unfold IDBadd in Hadd. apply storeRecord_generator in Hadd. lia.
Qed.

Lemma addPhoto_generator photoData w :
  currentNumber (trips w) ≤ currentNumber (trips (addPhoto photoData w).1)
  ∧ currentNumber (photos w)
    ≤ currentNumber (photos (addPhoto photoData w).1).
Proof.
  unfold addPhoto, onPhotos.
  destruct (IDBadd _ _) as [e|[k s]] eqn:Hadd; simpl; [lia|].
  unfold IDBadd in Hadd. apply storeRecord_generator in Hadd. lia.
Qed.

Lemma exec_generator c w :
  currentNumber (trips w) ≤ currentNumber (trips (exec clock DateValue c w))
  ∧ currentNumber (photos w)
    ≤ currentNumber (photos (exec clock DateValue c w)).
Proof.
  destruct c as [tripData|i tripData|i|photoData|i|i| |data|]; simpl.
  - rewrite addTrip_unfold. cbv zeta.
    destruct (IDBadd _ _) as [e|[k s]] eqn:Hadd; simpl; [lia|].
    unfold IDBadd in Hadd. apply storeRecord_generator in Hadd. lia.
  - rewrite updateTrip_unfold. cbv zeta.
    destruct (IDBput _ _ _) as [e|[k s]] eqn:Hput; simpl; [lia|].
    unfold IDBput in Hput. apply storeRecord_generator in Hput. lia.
  - destruct (parseInt i) as [k|] eqn:Hk.
    + rewrite (deleteTrip_spec _ k) by done. simpl. lia.
    + unfold deleteTrip, await. rewrite deletePhotosByTripId_NaN by done.
      simpl. lia.
  - unfold addPhoto, onPhotos.
    destruct (IDBadd _ _) as [e|[k s]] eqn:Hadd; simpl; [lia|].
    unfold IDBadd in Hadd. apply storeRecord_generator in Hadd. lia.
  - unfold deletePhoto, onPhotos, IDBdelete.
    destruct (parseInt i); simpl; lia.
  - destruct (parseInt i) as [k|] eqn:Hk.
    + rewrite (deletePhotosByTripId_spec _ k) by done. simpl. lia.
    + rewrite deletePhotosByTripId_NaN by done. simpl. lia.
  - lia.
  - unfold importData. destruct (doc_trips data) as [ts|]; [|simpl; lia].
    apply await_generator; [intros w'; simpl; lia|].
    intros _ w'. apply await_generator.
    { intros w''. apply forOf_generator. intros x w3.
      apply await_generator; [apply addTrip_generator|intros; simpl; lia]. }
    intros _ w''. apply await_generator; [|intros; simpl; lia].
    intros w3. destruct (doc_photos data) as [ps|]; [|simpl; lia].
    apply forOf_generator. intros x w4.
    apply await_generator; [apply addPhoto_generator|intros; simpl; lia].
  - lia.
Qed.

Lemma run_generator calls w :
  currentNumber (trips w)
  ≤ currentNumber (trips (run clock DateValue calls w))
  ∧ currentNumber (photos w)
    ≤ currentNumber (photos (run clock DateValue calls w)).
Proof.
  revert w. unfold run. induction calls as [|c calls IH]; intros w; simpl.
  - lia.
  - pose proof (exec_generator c w). pose proof (IH (exec clock DateValue c w)).
    lia.
Qed.

Lemma addTrip_generated tripData w w1 k :
  id tripData = None →
  addTrip clock tripData w = (w1, inr k) →
  k = currentNumber (trips w) ∧ currentNumber (trips w1) = k + 1.
Proof.
  destruct tripData as [i f]. simpl. intros ->.
  rewrite addTrip_unfold. cbv zeta.
  destruct (IDBadd _ _) as [e|[j s]] eqn:Hs; [done|].
  intros [= <- <-]. unfold IDBadd in Hs. simpl in Hs.
  by apply storeRecord_generated in Hs as (? & ? & _).
Qed.

(** An id the store has issued is never issued again, whatever happens in
    between (deletions, [clearAllData], imports). *)
Theorem issued_ids_increase tripData tripData' calls w w1 w2 k k' :
  id tripData = None →
  id tripData' = None →
  addTrip clock tripData w = (w1, inr k) →
  addTrip clock tripData' (run clock DateValue calls w1) = (w2, inr k') →
  k < k'.
Proof.
  intros Hid Hid' [-> H1]%addTrip_generated [-> _]%addTrip_generated;
    [|done..].
  pose proof (proj1 (run_generator calls w1)). lia.
Qed.
End Generators.

(** ** Updating *)

Section Updating.
Variable clock : nat → Z.

(** An update replaces one record and touches nothing else. *)
Theorem updateTrip_frame i k tripData w :
  parseInt i = Int k →
  ∃ w', updateTrip clock i tripData w = (w', inr k)
    ∧ records (trips w') !! k
      = Some (setUpdatedAt (clock (clockReads w)) (fields tripData))
    ∧ (∀ k', k' ≠ k → records (trips w') !! k' = records (trips w) !! k')
    ∧ photos w' = photos w
    ∧ (is_Some (records (trips w) !! k) →
       size (records (trips w')) = size (records (trips w))).
Proof.
  intros Hi. rewrite updateTrip_unfold, Hi. simpl.
  eexists. split; [done|]. simpl.
  split; [apply lookup_insert_eq|].
  split; [intros k' Hk'; by apply lookup_insert_ne|].
  split; [done|].
  intros [v Hv]. by apply map_size_insert_Some.
Qed.
End Updating.

(** ** Sorting what is sorted *)

Section SortFixed.
Context {A : Type} (compare : A → A → number).

Lemma sortInsert_head x l :
  ∃ l', sortInsert compare x l = x :: l'
        ∨ (∃ y l0, l = y :: l0 ∧ sortInsert compare x l = y :: l'
                   ∧ isPositive (compare x y) = true).
Proof.
  destruct l as [|y l]; simpl; [by eexists; left|].
  destruct (isPositive (compare x y)) eqn:Hxy; eexists; [right|left]; eauto.
Qed.

Lemma sortInsert_inOrder x l :
  (∀ a b, isPositive (compare a b) = true →
          isPositive (compare b a) = false) →
  Sorted (inOrder compare) l → Sorted (inOrder compare) (sortInsert compare x l).
Proof.
  intros Hanti Hl. induction Hl as [|y l Hl IH Hy]; simpl.
  { by repeat constructor. }
  destruct (isPositive (compare x y)) eqn:Hxy.
  - constructor; [done|].
    destruct (sortInsert_head x l) as [l' [->|(z & l0 & -> & -> & _)]].
    + constructor. by apply Hanti.
    + constructor. by inversion Hy.
  - constructor; [by constructor|]. by constructor.
Qed.

Lemma sort_inOrder l :
  (∀ a b, isPositive (compare a b) = true →
          isPositive (compare b a) = false) →
  Sorted (inOrder compare) (sort compare l).
Proof.
  intros Hanti. induction l as [|x l IH]; [constructor|].
  unfold sort. simpl. by apply sortInsert_inOrder.
Qed.

Lemma sort_fixed l : Sorted (inOrder compare) l → sort compare l = l.
Proof.
  intros Hl. induction Hl as [|x l Hl IH Hx]; [done|].
  unfold sort in *. simpl. rewrite IH.
  destruct Hx as [|y l Hxy]; [done|]. simpl.
  unfold inOrder in Hxy. by rewrite Hxy.
Qed.
End SortFixed.

Lemma Sorted_fmap_inv {A B} (f : A → B) (R1 : relation A) (R2 : relation B)
    (l : list A) :
  (∀ x y, R2 (f x) (f y) → R1 x y) →
  Sorted R2 (f <$> l) → Sorted R1 l.
Proof.
  intros HR. induction l as [|x l IH]; [constructor|].
  rewrite fmap_cons. intros Hs. apply Sorted_inv in Hs as [Hs Hh].
  constructor; [by apply IH|].
  destruct l as [|y l]; [constructor|]. constructor. apply HR.
  by inversion Hh.
Qed.

Lemma filter_tripId_fields (k : Z) (l l' : list Photo) :
  fields <$> l = fields <$> l' →
  fields <$> filter (λ p : Photo, tripId (fields p) = Some k) l
  = fields <$> filter (λ p : Photo, tripId (fields p) = Some k) l'.
Proof.
  revert l'. induction l as [|p l IH]; intros [|p' l'] Heq; try done.
  simpl in Heq. injection Heq as Hp Hl.
  rewrite !filter_cons. rewrite <-Hp.
  destruct (decide (tripId (fields p) = Some k)); simpl;
    [rewrite Hp; f_equal|]; by apply IH.
Qed.

Lemma fields_reissue {V} g (vs : list V) :
  fields <$> ((λ kv : Z * V, mkObj (Some kv.1) kv.2) <$> reissue g vs) = vs.
Proof.
  revert g. induction vs as [|v vs IH]; intros g; [done|].
  simpl. f_equal. apply IH.
Qed.

Section BackupMore.
Variable clock : nat → Z.
Variable DateValue : option string → number.

Lemma compareStartDate_anti (a b : Trip) :
  isPositive (compareStartDate DateValue a b) = true →
  isPositive (compareStartDate DateValue b a) = false.
Proof.
  unfold compareStartDate.
  destruct (DateValue (startDate (fields a))),
           (DateValue (startDate (fields b))); simpl; try done.
  intros ?%Z.ltb_lt. apply Z.ltb_ge. lia.
Qed.

(** A document without [trips] is refused before anything is cleared; a
    document with [trips] is imported exactly when each key generator has a
    key for every record it is to store. *)
Theorem importData_outcomes data w :
  match doc_trips data with
  | None => importData clock data w = (w, inl InvalidDataFormat)
  | Some ts =>
      (canIssue (length ts) (trips w) →
       canIssue (length (default [] (doc_photos data))) (photos w) →
       ∃ w', importData clock data w = (w', inr true)
         ∧ size (records (trips w')) = length ts
         ∧ size (records (photos w')) = length (default [] (doc_photos data)))
      ∧ (∀ w', importData clock data w = (w', inr true) →
           canIssue (length ts) (trips w)
           ∧ canIssue (length (default [] (doc_photos data))) (photos w))
  end.
Proof.
  destruct (doc_trips data) as [ts|] eqn:Hts.
  - split.
    + intros Hr1 Hr2. eexists. split; [by apply importData_spec|]. simpl.
      by rewrite !size_reissue, length_stamps, length_fmap.
    + intros w' Himp.
      destruct (importData_inr _ _ _ _ Himp) as (ts' & Hts' & Hr1 & Hr2).
      by simplify_eq.
  - unfold importData. by rewrite Hts.
Qed.

(** Export then import keeps the listing (when the start dates are valid
    dates and the key generators have the keys): the same trips in the same
    order up to ids and timestamps, the same photos in the same order up to
    ids. *)
Theorem import_export_listing w :
  validDates DateValue (records (trips w)) →
  canIssue (size (records (trips w))) (trips w) →
  canIssue (size (records (photos w))) (photos w) →
  ∃ w1 doc w2 before after,
    exportData clock DateValue w = (w1, inr doc)
    ∧ importData clock doc w1 = (w2, inr true)
    ∧ getAllTrips DateValue w = (w, inr before)
    ∧ getAllTrips DateValue w2 = (w2, inr after)
    ∧ (λ t : Trip, content (fields t)) <$> after
      = (λ t : Trip, content (fields t)) <$> before
    ∧ fields <$> IDBgetAll (photos w2) = fields <$> IDBgetAll (photos w).
Proof.
  intros _ Hr1 Hr2.
  eexists _, _, _, _, _. split; [apply exportData_unfold|].
  split.
  { apply importData_spec; [done|..]; simpl.
    - by rewrite sort_Permutation, length_IDBgetAll.
    - by rewrite length_IDBgetAll. }
  split; [apply getAllTrips_unfold|]. split; [apply getAllTrips_unfold|].
  simpl. rewrite !IDBgetAll_reissue.
  set (before := sort (compareStartDate DateValue) (IDBgetAll (trips w))).
  set (new := (λ kv : Z * TripFields, mkObj (Some kv.1) kv.2) <$> _).
  assert ((λ t : Trip, content (fields t)) <$> new
          = (λ t : Trip, content (fields t)) <$> before) as Hc.
  { unfold new.
    rewrite (list_fmap_compose fields content), fields_reissue.
    apply content_stamps. }
  split.
  - rewrite sort_fixed; [done|].
    apply (Sorted_fmap_inv (λ t : Trip, content (fields t)) _
             (λ a b : TripFields,
                isPositive (minus (DateValue (startDate b))
                              (DateValue (startDate a))) = false));
      [done|].
    rewrite Hc.
    apply (Sorted_fmap _ (inOrder (compareStartDate DateValue))); [done|].
    apply sort_inOrder, compareStartDate_anti.
  - by rewrite fields_reissue.
Qed.

(** After export and import in the same database (the key generators having
    the keys) no trip has its old id, while each trip's photos are all still
    stored under the old [tripId]. *)
Theorem import_export_orphans w k :
  wf w →
  canIssue (size (records (trips w))) (trips w) →
  canIssue (size (records (photos w))) (photos w) →
  isSafeInteger k →
  is_Some (records (trips w) !! k) →
  ∃ w1 doc w2 l l2,
    exportData clock DateValue w = (w1, inr doc)
    ∧ importData clock doc w1 = (w2, inr true)
    ∧ getTrip (Num k) w2 = (w2, inr None)
    ∧ getPhotosByTripId (Num k) w = (w, inr l)
    ∧ getPhotosByTripId (Num k) w2 = (w2, inr l2)
    ∧ fields <$> l2 = fields <$> l.
Proof.
  intros [Hwf _] Hr1 Hr2 _ [v Hk]. apply Hwf in Hk.
  eexists _, _, _, _, _. split; [apply exportData_unfold|].
  split.
  { apply importData_spec; [done|..]; simpl.
    - by rewrite sort_Permutation, length_IDBgetAll.
    - by rewrite length_IDBgetAll. }
  split; [|split; [reflexivity|split; [reflexivity|]]].
  - unfold getTrip, readTrips. simpl.
    assert ((list_to_map
               (reissue (currentNumber (trips w))
                  (stamps clock (S (clockReads w))
                     (sort (compareStartDate DateValue)
                        (IDBgetAll (trips w))))) : gmap Z TripFields)
              !! k = None) as ->; [|done].
    apply eq_None_not_Some. intros [x Hx].
    apply lookup_reissue in Hx as (i & _ & ->). lia.
  - simpl. rewrite IDBgetAll_reissue.
    apply filter_tripId_fields.
    by rewrite fields_reissue.
Qed.

(** Every stored trip is listed exactly once, whatever the start dates. *)
Theorem getAllTrips_complete w :
  ∃ l, getAllTrips DateValue w = (w, inr l)
    ∧ NoDup l
    ∧ length l = size (records (trips w))
    ∧ ∀ t, t ∈ l ↔
        ∃ k v, t = mkObj (Some k) v ∧ records (trips w) !! k = Some v.
Proof.
  eexists. split; [apply getAllTrips_unfold|].
  split; [rewrite sort_Permutation; apply NoDup_IDBgetAll|].
  split; [rewrite sort_Permutation; apply length_IDBgetAll|].
  intros t. rewrite sort_Permutation. apply elem_of_IDBgetAll.
Qed.
End BackupMore.

(** ** Substrings *)

Lemma string_app_nil (s : string) : String.append "" s = s.
Proof. reflexivity. Qed.

Lemma string_app_cons x (a b : string) :
  String.append (String x a) b = String x (String.append a b).
Proof. reflexivity. Qed.

Lemma string_app_assoc (a b c : string) :
  String.append (String.append a b) c = String.append a (String.append b c).
Proof.
  induction a as [|x a IH]; [done|].
  rewrite !string_app_cons. f_equal. exact IH.
Qed.

Lemma startsWith_spec sub s :
  startsWith sub s = true ↔ ∃ b, s = String.append sub b.
Proof.
  revert s. induction sub as [|x sub IH]; intros s.
  - split; [by exists s|done].
  - destruct s as [|y s]; cbn [startsWith].
    + split; [done|]. intros [b Hb]. by rewrite string_app_cons in Hb.
    + rewrite andb_true_iff, IH, Ascii.eqb_eq. split.
      * intros [-> [b ->]]. by exists b.
      * intros [b Hb]. rewrite string_app_cons in Hb.
        injection Hb as -> ->. eauto.
Qed.

Lemma includes_spec s sub :
  includes s sub = true ↔
  ∃ a b, s = String.append a (String.append sub b).
Proof.
  induction s as [|y s IH]; cbn [includes].
  - rewrite orb_false_r, startsWith_spec. split.
    + intros [b ->]. by exists "", b.
    + intros ([|x a] & b & Heq).
      * rewrite string_app_nil in Heq. by exists b.
      * by rewrite string_app_cons in Heq.
  - rewrite orb_true_iff, IH, startsWith_spec. split.
    + intros [[b ->]|(a & b & ->)].
      * by exists "", b.
      * by exists (String y a), b.
    + intros ([|x a] & b & Heq).
      * left. rewrite string_app_nil in Heq. by exists b.
      * right. rewrite string_app_cons in Heq. injection Heq as -> ->.
        by exists a, b.
Qed.

Lemma includes_empty s : includes s "" = true.
Proof. apply includes_spec. by exists "", s. Qed.

Lemma includes_trans s q2 q1 :
  includes s q2 = true → includes q2 q1 = true → includes s q1 = true.
Proof.
  rewrite !includes_spec. intros (a & b & ->) (c & d & ->).
  exists (String.append a c), (String.append d b).
  by rewrite !string_app_assoc.
Qed.

Lemma filter_sublist_impl {A} (P Q : A → Prop)
    `{∀ x, Decision (P x)} `{∀ x, Decision (Q x)} (l : list A) :
  (∀ x, x ∈ l → P x → Q x) → filter P l `sublist_of` filter Q l.
Proof.
  induction l as [|x l IH]; intros HPQ; [done|].
  rewrite !filter_cons.
  assert (filter P l `sublist_of` filter Q l) as Hl.
  { apply IH. intros y Hy. apply HPQ. by right. }
  destruct (decide (P x)) as [HP|HP].
  - rewrite decide_True by (apply HPQ; [by left|done]). by constructor.
  - destruct (decide (Q x)); [by constructor|done].
Qed.

Section Queries.
Variable clock : nat → Z.
Variable DateValue : option string → number.
Variable toLowerCase : string → string.
Variable thirtyDaysBefore : Z → Z.

Lemma getRecentTrips_unfold limit w :
  getRecentTrips DateValue limit w
  = (w, inr (slice0 (sort (compareStartDate DateValue) (IDBgetAll (trips w)))
               (default 5 limit))).
Proof. reflexivity. Qed.

Lemma searchTrips_unfold query w :
  searchTrips DateValue toLowerCase query w
  = (w, inr (filter (λ trip, tripMatches toLowerCase (toLowerCase query) trip)
               (sort (compareStartDate DateValue) (IDBgetAll (trips w))))).
Proof. reflexivity. Qed.

(** The recent trips are the newest ones. *)
Theorem getRecentTrips_newest limit w :
  validDates DateValue (records (trips w)) →
  ∃ l rest,
    getAllTrips DateValue w = (w, inr (l ++ rest))
    ∧ getRecentTrips DateValue limit w = (w, inr l)
    ∧ (0 ≤ default 5 limit →
       Z.of_nat (length l)
       = Z.min (default 5 limit) (Z.of_nat (size (records (trips w)))))
    ∧ (default 5 limit < 0 →
       Z.of_nat (length l)
       = Z.max (Z.of_nat (size (records (trips w))) + default 5 limit) 0)
    ∧ (∀ a b, a ∈ l → b ∈ rest →
       startTime DateValue b ≤ startTime DateValue a).
Proof.
  intros Hv.
  destruct (getAllTrips_sorted DateValue w Hv) as (all & Hall & Hp & Hs).
  rewrite getAllTrips_unfold in Hall. injection Hall as Hall.
  rewrite getRecentTrips_unfold, getAllTrips_unfold, Hall.
  assert (length all = size (records (trips w))) as Hlen
    by (rewrite Hp; apply length_IDBgetAll).
  unfold slice0. set (n := default 5 limit).
  set (final := if n <? 0 then _ else _).
  exists (take (Z.to_nat final) all), (drop (Z.to_nat final) all).
  split; [by rewrite take_drop|]. split; [done|].
  rewrite length_take, <-Hlen. unfold final.
  split; [|split].
  - intros Hn. rewrite (proj2 (Z.ltb_ge n 0)) by done. lia.
  - intros Hn. rewrite (proj2 (Z.ltb_lt n 0)) by done. lia.
  - intros a b Ha Hb. rewrite <-(take_drop (Z.to_nat final) all) in Hs.
    pose proof (StronglySorted_app_1_elem_of _ _ _ a b Hs Ha Hb) as Hab.
    unfold newestFirst, stableDesc in Hab. lia.
Qed.

(** The empty query finds the trips that have some text or some tag. *)
Theorem searchTrips_empty_query w :
  toLowerCase "" = "" →
  ∃ all l,
    getAllTrips DateValue w = (w, inr all)
    ∧ searchTrips DateValue toLowerCase "" w = (w, inr l)
    ∧ l `sublist_of` all
    ∧ ∀ t, t ∈ l ↔
        t ∈ all
        ∧ (is_Some (title (fields t)) ∨ is_Some (country (fields t))
           ∨ is_Some (city (fields t)) ∨ is_Some (place (fields t))
           ∨ is_Some (notes (fields t))
           ∨ ∃ tag l', tags (fields t) = Some (tag :: l')).
Proof.
  intros Hlow. eexists _, _. split; [apply getAllTrips_unfold|].
  split; [apply searchTrips_unfold|]. split; [apply sublist_filter|].
  intros t. rewrite list_elem_of_filter, Hlow.
  assert (∀ v, fieldIncludes toLowerCase "" v = true ↔ is_Some v) as Hf.
  { intros [s|]; simpl.
    - rewrite includes_empty. split; [by eexists|done].
    - split; [done|]. by intros [? ?]. }
  unfold tripMatches. rewrite !Is_true_true, !orb_true_iff, !Hf.
  split.
  - intros [Hm Hin]. split; [done|].
    destruct Hm as [[[[[?|?]|?]|?]|?]|Ht]; [tauto..|].
    do 5 right. destruct (tags (fields t)) as [[|tag l']|]; [done| |done].
    eauto.
  - intros [Hin Hm]. split; [|done].
    destruct Hm as [?|[?|[?|[?|[?|(tag & l' & Ht)]]]]]; [tauto..|].
    right. rewrite Ht. simpl. by rewrite includes_empty.
Qed.

Lemma tripMatches_narrow q1 q2 t :
  includes q2 q1 = true →
  tripMatches toLowerCase q2 t = true → tripMatches toLowerCase q1 t = true.
Proof.
  intros Hq.
  assert (∀ v, fieldIncludes toLowerCase q2 v = true →
               fieldIncludes toLowerCase q1 v = true) as Hf.
  { intros [s|]; simpl; [|done]. intros Hs. by eapply includes_trans. }
  unfold tripMatches. rewrite !orb_true_iff.
  intros [[[[[?|?]|?]|?]|?]|Ht]; auto 10.
  right. destruct (tags (fields t)) as [l|]; [|done].
  apply existsb_exists in Ht as (tag & Hin & Htag).
  apply existsb_exists. exists tag. split; [done|].
  by eapply includes_trans.
Qed.

(** A longer query finds no more than a query it contains. *)
Theorem searchTrips_narrows q1 q2 w :
  includes (toLowerCase q2) (toLowerCase q1) = true →
  ∃ all l1 l2,
    getAllTrips DateValue w = (w, inr all)
    ∧ searchTrips DateValue toLowerCase q1 w = (w, inr l1)
    ∧ searchTrips DateValue toLowerCase q2 w = (w, inr l2)
    ∧ l2 `sublist_of` l1
    ∧ l1 `sublist_of` all.
Proof.
  intros Hq. eexists _, _, _. split; [apply getAllTrips_unfold|].
  split; [apply searchTrips_unfold|]. split; [apply searchTrips_unfold|].
  split; [|apply sublist_filter].
  apply filter_sublist_impl. intros t _. rewrite !Is_true_true.
  by apply tripMatches_narrow.
Qed.

(** With a search query, [loadTrips] shows the search result whatever the
    filter tab. *)
Theorem loadTrips_search_overrides_filter currentFilter searchQuery w :
  searchQuery ≠ "" →
  ∃ w',
    loadTrips clock DateValue toLowerCase thirtyDaysBefore
      currentFilter searchQuery w
    = (w', (searchTrips DateValue toLowerCase searchQuery w).2)
    ∧ trips w' = trips w ∧ photos w' = photos w.
Proof.
  intros Hq. unfold loadTrips.
  assert (Boolean (Some searchQuery) = true) as ->.
  { simpl. by destruct (String.eqb_spec searchQuery ""). }
  unfold await at 1. rewrite getAllTrips_unfold.
  unfold await at 1. rewrite (searchTrips_unfold searchQuery w).
  destruct (String.eqb currentFilter "favorites").
  { exists w. unfold resolve. rewrite searchTrips_unfold. done. }
  destruct (String.eqb currentFilter "recent").
  { exists (mkWorld (trips w) (photos w) (S (clockReads w))).
    unfold await, now, resolve. rewrite searchTrips_unfold. done. }
  exists w. unfold resolve. rewrite searchTrips_unfold. done.
Qed.

End Queries.

(** ** Counting names in a plain object *)

Lemma eqb_string_true (a b : string) : String.eqb a b = true ↔ a = b.
Proof. apply String.eqb_eq. Qed.

Lemma getOwn_None own k : getOwn own k = None ↔ k ∉ own.*1.
Proof.
  induction own as [|[k' v] own IH]; simpl.
  - split; [intros _; apply not_elem_of_nil|done].
  - rewrite not_elem_of_cons. destruct (String.eqb_spec k' k) as [->|Hne].
    + split; [done|]. by intros [? _].
    + rewrite IH. split; [by split|by intros [_ ?]].
Qed.

Lemma getOwn_Some own k v :
  NoDup own.*1 → getOwn own k = Some v ↔ (k, v) ∈ own.
Proof.
  induction own as [|[k' v'] own IH]; simpl; intros Hnd.
  - split; [done|by intros ?%elem_of_nil].
  - apply NoDup_cons in Hnd as [Hk' Hnd]. rewrite elem_of_cons.
    destruct (String.eqb_spec k' k) as [->|Hne].
    + split; [intros [= ->]; by left|].
      intros [[= ->]|Hin]; [done|]. exfalso. apply Hk'.
      apply list_elem_of_fmap. by exists (k, v).
    + rewrite IH by done. split; [by right|].
      intros [[= ? ?]|?]; [by subst|done].
Qed.

Lemma setOwn_keys own k v :
  (setOwn own k v).*1 = if bool_decide (k ∈ own.*1) then own.*1
                        else own.*1 ++ [k].
Proof.
  induction own as [|[k' v'] own IH]; csimpl; [done|].
  destruct (String.eqb_spec k' k) as [->|Hne]; csimpl.
  - rewrite bool_decide_eq_true_2 by (by left). done.
  - rewrite IH. case_bool_decide as Hin.
    + rewrite bool_decide_eq_true_2 by (by right). done.
    + rewrite bool_decide_eq_false_2; [done|].
      intros [?|?]%elem_of_cons; by subst.
Qed.

Lemma setOwn_NoDup own k v : NoDup own.*1 → NoDup (setOwn own k v).*1.
Proof.
  intros Hnd. rewrite setOwn_keys. case_bool_decide as Hin; [done|].
  apply NoDup_app. split; [done|]. split; [|apply NoDup_singleton].
  intros x Hx ->%list_elem_of_singleton. done.
Qed.

Lemma getOwn_setOwn own k v k' :
  getOwn (setOwn own k v) k' = if String.eqb k k' then Some v
                               else getOwn own k'.
Proof.
  induction own as [|[k0 v0] own IH]; simpl.
  - done.
  - destruct (String.eqb_spec k0 k) as [->|Hne]; simpl.
    + by destruct (String.eqb_spec k k').
    + rewrite IH. destruct (String.eqb_spec k0 k') as [->|Hne'];
        [|done].
      destruct (String.eqb_spec k k'); [by subst|done].
Qed.

Lemma occurrences_pos k ks : k ∈ ks → (0 < occurrences k ks)%nat.
Proof.
  intros Hk. unfold occurrences.
  assert (k ∈ filter (λ x, x = k) ks) as Hin
    by (by apply list_elem_of_filter).
  destruct (filter _ ks); [by apply elem_of_nil in Hin|simpl; lia].
Qed.

Lemma occurrences_snoc k ks x :
  occurrences k (ks ++ [x])
  = if bool_decide (x = k) then S (occurrences k ks) else occurrences k ks.
Proof.
  unfold occurrences. rewrite filter_app, length_app, filter_cons.
  case_bool_decide as Hx.
  - rewrite decide_True by done. simpl. lia.
  - rewrite decide_False by done. simpl. lia.
Qed.

Lemma occurrences_notin k ks : k ∉ ks → occurrences k ks = 0%nat.
Proof.
  intros Hk. unfold occurrences.
  destruct (filter _ ks) as [|y l] eqn:Hf; [done|].
  assert (y ∈ filter (λ x, x = k) ks) as Hy by (rewrite Hf; by left).
  apply list_elem_of_filter in Hy as [-> ?]. done.
Qed.

Lemma countKey_counted own ks k :
  k ∉ objectPrototypeNames →
  counted own ks → counted (countKey own k) (ks ++ [k]).
Proof.
  intros Hk [Hnd Hget]. unfold countKey.
  rewrite (Hget k). rewrite (bool_decide_eq_false_2 _ Hk).
  case_bool_decide as Hin.
  - pose proof (occurrences_pos k ks Hin) as Hpos.
    assert (truthyNumber (Int (Z.of_nat (occurrences k ks))) = true) as ->.
    { simpl. apply negb_true_iff, Z.eqb_neq. lia. }
    simpl. split; [by apply setOwn_NoDup|]. intros k'.
    rewrite getOwn_setOwn, occurrences_snoc, Hget.
    destruct (String.eqb_spec k k') as [->|Hne].
    + rewrite bool_decide_eq_true_2 by (apply elem_of_app; by left).
      rewrite bool_decide_eq_true_2 by done. do 2 f_equal. lia.
    + rewrite (bool_decide_eq_false_2 (k = k')) by done.
      assert (bool_decide (k' ∈ ks ++ [k]) = bool_decide (k' ∈ ks)) as ->;
        [|done].
      apply bool_decide_ext. rewrite elem_of_app, list_elem_of_singleton.
      split; [|by left]. by intros [?|?].
  - split; [by apply setOwn_NoDup|]. intros k'.
    rewrite getOwn_setOwn, occurrences_snoc, Hget.
    destruct (String.eqb_spec k k') as [->|Hne].
    + rewrite bool_decide_eq_true_2 by (apply elem_of_app; right; by left).
      rewrite bool_decide_eq_true_2 by done.
      by rewrite occurrences_notin.
    + rewrite (bool_decide_eq_false_2 (k = k')) by done.
      assert (bool_decide (k' ∈ ks ++ [k]) = bool_decide (k' ∈ ks)) as ->;
        [|done].
      apply bool_decide_ext. rewrite elem_of_app, list_elem_of_singleton.
      split; [|by left]. by intros [?|?].
Qed.

Lemma foldl_countKey_counted own ks0 ks :
  Forall (λ k, k ∉ objectPrototypeNames) ks →
  counted own ks0 → counted (foldl countKey own ks) (ks0 ++ ks).
Proof.
  intros Hks. revert own ks0.
  induction Hks as [|k ks Hk _ IH]; intros own ks0 Hc; simpl.
  - by rewrite app_nil_r.
  - replace (ks0 ++ k :: ks) with ((ks0 ++ [k]) ++ ks)
      by (by rewrite <-(assoc_L (++))).
    apply IH. by apply countKey_counted.
Qed.

Lemma counted_nil : counted [] [].
Proof. split; [constructor|]. intros k. done. Qed.

Lemma ObjectEntries_Permutation own : ObjectEntries own ≡ₚ own.
Proof.
  unfold ObjectEntries. rewrite merge_sort_Permutation.
  apply filter_app_complement.
Qed.

Lemma countEntries_Permutation own : countEntries own ≡ₚ own.
Proof.
  unfold countEntries. by rewrite sort_Permutation, ObjectEntries_Permutation.
Qed.

Section SortDesc.
Context {A : Type} (compare : A → A → number) (d : A → Z).

Lemma sortInsert_descending x l :
  (∀ y, y ∈ l → compare x y = Int (d y - d x)) →
  StronglySorted (λ a b, d b ≤ d a) l →
  StronglySorted (λ a b, d b ≤ d a) (sortInsert compare x l).
Proof.
  intros Hcmp Hl. induction Hl as [|y l Hl IH Hy]; simpl.
  { repeat constructor. }
  rewrite Hcmp by (by left). simpl.
  destruct (Z.ltb_spec 0 (d y - d x)) as [Hpos|Hneg].
  - apply StronglySorted_cons. split.
    + apply Forall_forall. intros z Hz.
      rewrite sortInsert_Permutation in Hz.
      apply elem_of_cons in Hz as [->|Hz]; [lia|].
      rewrite Forall_forall in Hy. by apply Hy.
    + apply IH. intros z Hz. apply Hcmp. by right.
  - apply StronglySorted_cons. split; [|by constructor].
    apply Forall_cons. split; [lia|].
    apply Forall_forall. intros z Hz. rewrite Forall_forall in Hy.
    specialize (Hy z Hz). simpl in Hy. lia.
Qed.

Lemma sort_descending l :
  (∀ x y, x ∈ l → y ∈ l → compare x y = Int (d y - d x)) →
  StronglySorted (λ a b, d b ≤ d a) (sort compare l).
Proof.
  intros Hcmp. induction l as [|x l IH]; [constructor|].
  unfold sort. simpl. apply sortInsert_descending.
  - intros y Hy. fold (sort compare l) in Hy. rewrite sort_Permutation in Hy.
    apply Hcmp; [by left|by right].
  - apply IH. intros y z Hy Hz. apply Hcmp; by right.
Qed.
End SortDesc.

(** The entries of a counter: one per name, with the number of its
    occurrences, the larger counts first. *)
Lemma countEntries_counted ks :
  Forall (λ k, k ∉ objectPrototypeNames) ks →
  let l := countEntries (foldl countKey [] ks) in
  NoDup l.*1
  ∧ (∀ k n, (k, n) ∈ l ↔
       k ∈ ks ∧ n = Int (Z.of_nat (occurrences k ks)))
  ∧ StronglySorted (λ a b, timeOf b.2 ≤ timeOf a.2) l.
Proof.
  intros Hks l.
  destruct (foldl_countKey_counted [] [] ks Hks counted_nil) as [Hnd Hget].
  simpl in Hget. set (own := foldl countKey [] ks) in *.
  assert (∀ k n, (k, n) ∈ own ↔
            k ∈ ks ∧ n = Int (Z.of_nat (occurrences k ks))) as Hel.
  { intros k n. rewrite <-getOwn_Some by done. rewrite Hget.
    case_bool_decide; split.
    - by intros [= <-].
    - by intros [_ ->].
    - done.
    - by intros [? _]. }
  split; [unfold l; by rewrite countEntries_Permutation|].
  split; [intros k n; unfold l; by rewrite countEntries_Permutation|].
  unfold l, countEntries. apply sort_descending.
  intros [k n] [k' n'] Hx Hy. rewrite ObjectEntries_Permutation in Hx, Hy.
  apply Hel in Hx as [_ ->]. apply Hel in Hy as [_ ->]. done.
Qed.

(** ** The lists of countries and tags *)

Lemma foldl_countCountry own l :
  foldl countCountry own l = foldl countKey own (visited l).
Proof.
  revert own. induction l as [|t l IH]; intros own; [done|].
  cbn [foldl]. rewrite IH. unfold countCountry, visited. csimpl.
  destruct (country (fields t)) as [c|]; [|done].
  by destruct (negb _).
Qed.

Lemma foldl_countTags own l :
  foldl countTags own l = foldl countKey own (allTags l).
Proof.
  revert own. induction l as [|t l IH]; intros own; [done|].
  cbn [foldl]. rewrite IH. unfold allTags. csimpl. rewrite foldl_app.
  unfold countTags. by destruct (tags (fields t)).
Qed.

Lemma elem_of_visited c l :
  c ∈ visited l ↔ c ≠ "" ∧ ∃ t, t ∈ l ∧ country (fields t) = Some c.
Proof.
  unfold visited. rewrite list_elem_of_omap. split.
  - intros (t & Ht & Hc).
    destruct (country (fields t)) as [c'|] eqn:Hct; [|done].
    destruct (Boolean (Some c')) eqn:Hb; [|done]. injection Hc as ->.
    split; [|by exists t]. intros ->. done.
  - intros (Hc & t & Ht & Hct). exists t. split; [done|]. rewrite Hct.
    simpl. by destruct (String.eqb_spec c "").
Qed.

Lemma visited_cons t l :
  visited (t :: l)
  = match country (fields t) with
    | Some c => if Boolean (Some c) then c :: visited l else visited l
    | None => visited l
    end.
Proof.
  unfold visited. csimpl. destruct (country (fields t)) as [c|]; [|done].
  by destruct (negb _).
Qed.

Lemma occurrences_cons k x ks :
  occurrences k (x :: ks)
  = if bool_decide (x = k) then S (occurrences k ks) else occurrences k ks.
Proof.
  unfold occurrences. rewrite filter_cons. case_bool_decide.
  - by rewrite decide_True.
  - by rewrite decide_False.
Qed.

Lemma occurrences_visited c l :
  c ≠ "" →
  occurrences c (visited l)
  = length (filter (λ t : Trip, country (fields t) = Some c) l).
Proof.
  intros Hc. induction l as [|t l IH]; [done|].
  rewrite visited_cons, filter_cons.
  destruct (country (fields t)) as [c'|] eqn:Hct.
  - destruct (Boolean (Some c')) eqn:Hb.
    + rewrite occurrences_cons. case_bool_decide as Heq.
      * subst c'. rewrite decide_True by done. simpl. by rewrite IH.
      * rewrite decide_False by congruence. done.
    + rewrite decide_False; [done|]. intros [= ->]. simpl in Hb.
      by destruct (String.eqb_spec c "").
  - by rewrite decide_False.
Qed.

Section Lists.
Variable DateValue : option string → number.

Lemma getCountriesList_unfold w :
  getCountriesList DateValue w
  = (w, inr (countEntries
               (foldl countCountry []
                  (sort (compareStartDate DateValue) (IDBgetAll (trips w)))))).
Proof. reflexivity. Qed.

Lemma getTagsList_unfold w :
  getTagsList DateValue w
  = (w, inr (countEntries
               (foldl countTags []
                  (sort (compareStartDate DateValue) (IDBgetAll (trips w)))))).
Proof. reflexivity. Qed.

Lemma visited_plain w :
  map_Forall (λ _ v, notInherited (country v)) (records (trips w)) →
  Forall (λ k, k ∉ objectPrototypeNames)
    (visited (sort (compareStartDate DateValue) (IDBgetAll (trips w)))).
Proof.
  intros Hp. apply Forall_forall. intros c Hc.
  apply elem_of_visited in Hc as (_ & t & Ht & Hct).
  rewrite sort_Permutation in Ht.
  apply elem_of_IDBgetAll in Ht as (k & v & -> & Hk).
  apply Hp in Hk. simpl in Hct. rewrite Hct in Hk. exact Hk.
Qed.

(** One entry per country, with the number of trips there, most visited
    first. *)
Theorem getCountriesList_counts w :
  map_Forall (λ _ v, notInherited (country v)) (records (trips w)) →
  ∃ all l,
    getAllTrips DateValue w = (w, inr all)
    ∧ getCountriesList DateValue w = (w, inr l)
    ∧ NoDup l.*1
    ∧ (∀ c n, (c, n) ∈ l ↔
         c ≠ ""
         ∧ (∃ t, t ∈ all ∧ country (fields t) = Some c)
         ∧ n = Int (Z.of_nat
                      (length (filter
                         (λ t : Trip, country (fields t) = Some c) all))))
    ∧ StronglySorted (λ a b, timeOf b.2 ≤ timeOf a.2) l.
Proof.
  intros Hp. eexists _, _. split; [apply getAllTrips_unfold|].
  split; [apply getCountriesList_unfold|].
  rewrite foldl_countCountry.
  destruct (countEntries_counted _ (visited_plain w Hp)) as (Hnd & Hel & Hs).
  split; [done|]. split; [|done].
  intros c n. rewrite Hel, elem_of_visited. split.
  - intros [[Hc Ht] ->]. by rewrite occurrences_visited.
  - intros (Hc & Ht & ->). by rewrite occurrences_visited.
Qed.

(** The country list has as many entries as [getStats] counts countries. *)
Theorem getCountriesList_length w :
  map_Forall (λ _ v, notInherited (country v)) (records (trips w)) →
  ∃ l st,
    getCountriesList DateValue w = (w, inr l)
    ∧ getStats DateValue w = (w, inr st)
    ∧ length l = stat_countries st.
Proof.
  intros Hp. eexists _, _. split; [apply getCountriesList_unfold|].
  split; [apply getStats_unfold|]. cbv zeta. simpl.
  set (all := sort (compareStartDate DateValue) (IDBgetAll (trips w))).
  rewrite foldl_countCountry.
  destruct (countEntries_counted _ (visited_plain w Hp)) as (Hnd & Hel & _).
  fold all in Hnd, Hel.
  destruct (distinct_count ((λ t : Trip, country (fields t)) <$> all))
    as (cs & Hcs & ->).
  rewrite <-(length_fmap fst).
  rewrite <-(size_list_to_set (C:=gset string)) by done.
  f_equal. apply set_eq. intros c.
  rewrite elem_of_list_to_set, Hcs, list_elem_of_fmap. split.
  - intros ([c' n] & -> & Hin). apply Hel in Hin as [Hin _].
    apply elem_of_visited in Hin as (Hc & t & Ht & Hct).
    split; [done|]. apply list_elem_of_fmap. by exists t.
  - intros [Hc Hin]. apply list_elem_of_fmap in Hin as (t & Hct & Ht).
    exists (c, Int (Z.of_nat (occurrences c (visited all)))). split; [done|].
    apply Hel. split; [|done]. apply elem_of_visited. eauto.
Qed.

(** One entry per tag, with the number of times it is used. *)
Theorem getTagsList_counts w :
  map_Forall (λ _ v, Forall (λ tag, tag ∉ objectPrototypeNames)
                       (default [] (tags v))) (records (trips w)) →
  ∃ all l,
    getAllTrips DateValue w = (w, inr all)
    ∧ getTagsList DateValue w = (w, inr l)
    ∧ NoDup l.*1
    ∧ (∀ tag n, (tag, n) ∈ l ↔
         tag ∈ allTags all
         ∧ n = Int (Z.of_nat (occurrences tag (allTags all))))
    ∧ StronglySorted (λ a b, timeOf b.2 ≤ timeOf a.2) l.
Proof.
  intros Hp. eexists _, _. split; [apply getAllTrips_unfold|].
  split; [apply getTagsList_unfold|].
  rewrite foldl_countTags. apply countEntries_counted.
  apply Forall_forall. intros tag Htag. unfold allTags in Htag.
  apply list_elem_of_bind in Htag as (t & Htag & Ht).
  rewrite sort_Permutation in Ht.
  apply elem_of_IDBgetAll in Ht as (k & v & -> & Hk).
  apply Hp in Hk. simpl in Htag. rewrite Forall_forall in Hk. by apply Hk.
Qed.

Lemma countKey_no_proto own k :
  "__proto__" ∉ own.*1 → "__proto__" ∉ (countKey own k).*1.
Proof.
  intros Hown. unfold countKey.
  destruct (getOwn own k) as [v|] eqn:Hk.
  - rewrite setOwn_keys. rewrite bool_decide_eq_true_2; [done|].
    destruct (decide (k ∈ own.*1)) as [|Hn]; [done|].
    apply getOwn_None in Hn. congruence.
  - apply getOwn_None in Hk.
    case_bool_decide as Hp.
    + destruct (String.eqb_spec k "__proto__") as [->|Hne]; [done|].
      rewrite setOwn_keys, bool_decide_eq_false_2 by done.
      rewrite elem_of_app, list_elem_of_singleton. by intros [?|?].
    + rewrite setOwn_keys, bool_decide_eq_false_2 by done.
      rewrite elem_of_app, list_elem_of_singleton. intros [?|Heq]; [done|].
      apply Hp. rewrite <-Heq. set_solver.
Qed.

Lemma foldl_countKey_no_proto own ks :
  "__proto__" ∉ own.*1 → "__proto__" ∉ (foldl countKey own ks).*1.
Proof.
  revert own. induction ks as [|k ks IH]; intros own Hown; [done|].
  simpl. by apply IH, countKey_no_proto.
Qed.

(** Whatever is stored, neither list ever has an entry named
    [__proto__]. *)
Theorem lists_never_name_proto w :
  ∃ l l',
    getCountriesList DateValue w = (w, inr l)
    ∧ getTagsList DateValue w = (w, inr l')
    ∧ ("__proto__" ∉ l.*1)
    ∧ ("__proto__" ∉ l'.*1).
Proof.
  eexists _, _. split; [apply getCountriesList_unfold|].
  split; [apply getTagsList_unfold|].
  rewrite foldl_countCountry, foldl_countTags.
  rewrite !countEntries_Permutation.
  split; apply foldl_countKey_no_proto, not_elem_of_nil.
Qed.
End Lists.

(** ** Ids written as text and read back *)

Ltac digit_step :=
  cbn [NilEmpty.string_of_uint parseDigits];
  match goal with
  | |- context [digitValue ?c] =>
      let v := eval vm_compute in (digitValue c) in
      change (digitValue c) with v
  end;
  cbv iota beta;
  match goal with
  | |- context [?k <? 10] => change (k <? 10) with true
  end;
  cbv iota.

Lemma parseDigits_acc (d : Decimal.uint) (p : positive) :
  parseDigits 10 (Some (Z.pos p)) (NilEmpty.string_of_uint d)
  = Some (Z.pos (Pos.of_uint_acc d p)).
Proof.
  revert p. induction d; intros p; [done|..]; digit_step;
    cbn [Pos.of_uint_acc]; rewrite <-IHd; do 2 f_equal;
    cbn [default from_option Datatypes.id]; lia.
Qed.

Lemma parseDigits_zero (d : Decimal.uint) :
  parseDigits 10 (Some 0) (NilEmpty.string_of_uint d)
  = Some (Z.of_N (Pos.of_uint d)).
Proof.
  induction d; [done|..]; digit_step;
    cbn [Pos.of_uint default from_option Datatypes.id];
    [exact IHd|..]; apply parseDigits_acc.
Qed.

Lemma parseDigits_start (d : Decimal.uint) :
  d ≠ Decimal.Nil →
  parseDigits 10 None (NilEmpty.string_of_uint d)
  = Some (Z.of_N (Pos.of_uint d)).
Proof.
  intros Hd. rewrite <-parseDigits_zero. by destruct d.
Qed.

Ltac parse_head :=
  unfold parseIntString;
  cbn [NilEmpty.string_of_uint] in *;
  repeat match goal with
         | |- context [trimStart (String ?c ?s)] =>
             change (trimStart (String c s)) with (String c s)
         end;
  cbv beta iota zeta.

Lemma parseIntString_uint (d : Decimal.uint) :
  d ≠ Decimal.Nil →
  parseIntString (NilEmpty.string_of_uint d) = Int (Z.of_N (Pos.of_uint d))
  ∧ parseIntString (String "-" (NilEmpty.string_of_uint d))
    = Int (- Z.of_N (Pos.of_uint d)).
Proof.
  intros Hd. pose proof (parseDigits_start d Hd) as Hp.
  destruct d as [|d|d|d|d|d|d|d|d|d|d]; [done|..];
    try (split; parse_head; rewrite Hp; f_equal; lia).
  destruct d as [|d|d|d|d|d|d|d|d|d|d];
    split; parse_head; rewrite Hp; f_equal; lia.
Qed.

(** A number printed in a template and parsed by [parseInt] is itself. *)
Lemma parseInt_numberToString (n : Z) : parseInt (Str (numberToString n)) = Int n.
Proof.
  unfold numberToString. destruct n as [|p|p]; [done|..]; simpl.
  - unfold NilZero.string_of_uint.
    pose proof (Unsigned.to_uint_nonnil p) as Hnil.
    destruct (parseIntString_uint (Pos.to_uint p) Hnil) as [H _].
    rewrite Unsigned.of_to in H.
    destruct (Pos.to_uint p); [done|exact H..].
  - unfold NilZero.string_of_uint.
    pose proof (Unsigned.to_uint_nonnil p) as Hnil.
    destruct (parseIntString_uint (Pos.to_uint p) Hnil) as [_ H].
    rewrite Unsigned.of_to in H.
    destruct (Pos.to_uint p); [done|exact H..].
Qed.

(** ** Opening a trip from its card *)

(** The id printed on a trip card (a safe integer, which is printed in plain
    digits and read back exactly) opens that trip with its photos; an id
    that is no longer stored opens nothing. *)
Theorem openTripDetail_from_card w k :
  isSafeInteger k →
  openTripDetail (Str (numberToString k)) w
  = (w, inr (match records (trips w) !! k with
             | Some v =>
                 Some (mkObj (Some k) v,
                       filter (λ p : Photo, tripId (fields p) = Some k)
                         (IDBgetAll (photos w)))
             | None => None
             end)).
Proof.
  intros _.
  unfold openTripDetail, await, getTrip, readTrips, getPhotosByTripId,
    readPhotos.
  rewrite parseInt_numberToString. simpl.
  by destruct (records (trips w) !! k).
Qed.

(** ** Saving a new trip with its photos *)

Lemma storeRecord_wf_generated {V} (v : V) s :
  wfStore s →
  currentNumber s ≤ maxKey →
  storeRecord true None v s
  = inr (currentNumber s,
         mkStore (<[currentNumber s := v]> (records s)) (currentNumber s + 1)).
Proof.
  intros Hwf Hmax. apply storeRecord_generate; [|done].
  by apply wfStore_fresh.
Qed.

Lemma forOf_addPhoto_wf (ps : list Photo) w :
  wfStore (photos w) →
  canIssue (length ps) (photos w) →
  Forall (λ p : Photo, id p = None) ps →
  forOf ps (λ photo, addPhoto photo ;;; resolve tt) w
  = (mkWorld (trips w)
       (mkStore
          (list_to_map (reissue (currentNumber (photos w)) (fields <$> ps))
           ∪ records (photos w))
          (currentNumber (photos w) + Z.of_nat (length ps)))
       (clockReads w), inr tt).
Proof.
  intros Hwf Hroom Hps. revert w Hwf Hroom.
  induction Hps as [|[i f] ps Hi _ IH]; intros w Hwf Hroom.
  - simpl. rewrite (left_id_L ∅ (∪)), Z.add_0_r. by destruct w as [? [] ?].
  - simpl in Hi. subst i. cbn [forOf]. unfold await at 1. unfold await at 1.
    unfold addPhoto, onPhotos, IDBadd. cbn [id fields fmap option_fmap option_map].
    destruct Hroom as [|Hroom]; [done|]. cbn [length] in Hroom.
    assert (currentNumber (photos w) ≤ maxKey) as Hmax by lia.
    rewrite (storeRecord_wf_generated _ _ Hwf Hmax). cbn [resolve].
    rewrite IH.
    2:{ eapply wfStore_storeRecord;
          [|exact Hwf|apply (storeRecord_wf_generated f _ Hwf Hmax)].
        by intros j [=]. }
    2:{ right. simpl. lia. }
    cbn [trips photos clockReads records currentNumber].
    do 3 f_equal; [|rewrite length_cons; lia].
    rewrite fmap_cons. cbn [reissue]. rewrite list_to_map_cons.
    rewrite <-insert_union_l. cbn [fields]. symmetry. apply insert_union_r.
    apply not_elem_of_list_to_map_1. intros Hk%reissue_keys. lia.
Qed.

Lemma IDBgetAll_append {V} (s : ObjectStore V) (vs : list V) :
  wfStore s →
  IDBgetAll (mkStore (list_to_map (reissue (currentNumber s) vs) ∪ records s)
               (currentNumber s + Z.of_nat (length vs)))
  = IDBgetAll s
    ++ ((λ kv : Z * V, mkObj (Some kv.1) kv.2)
          <$> reissue (currentNumber s) vs).
Proof.
  intros Hwf. unfold IDBgetAll at 2. rewrite <-fmap_app.
  apply IDBgetAll_unique.
  - apply StronglySorted_app_2.
    + intros [k1 v1] [k2 v2] H1 H2. simpl.
      rewrite merge_sort_Permutation in H1.
      apply elem_of_map_to_list in H1. apply Hwf in H1.
      apply elem_of_reissue in H2 as (i & _ & ->). lia.
    + apply sorted_records_strict.
    + apply reissue_sorted.
  - intros k v. simpl. rewrite elem_of_app, merge_sort_Permutation.
    rewrite elem_of_map_to_list, lookup_union_Some_raw.
    rewrite elem_of_list_to_map by apply NoDup_reissue.
    split.
    + intros [Hold|Hnew]; [|by left]. right. split; [|done].
      apply not_elem_of_list_to_map_1. intros Hk%reissue_keys.
      apply Hwf in Hold. lia.
    + intros [?|[_ ?]]; [by right|by left].
Qed.

Lemma forOf_fmap {A B} (f : A → B) (l : list A) (body : B → Promise unit) w :
  forOf (f <$> l) body w = forOf l (λ x, body (f x)) w.
Proof.
  revert w. induction l as [|x l IH]; intros w; [done|].
  rewrite fmap_cons. cbn [forOf]. unfold await.
  destruct (body (f x) w) as [w' [e|u]]; [done|apply IH].
Qed.

Section Saving.
Variable clock : nat → Z.

Lemma savePhotos_spec k pendingPhotos w :
  wfStore (photos w) →
  canIssue (length pendingPhotos) (photos w) →
  savePhotos k pendingPhotos w
  = (mkWorld (trips w)
       (mkStore
          (list_to_map
             (reissue (currentNumber (photos w))
                ((λ p, fields (photoFor k p)) <$> pendingPhotos))
           ∪ records (photos w))
          (currentNumber (photos w) + Z.of_nat (length pendingPhotos)))
       (clockReads w), inr tt).
Proof.
  intros Hwf Hroom. unfold savePhotos.
  rewrite <-(forOf_fmap (photoFor k) pendingPhotos
               (λ photo, addPhoto photo ;;; resolve tt)).
  rewrite forOf_addPhoto_wf;
    [|done|by rewrite length_fmap|by apply Forall_fmap, Forall_forall].
  by rewrite length_fmap, <-list_fmap_compose.
Qed.

Lemma addTrip_wf_generated tripData w :
  wfStore (trips w) →
  currentNumber (trips w) ≤ maxKey →
  id tripData = None →
  addTrip clock tripData w
  = (mkWorld
       (mkStore
          (<[currentNumber (trips w) :=
               setUpdatedAt (clock (S (clockReads w)))
                 (setCreatedAt (clock (clockReads w)) (fields tripData))]>
             (records (trips w)))
          (currentNumber (trips w) + 1))
       (photos w) (S (S (clockReads w))), inr (currentNumber (trips w))).
Proof.
  intros Hwf Hmax Hid. rewrite addTrip_unfold. cbv zeta. unfold IDBadd.
  cbn [id fields]. rewrite Hid. cbn [fmap option_fmap option_map].
  by rewrite (storeRecord_wf_generated _ _ Hwf Hmax).
Qed.

Lemma submitCreate_spec tripData pendingPhotos w :
  wf w →
  hasRoom 1 (trips w) →
  hasRoom (length pendingPhotos) (photos w) →
  id tripData = None →
  submitCreate clock tripData pendingPhotos w
  = (mkWorld
       (mkStore
          (<[currentNumber (trips w) :=
               setUpdatedAt (clock (S (clockReads w)))
                 (setCreatedAt (clock (clockReads w)) (fields tripData))]>
             (records (trips w)))
          (currentNumber (trips w) + 1))
       (mkStore
          (list_to_map
             (reissue (currentNumber (photos w))
                ((λ p, fields (photoFor (currentNumber (trips w)) p))
                   <$> pendingPhotos))
           ∪ records (photos w))
          (currentNumber (photos w) + Z.of_nat (length pendingPhotos)))
       (S (S (clockReads w))), inr (currentNumber (trips w))).
Proof.
  intros [Ht Hp] [_ Hr1] Hr2%hasRoom_canIssue Hid.
  unfold submitCreate. unfold await at 1.
  rewrite (addTrip_wf_generated _ _ Ht) by (done || lia). unfold await.
  by rewrite savePhotos_spec.
Qed.

(** A new trip saved with pending photos (the key generators having the
    keys): the photos listed for it are those already stored under its id
    followed by the pending ones. *)
Theorem submitCreate_links_photos tripData pendingPhotos w :
  wf w →
  hasRoom 1 (trips w) →
  hasRoom (length pendingPhotos) (photos w) →
  id tripData = None →
  ∃ w' old new,
    submitCreate clock tripData pendingPhotos w
    = (w', inr (currentNumber (trips w)))
    ∧ is_Some (records (trips w') !! currentNumber (trips w))
    ∧ getPhotosByTripId (Num (currentNumber (trips w))) w = (w, inr old)
    ∧ getPhotosByTripId (Num (currentNumber (trips w))) w'
      = (w', inr (old ++ new))
    ∧ fields <$> new
      = (λ p, mkPhotoFields (Some (currentNumber (trips w))) (pendingData p)
                (pendingName p) (pendingType p)) <$> pendingPhotos.
Proof.
  intros Hwf Hr1 Hr2 Hid. set (k := currentNumber (trips w)).
  exists (submitCreate clock tripData pendingPhotos w).1,
    (filter (λ p : Photo, tripId (fields p) = Some k) (IDBgetAll (photos w))),
    ((λ kv : Z * PhotoFields, mkObj (Some kv.1) kv.2)
       <$> reissue (currentNumber (photos w))
             ((λ p, fields (photoFor k p)) <$> pendingPhotos)).
  rewrite (submitCreate_spec _ _ _ Hwf Hr1 Hr2 Hid). fold k. simpl.
  split; [done|]. split; [rewrite lookup_insert_eq; by eexists|].
  split; [done|]. split.
  - unfold getPhotosByTripId, readPhotos. simpl. do 2 f_equal.
    rewrite <-(length_fmap (λ p, fields (photoFor k p)) pendingPhotos).
    rewrite (IDBgetAll_append (photos w)) by apply Hwf.
    rewrite filter_app. f_equal. clear Hr2.
    generalize (currentNumber (photos w)).
    induction pendingPhotos as [|p l IH]; intros g; [done|].
    csimpl. rewrite filter_cons_True by done. f_equal. apply IH.
  - rewrite fields_reissue. done.
Qed.

(** Deleting the trip just saved removes it and every photo saved with
    it (the key generators having the keys, and the keys of the photos
    stored before being safe integers). *)
Theorem submitCreate_then_deleteTrip tripData pendingPhotos w :
  wf w →
  hasRoom 1 (trips w) →
  hasRoom (length pendingPhotos) (photos w) →
  safeKeys (photos w) →
  id tripData = None →
  ∃ w1 w2,
    submitCreate clock tripData pendingPhotos w
    = (w1, inr (currentNumber (trips w)))
    ∧ deleteTrip (Num (currentNumber (trips w))) w1 = (w2, inr tt)
    ∧ records (trips w2) = records (trips w)
    ∧ records (photos w2)
      = filter (λ kv, tripId kv.2 ≠ Some (currentNumber (trips w)))
          (records (photos w)).
Proof.
  intros Hwf Hr1 Hr2 _ Hid. set (k := currentNumber (trips w)).
  eexists _, _. split; [by apply submitCreate_spec|].
  split; [by apply deleteTrip_spec|]. simpl. fold k. split.
  - rewrite delete_insert_eq. apply delete_id, wfStore_fresh, Hwf.
  - apply map_eq. intros j. apply option_eq. intros x.
    rewrite !map_lookup_filter_Some, lookup_union_Some_raw.
    rewrite lookup_reissue. split.
    + intros [[(i & Hi & _)|[_ Hx]] Hne]; [|done]. exfalso. apply Hne.
      simpl. rewrite list_lookup_fmap in Hi.
      destruct (pendingPhotos !! i); [|done]. simpl in Hi. by simplify_eq.
    + intros [Hx Hne]. split; [|done]. right. split; [|done].
      apply eq_None_not_Some. intros [y Hy].
      apply lookup_reissue in Hy as (i & _ & ->).
      destruct Hwf as [_ Hp]. apply Hp in Hx. lia.
Qed.
End Saving.

(** ** The invariant along any sequence of calls *)

(** Whatever is called, in whatever order, each key generator stays ahead
    of every key in use that it could still issue: the key it issues next
    is never in use. *)
Theorem run_keeps_consistent clock DateValue calls w :
  consistent w →
  let w' := run clock DateValue calls w in
  consistent w'
  ∧ (currentNumber (trips w') ≤ maxKey →
     records (trips w') !! currentNumber (trips w') = None)
  ∧ (currentNumber (photos w') ≤ maxKey →
     records (photos w') !! currentNumber (photos w') = None).
Proof.
  intros Hw w'.
  assert (consistent w') as Hw'.
  { unfold w', run.
    induction calls as [|c calls IH] using rev_ind; [exact Hw|].
    rewrite foldl_app. simpl. by apply consistent_exec. }
  split; [done|]. destruct Hw' as [Ht Hp].
  split; by apply generatorAhead_fresh.
Qed.

(** * The further properties on the sample data *)

Lemma sampleWorld_wf : wf sampleWorld.
Proof. split; apply (bool_decide_unpack _); vm_compute; exact I. Qed.

Lemma sampleWorld_room :
  hasRoom 1 (trips sampleWorld)
  ∧ hasRoom (length pendingSample) (photos sampleWorld)
  ∧ canIssue (size (records (trips sampleWorld))) (trips sampleWorld)
  ∧ canIssue (size (records (photos sampleWorld))) (photos sampleWorld).
Proof.
  split; [apply (bool_decide_unpack _); vm_compute; exact I|].
  split; [apply (bool_decide_unpack _); vm_compute; exact I|].
  split; right; vm_compute; discriminate.
Qed.

Lemma addTrip_then_getTrip_witness :
  isSafeInteger 3
  ∧ ∃ w1 r, addTrip ticking (mkObj None lyon) sampleWorld = (w1, inr 3)
      ∧ getTrip (Num 3) w1 = (w1, inr (Some r))
      ∧ id r = Some 3
      ∧ createdAt (fields r) = Some 1717200000004.
Proof.
  assert (isSafeInteger 3) as Hs
    by (apply (bool_decide_unpack _); vm_compute; exact I).
  assert (addTrip ticking (mkObj None lyon) sampleWorld
          = ((addTrip ticking (mkObj None lyon) sampleWorld).1, inr 3)) as Ha
    by (vm_compute; reflexivity).
  split; [exact Hs|].
  destruct (addTrip_then_getTrip ticking _ _ _ _ Ha Hs)
    as (r & Hg & Hi & _ & Hc & _).
  eexists _, r. split; [exact Ha|]. split; [exact Hg|].
  split; [exact Hi|exact Hc].
Defined.

Lemma addTrip_then_deleteTrip_witness :
  isSafeInteger 3
  ∧ safeKeys (photos sampleWorld)
  ∧ ∃ w1 w2, addTrip ticking (mkObj None lyon) sampleWorld = (w1, inr 3)
      ∧ deleteTrip (Num 3) w1 = (w2, inr tt)
      ∧ records (trips w2) = records (trips sampleWorld)
      ∧ 3 < currentNumber (trips w2).
Proof.
  assert (isSafeInteger 3) as Hs
    by (apply (bool_decide_unpack _); vm_compute; exact I).
  assert (addTrip ticking (mkObj None lyon) sampleWorld
          = ((addTrip ticking (mkObj None lyon) sampleWorld).1, inr 3)) as Ha
    by (vm_compute; reflexivity).
  split; [exact Hs|]. split; [exact sampleWorld_safeKeys|].
  destruct (addTrip_then_deleteTrip ticking _ _ _ _ Ha Hs
              sampleWorld_safeKeys)
    as (w2 & Hd & Ht & _ & Hk).
  eexists _, w2. split; [exact Ha|]. split; [exact Hd|].
  split; [exact Ht|exact Hk].
Defined.

Lemma deleteTrip_missing_witness :
  parseInt (Str "9") = Int 9
  ∧ isSafeInteger 9
  ∧ safeKeys (photos sampleWorld)
  ∧ records (trips sampleWorld) !! 9 = None
  ∧ ∃ w', deleteTrip (Str "9") sampleWorld = (w', inr tt)
      ∧ trips w' = trips sampleWorld.
Proof.
  assert (parseInt (Str "9") = Int 9) as H1 by reflexivity.
  assert (isSafeInteger 9) as Hs
    by (apply (bool_decide_unpack _); vm_compute; exact I).
  assert (records (trips sampleWorld) !! 9 = None) as H2
    by (vm_compute; reflexivity).
  split; [exact H1|]. split; [exact Hs|].
  split; [exact sampleWorld_safeKeys|]. split; [exact H2|].
  destruct (deleteTrip_missing (Str "9") 9 sampleWorld H1 Hs
              sampleWorld_safeKeys H2)
    as (w' & Hd & Ht & _).
  exists w'. split; [exact Hd|exact Ht].
Defined.

Lemma addPhoto_then_deletePhoto_witness :
  isSafeInteger 4
  ∧ isSafeInteger 2
  ∧ ∃ w1 w2 l,
      addPhoto (mkObj None (photoOf 2 "d.jpg")) sampleWorld = (w1, inr 4)
      ∧ getPhotosByTripId (Num 2) w1 = (w1, inr l)
      ∧ mkObj (Some 4) (photoOf 2 "d.jpg") ∈ l
      ∧ deletePhoto (Num 4) w1 = (w2, inr tt)
      ∧ records (photos w2) = records (photos sampleWorld).
Proof.
  assert (isSafeInteger 4) as Hs4
    by (apply (bool_decide_unpack _); vm_compute; exact I).
  assert (isSafeInteger 2) as Hs2
    by (apply (bool_decide_unpack _); vm_compute; exact I).
  assert (addPhoto (mkObj None (photoOf 2 "d.jpg")) sampleWorld
          = ((addPhoto (mkObj None (photoOf 2 "d.jpg")) sampleWorld).1,
             inr 4)) as Ha
    by (vm_compute; reflexivity).
  split; [exact Hs4|]. split; [exact Hs2|].
  destruct (addPhoto_then_deletePhoto _ _ _ _ Ha Hs4)
    as (Hl & w2 & Hd & Hp & _).
  destruct (Hl 2 eq_refl Hs2) as (l & Hg & Hin).
  eexists _, w2, l. split; [exact Ha|]. split; [exact Hg|].
  split; [exact Hin|]. split; [exact Hd|exact Hp].
Defined.

Lemma issued_ids_increase_witness :
  ∃ w1 w2,
    addTrip ticking (mkObj None lyon) sampleWorld = (w1, inr 3)
    ∧ addTrip ticking (mkObj None lyon)
        (run ticking sampleDate [CallDeleteTrip (Num 3); CallClearAllData] w1)
      = (w2, inr 4)
    ∧ 3 < 4.
Proof.
  assert (addTrip ticking (mkObj None lyon) sampleWorld
          = ((addTrip ticking (mkObj None lyon) sampleWorld).1, inr 3)) as Ha
    by (vm_compute; reflexivity).
  assert (addTrip ticking (mkObj None lyon)
            (run ticking sampleDate [CallDeleteTrip (Num 3); CallClearAllData]
               (addTrip ticking (mkObj None lyon) sampleWorld).1)
          = ((addTrip ticking (mkObj None lyon)
                (run ticking sampleDate
                   [CallDeleteTrip (Num 3); CallClearAllData]
                   (addTrip ticking (mkObj None lyon) sampleWorld).1)).1,
             inr 4)) as Hb
    by (vm_compute; reflexivity).
  eexists _, _. split; [exact Ha|]. split; [exact Hb|].
  exact (issued_ids_increase ticking sampleDate (mkObj None lyon)
           (mkObj None lyon) _ _ _ _ _ _ eq_refl eq_refl Ha Hb).
Defined.

Lemma updateTrip_frame_witness :
  parseInt (Str "2") = Int 2
  ∧ ∃ w', updateTrip ticking (Str "2") (mkObj None lyon) sampleWorld
          = (w', inr 2)
      ∧ records (trips w') !! 1 = records (trips sampleWorld) !! 1
      ∧ photos w' = photos sampleWorld.
Proof.
  assert (parseInt (Str "2") = Int 2) as H1 by reflexivity.
  split; [exact H1|].
  destruct (updateTrip_frame ticking (Str "2") 2 (mkObj None lyon)
              sampleWorld H1) as (w' & Hu & _ & Hf & Hp & _).
  exists w'. split; [exact Hu|]. split; [|exact Hp].
  apply Hf. discriminate.
Defined.

Lemma importData_outcomes_witness :
  canIssue 2 (trips sampleWorld)
  ∧ canIssue 1 (photos sampleWorld)
  ∧ ∃ w', importData ticking sampleDocument sampleWorld = (w', inr true)
      ∧ size (records (trips w')) = 2%nat
      ∧ size (records (photos w')) = 1%nat.
Proof.
  assert (canIssue 2 (trips sampleWorld)) as Hr1
    by (right; vm_compute; discriminate).
  assert (canIssue 1 (photos sampleWorld)) as Hr2
    by (right; vm_compute; discriminate).
  split; [exact Hr1|]. split; [exact Hr2|].
  exact (proj1 (importData_outcomes ticking sampleDocument sampleWorld)
           Hr1 Hr2).
Defined.

Lemma import_export_listing_witness :
  validDates sampleDate (records (trips sampleWorld))
  ∧ canIssue (size (records (trips sampleWorld))) (trips sampleWorld)
  ∧ canIssue (size (records (photos sampleWorld))) (photos sampleWorld)
  ∧ ∃ w1 doc w2 before after,
      exportData ticking sampleDate sampleWorld = (w1, inr doc)
      ∧ importData ticking doc w1 = (w2, inr true)
      ∧ getAllTrips sampleDate sampleWorld = (sampleWorld, inr before)
      ∧ getAllTrips sampleDate w2 = (w2, inr after)
      ∧ (λ t : Trip, content (fields t)) <$> after
        = (λ t : Trip, content (fields t)) <$> before
      ∧ fields <$> IDBgetAll (photos w2)
        = fields <$> IDBgetAll (photos sampleWorld).
Proof.
  assert (validDates sampleDate (records (trips sampleWorld))) as Hv
    by (apply (bool_decide_unpack _); vm_compute; exact I).
  destruct sampleWorld_room as (_ & _ & Hr1 & Hr2).
  split; [exact Hv|]. split; [exact Hr1|]. split; [exact Hr2|].
  exact (import_export_listing ticking sampleDate sampleWorld Hv Hr1 Hr2).
Defined.

Lemma import_export_orphans_witness :
  wf sampleWorld
  ∧ canIssue (size (records (trips sampleWorld))) (trips sampleWorld)
  ∧ canIssue (size (records (photos sampleWorld))) (photos sampleWorld)
  ∧ isSafeInteger 1
  ∧ is_Some (records (trips sampleWorld) !! 1)
  ∧ ∃ w1 doc w2 l l2,
      exportData ticking sampleDate sampleWorld = (w1, inr doc)
      ∧ importData ticking doc w1 = (w2, inr true)
      ∧ getTrip (Num 1) w2 = (w2, inr None)
      ∧ getPhotosByTripId (Num 1) sampleWorld = (sampleWorld, inr l)
      ∧ getPhotosByTripId (Num 1) w2 = (w2, inr l2)
      ∧ fields <$> l2 = fields <$> l.
Proof.
  assert (isSafeInteger 1) as Hs
    by (apply (bool_decide_unpack _); vm_compute; exact I).
  assert (is_Some (records (trips sampleWorld) !! 1)) as H2
    by (vm_compute; eauto).
  destruct sampleWorld_room as (_ & _ & Hr1 & Hr2).
  split; [exact sampleWorld_wf|]. split; [exact Hr1|]. split; [exact Hr2|].
  split; [exact Hs|]. split; [exact H2|].
  exact (import_export_orphans ticking sampleDate sampleWorld 1
           sampleWorld_wf Hr1 Hr2 Hs H2).
Defined.

Lemma getRecentTrips_newest_witness :
  validDates sampleDate (records (trips sampleWorld))
  ∧ ∃ l rest,
      getAllTrips sampleDate sampleWorld = (sampleWorld, inr (l ++ rest))
      ∧ getRecentTrips sampleDate (Some 1) sampleWorld = (sampleWorld, inr l)
      ∧ Z.of_nat (length l) = 1.
Proof.
  assert (validDates sampleDate (records (trips sampleWorld))) as Hv
    by (apply (bool_decide_unpack _); vm_compute; exact I).
  split; [exact Hv|].
  destruct (getRecentTrips_newest sampleDate (Some 1) sampleWorld Hv)
    as (l & rest & Ha & Hr & Hlen & _).
  exists l, rest. split; [exact Ha|]. split; [exact Hr|].
  rewrite Hlen by (simpl; lia). vm_compute. reflexivity.
Defined.

Lemma searchTrips_empty_query_witness :
  asciiLowerCase "" = ""
  ∧ ∃ all l,
      getAllTrips sampleDate sampleWorld = (sampleWorld, inr all)
      ∧ searchTrips sampleDate asciiLowerCase "" sampleWorld
        = (sampleWorld, inr l)
      ∧ l `sublist_of` all.
Proof.
  split; [reflexivity|].
  destruct (searchTrips_empty_query sampleDate asciiLowerCase sampleWorld
              eq_refl) as (all & l & Ha & Hs & Hsub & _).
  exists all, l. split; [exact Ha|]. split; [exact Hs|exact Hsub].
Defined.

Lemma searchTrips_narrows_witness :
  includes (asciiLowerCase "Paris") (asciiLowerCase "PAR") = true
  ∧ ∃ l1 l2,
      searchTrips sampleDate asciiLowerCase "PAR" sampleWorld
      = (sampleWorld, inr l1)
      ∧ searchTrips sampleDate asciiLowerCase "Paris" sampleWorld
        = (sampleWorld, inr l2)
      ∧ l2 `sublist_of` l1.
Proof.
  split; [reflexivity|].
  destruct (searchTrips_narrows sampleDate asciiLowerCase "PAR" "Paris"
              sampleWorld eq_refl) as (all & l1 & l2 & _ & H1 & H2 & Hs & _).
  exists l1, l2. split; [exact H1|]. split; [exact H2|exact Hs].
Defined.

Lemma loadTrips_search_overrides_filter_witness :
  ("spain" : string) ≠ ""
  ∧ ∃ w', loadTrips ticking sampleDate asciiLowerCase thirtyDays
            "favorites" "spain" sampleWorld
          = (w', (searchTrips sampleDate asciiLowerCase "spain"
                    sampleWorld).2)
      ∧ trips w' = trips sampleWorld.
Proof.
  assert (("spain" : string) ≠ "") as Hq by discriminate.
  split; [exact Hq|].
  destruct (loadTrips_search_overrides_filter ticking sampleDate
              asciiLowerCase thirtyDays "favorites" "spain" sampleWorld Hq)
    as (w' & Hl & Ht & _).
  exists w'. split; [exact Hl|exact Ht].
Defined.

Lemma taggedWorld_countries :
  map_Forall (λ _ v, notInherited (country v)) (records (trips taggedWorld)).
Proof. apply (bool_decide_unpack _); vm_compute; exact I. Qed.

Lemma getCountriesList_counts_witness :
  map_Forall (λ _ v, notInherited (country v)) (records (trips taggedWorld))
  ∧ ∃ l, getCountriesList sampleDate taggedWorld = (taggedWorld, inr l)
      ∧ NoDup l.*1
      ∧ StronglySorted (λ a b, timeOf b.2 ≤ timeOf a.2) l.
Proof.
  split; [exact taggedWorld_countries|].
  destruct (getCountriesList_counts sampleDate taggedWorld
              taggedWorld_countries) as (all & l & _ & Hl & Hn & _ & Hs).
  exists l. split; [exact Hl|]. split; [exact Hn|exact Hs].
Defined.

Lemma getCountriesList_length_witness :
  map_Forall (λ _ v, notInherited (country v)) (records (trips taggedWorld))
  ∧ ∃ l st, getCountriesList sampleDate taggedWorld = (taggedWorld, inr l)
      ∧ getStats sampleDate taggedWorld = (taggedWorld, inr st)
      ∧ length l = stat_countries st.
Proof.
  split; [exact taggedWorld_countries|].
  exact (getCountriesList_length sampleDate taggedWorld
           taggedWorld_countries).
Defined.

Lemma getTagsList_counts_witness :
  map_Forall (λ _ v, Forall (λ tag, tag ∉ objectPrototypeNames)
                       (default [] (tags v))) (records (trips taggedWorld))
  ∧ ∃ l, getTagsList sampleDate taggedWorld = (taggedWorld, inr l)
      ∧ NoDup l.*1.
Proof.
  assert (map_Forall (λ _ v, Forall (λ tag, tag ∉ objectPrototypeNames)
                       (default [] (tags v))) (records (trips taggedWorld)))
    as Ht by (apply (bool_decide_unpack _); vm_compute; exact I).
  split; [exact Ht|].
  destruct (getTagsList_counts sampleDate taggedWorld Ht)
    as (all & l & _ & Hl & Hn & _).
  exists l. split; [exact Hl|exact Hn].
Defined.

Lemma submitCreate_links_photos_witness :
  wf sampleWorld
  ∧ hasRoom 1 (trips sampleWorld)
  ∧ hasRoom (length pendingSample) (photos sampleWorld)
  ∧ id (mkObj None lyon) = None
  ∧ ∃ w' l,
      submitCreate ticking (mkObj None lyon) pendingSample sampleWorld
      = (w', inr 3)
      ∧ getPhotosByTripId (Num 3) w' = (w', inr l)
      ∧ length l = 2%nat.
Proof.
  destruct sampleWorld_room as (Hr1 & Hr2 & _).
  split; [exact sampleWorld_wf|]. split; [exact Hr1|]. split; [exact Hr2|].
  split; [reflexivity|].
  destruct (submitCreate_links_photos ticking (mkObj None lyon) pendingSample
              sampleWorld sampleWorld_wf Hr1 Hr2 eq_refl)
    as (w' & old & new & Hs & _ & Ho & Hg & Hf).
  assert (currentNumber (trips sampleWorld) = 3) as Hk
    by (vm_compute; reflexivity).
  rewrite Hk in Hs, Ho, Hg.
  assert (old = []) as ->
    by (vm_compute in Ho; injection Ho as <-; reflexivity).
  exists w', new. split; [exact Hs|]. split; [exact Hg|].
  apply (f_equal length) in Hf. rewrite !length_fmap in Hf. exact Hf.
Defined.

Lemma submitCreate_then_deleteTrip_witness :
  wf sampleWorld
  ∧ hasRoom 1 (trips sampleWorld)
  ∧ hasRoom (length pendingSample) (photos sampleWorld)
  ∧ safeKeys (photos sampleWorld)
  ∧ id (mkObj None lyon) = None
  ∧ ∃ w1 w2,
      submitCreate ticking (mkObj None lyon) pendingSample sampleWorld
      = (w1, inr 3)
      ∧ deleteTrip (Num 3) w1 = (w2, inr tt)
      ∧ records (trips w2) = records (trips sampleWorld).
Proof.
  destruct sampleWorld_room as (Hr1 & Hr2 & _).
  split; [exact sampleWorld_wf|]. split; [exact Hr1|]. split; [exact Hr2|].
  split; [exact sampleWorld_safeKeys|]. split; [reflexivity|].
  destruct (submitCreate_then_deleteTrip ticking (mkObj None lyon)
              pendingSample sampleWorld sampleWorld_wf Hr1 Hr2
              sampleWorld_safeKeys eq_refl)
    as (w1 & w2 & Hs & Hd & Ht & _).
  assert (currentNumber (trips sampleWorld) = 3) as Hk
    by (vm_compute; reflexivity).
  rewrite Hk in Hs, Hd.
  exists w1, w2. split; [exact Hs|]. split; [exact Hd|exact Ht].
Defined.

Lemma run_keeps_consistent_witness :
  consistent initial
  ∧ ∃ w',
      w' = run ticking sampleDate
             [CallAddTrip (mkObj None paris);
              CallAddTrip (mkObj (Some (maxKey + 5)) lyon);
              CallImportData sampleDocument;
              CallUpdateTrip (Str "40") (mkObj None lyon);
              CallDeleteTrip (Num 3)] initial
      ∧ consistent w'
      ∧ (currentNumber (trips w') ≤ maxKey →
         records (trips w') !! currentNumber (trips w') = None).
Proof.
  split; [exact consistent_initial|].
  eexists. split; [reflexivity|].
  destruct (run_keeps_consistent ticking sampleDate
              [CallAddTrip (mkObj None paris);
               CallAddTrip (mkObj (Some (maxKey + 5)) lyon);
               CallImportData sampleDocument;
               CallUpdateTrip (Str "40") (mkObj None lyon);
               CallDeleteTrip (Num 3)] initial consistent_initial)
    as (Hc & Ht & _).
  split; [exact Hc|exact Ht].
Defined.

Lemma openTripDetail_from_card_witness :
  isSafeInteger 2
  ∧ numberToString 2 = "2"
  ∧ openTripDetail (Str "2") sampleWorld
    = (sampleWorld,
       inr (Some (mkObj (Some 2)
                    (setUpdatedAt 1717200000003
                       (setCreatedAt 1717200000002 madrid)),
                  [mkObj (Some 3) (photoOf 2 "c.jpg")]))).
Proof.
  assert (isSafeInteger 2) as Hk
    by (apply (bool_decide_unpack _); vm_compute; exact I).
  split; [exact Hk|]. split; [reflexivity|].
  pose proof (openTripDetail_from_card sampleWorld 2 Hk) as H.
  change (numberToString 2) with "2" in H. rewrite H.
  vm_compute. reflexivity.
Defined.
